(** * react-native-decompiler: the Babel fingerprint tagger and the driver

    A shallow embedding of the two TypeScript sources of the repository:

    - [taggers/npmModuleFinders/babelModuleFinder.ts]: the fingerprint tagger
      for the array-spread Babel helper;
    - the command-line driver (argument check, cache validation, module
      enumeration, entry filtering, tagging, ignore propagation, decompiling,
      saving, cache persistence).

    JavaScript strings whose characters are inspected (module code, file
    contents) are lists of UTF-16 code units; names and file-system paths are
    [string]s.  The sparse JavaScript array [modules] is a
    list of optional modules whose [None] entries are the holes. *)

From stdpp Require Import base list relations strings gmap pretty.
From Stdlib Require Import ZArith Ascii.

Open Scope string_scope.
Open Scope Z_scope.
Open Scope nat_scope.
Open Scope list_scope.

(** ** JavaScript strings *)

Definition jsstring := list N.

Fixpoint js (s : string) : jsstring :=
  match s with
  | EmptyString => []
  | String c s' => Ascii.N_of_ascii c :: js s'
  end.

(** ** Regular expressions of the shape the fingerprints use

    The fingerprint is a sequence of literal characters, escaped literal
    characters and the wildcard [.]; it has no anchors and no flags. *)

Inductive atom :=
  | Lit (c : N)
  | Dot.

(** LineTerminator code units: LF, CR, U+2028 and U+2029. *)
Definition is_line_terminator (c : N) : bool :=
  (c =? 10)%N || (c =? 13)%N || (c =? 8232)%N || (c =? 8233)%N.

Definition atom_matches (a : atom) (c : N) : bool :=
  match a with
  | Lit d => (c =? d)%N
  | Dot => negb (is_line_terminator c)
  end.

(** Reads the regex source: [\x] is the literal [x], [.] the wildcard and
    every other character stands for itself. *)
Fixpoint regex_of_source (s : string) : list atom :=
  match s with
  | EmptyString => []
  | String "\"%char (String c s') => Lit (Ascii.N_of_ascii c) :: regex_of_source s'
  | String "."%char s' => Dot :: regex_of_source s'
  | String c s' => Lit (Ascii.N_of_ascii c) :: regex_of_source s'
  end.

Fixpoint match_here (p : list atom) (s : jsstring) : bool :=
  match p, s with
  | [], _ => true
  | a :: p', c :: s' => atom_matches a c && match_here p' s'
  | _ :: _, [] => false
  end.

(** [RegExp.prototype.test] for an unanchored, flagless pattern: a match may
    start at any position. *)
Fixpoint regex_test (p : list atom) (s : jsstring) : bool :=
  match_here p s ||
  match s with
  | [] => false
  | _ :: s' => regex_test p s'
  end.

(** ** Modules

    [Module] is a vernacular keyword: the class [Module] of [module.ts] is the
    record [ModuleT]. *)

Section WithAst.

(** The syntax trees of the parser library. *)
Context {Ast : Type}.

Record ModuleT := mkModule {
  moduleId : nat;
  moduleName : option string;
  dependencies : list nat;
  originalCode : jsstring;
  factoryBody : Ast;
  moduleCode : option Ast;
  tags : list string;
  isNpmModule : bool;
  npmModuleName : option string;
  ignored : bool;
}.

Definition set_ignored (b : bool) (m : ModuleT) : ModuleT :=
  mkModule (moduleId m) (moduleName m) (dependencies m) (originalCode m)
           (factoryBody m) (moduleCode m) (tags m) (isNpmModule m)
           (npmModuleName m) b.

Definition set_npm (b : bool) (name : option string) (m : ModuleT) : ModuleT :=
  mkModule (moduleId m) (moduleName m) (dependencies m) (originalCode m)
           (factoryBody m) (moduleCode m) (tags m) b name (ignored m).

Definition set_tags (t : list string) (m : ModuleT) : ModuleT :=
  mkModule (moduleId m) (moduleName m) (dependencies m) (originalCode m)
           (factoryBody m) (moduleCode m) t (isNpmModule m)
           (npmModuleName m) (ignored m).

Definition set_moduleCode (c : option Ast) (m : ModuleT) : ModuleT :=
  mkModule (moduleId m) (moduleName m) (dependencies m) (originalCode m)
           (factoryBody m) c (tags m) (isNpmModule m)
           (npmModuleName m) (ignored m).

(** ** The tagger operations *)

(** Modelled from the spec: [ModuleFinder.tagAsNpmModule] of the base class
    [taggers/npmModuleFinders/moduleFinder.ts], which is not among the sources.
    Spec 4.6: sets [isNpmModule=true], [npmModuleName=packageName],
    [ignored=true]. *)
Definition tagAsNpmModule (packageName : string) (m : ModuleT) : ModuleT :=
  set_ignored true (set_npm true (Some packageName) m).

(** ** babelModuleFinder.ts *)

Definition arraySpreadRegex : list atom :=
  regex_of_source
    "{var .=.\(.\[0]\),.=.\(.\[1]\),.=.\(.\[2]\),.=.\(.\[3]\);.\.exports=function\(.\){return .\(.\)\|\|.\(.\)\|\|.\(.\)\|\|.\(\);};}".

(** [BabelModuleFinder.evaluate], as a function of [this.module]. *)
Definition evaluate (m : ModuleT) : ModuleT :=
  if regex_test arraySpreadRegex (originalCode m)
  then tagAsNpmModule "@babel/runtime/helpers/toConsumableArray" m
  else m.

End WithAst.

Arguments ModuleT : clear implicits.


(** ** Cache records *)

(** Modelled from the spec: the type [CachedModule] of [cacheModule.ts],
    which is not among the sources.  Spec 4.9: for each module [moduleId],
    [originalCode], [tags], [isNpmModule], [npmModuleName], [ignored]. *)
Record CachedModule := mkCachedModule {
  cached_moduleId : nat;
  cached_originalCode : jsstring;
  cached_tags : list string;
  cached_isNpmModule : bool;
  cached_npmModuleName : option string;
  cached_ignored : bool;
}.

(** Modelled from the spec: the type [CachedFile] of [cacheModule.ts], which
    is not among the sources.  Spec 6: the fields [checksum] and [modules]. *)
Record CachedFile := mkCachedFile {
  checksum : jsstring;
  cached_modules : list CachedModule;
}.

(** ** Plugins and the router *)

Section Plugins.

Context {Ast : Type} `{EqDecision Ast}.

#[export] Instance ModuleT_eq_dec : EqDecision (ModuleT Ast).
Proof. solve_decision. Defined.

(** Modelled from the spec: what a plugin may do to the current module.
    Spec 4.6 gives the taggers [tagAsNpmModule], [tag] and [ignore]; spec 4.7
    has editors and decompilers rewrite the working tree [moduleCode]. *)
Inductive Action :=
  | ActTagAsNpmModule (packageName : string)
  | ActTag (name : string)
  | ActIgnore (reason : string)
  | ActRewrite (code : Ast).

(** Modelled from the spec: [tag] adds a label to the set [tags]. *)
Definition tag (name : string) (m : ModuleT Ast) : ModuleT Ast :=
  if decide (name ∈ tags m) then m else set_tags (tags m ++ [name]) m.

(** Modelled from the spec: [ignore] sets [ignored=true]. *)
Definition ignore (m : ModuleT Ast) : ModuleT Ast := set_ignored true m.

(** Modelled from the spec: the effect of one operation on the current
    module. *)
Definition apply_action (m : ModuleT Ast) (a : Action) : ModuleT Ast :=
  match a with
  | ActTagAsNpmModule packageName => tagAsNpmModule packageName m
  | ActTag name => tag name m
  | ActIgnore _ => ignore m
  | ActRewrite code => set_moduleCode (Some code) m
  end.

(** Modelled from the spec: the three plugin families (spec 4.4). *)
Inductive Pass := Tagger | Editor | Decompiler.

(** Modelled from the spec: a plugin value (spec 4.4).  [plugin_evaluate]
    stands for the hook run over one traversal of the module: it reads the
    module graph and the current module and yields what it does to the
    current module. *)
Record Plugin := mkPlugin {
  plugin_name : string;
  plugin_priority : Z;
  plugin_evaluate : list (option (ModuleT Ast)) → ModuleT Ast → list Action;
}.

(** Modelled from the spec: the dispatch order of spec 4.5, ascending
    priority, definition order among equal priorities: a plugin goes behind
    the plugins of the same priority that are already in the list. *)
Fixpoint insert_plugin (p : Plugin) (l : list Plugin) : list Plugin :=
  match l with
  | [] => [p]
  | q :: l' =>
      if (plugin_priority p <? plugin_priority q)%Z
      then p :: q :: l'
      else q :: insert_plugin p l'
  end.

(** Modelled from the spec: the ordered plugin list of the dispatch table. *)
Definition dispatch_order (plugins : list Plugin) : list Plugin :=
  foldl (λ l p, insert_plugin p l) [] plugins.

(** Modelled from the spec: one plugin run on the module in slot [i]; the
    plugin sees the graph with the current state of that module. *)
Definition run_plugin (modules : list (option (ModuleT Ast))) (i : nat)
    (m : ModuleT Ast) (p : Plugin) : ModuleT Ast :=
  foldl apply_action m (plugin_evaluate p (<[i := Some m]> modules) m).

(** Modelled from the spec: one traversal (spec 4.5), every plugin in
    dispatch order, each seeing the state the earlier ones left. *)
Definition Router_traverse (plugins : list Plugin)
    (modules : list (option (ModuleT Ast))) (i : nat) (m : ModuleT Ast)
    : ModuleT Ast :=
  foldl (run_plugin modules i) m (dispatch_order plugins).

(** Modelled from the spec: re-traversal until no plugin changes the module,
    capped (spec 4.5, step 3). *)
Fixpoint Router_fixpoint (cap : nat) (plugins : list Plugin)
    (modules : list (option (ModuleT Ast))) (i : nat) (m : ModuleT Ast)
    : option (ModuleT Ast) :=
  match cap with
  | 0 => None
  | S cap' =>
      let m' := Router_traverse plugins modules i m in
      if decide (m' = m) then Some m
      else Router_fixpoint cap' plugins modules i m'
  end.

(** Modelled from the spec: the bound of spec 4.5. *)
Definition fixpoint_cap : nat := 16.

(** Modelled from the spec: [Router.parse] of [router.ts], which is not among
    the sources (spec 4.5).  [None] is the error FixpointExceeded; the editor
    pass is a single traversal. *)
Definition Router_parse (pass : Pass) (plugins : list Plugin)
    (modules : list (option (ModuleT Ast))) (i : nat) (m : ModuleT Ast)
    : option (ModuleT Ast) :=
  match pass with
  | Editor => Some (Router_traverse plugins modules i m)
  | Tagger | Decompiler => Router_fixpoint fixpoint_cap plugins modules i m
  end.

End Plugins.

Arguments Action : clear implicits.
Arguments Plugin : clear implicits.

(** ** Command-line arguments *)

(** The JavaScript numbers an option of type [Number] can hold, as far as the
    driver tells them apart: [NaN] and the integers.  (A fraction or an
    infinity behaves like a negative integer: it is truthy and is the
    [moduleId] of no module.) *)
Inductive number :=
  | NaN
  | Num (z : Z).

#[export] Instance number_eq_dec : EqDecision number.
Proof. solve_decision. Defined.

(** [interface CmdArgs]; [in] and [out] are [None] when the option is not
    given. *)
Record CmdArgs := mkCmdArgs {
  arg_in : option string;
  arg_out : option string;
  bundlesFolder : string;
  entry : option number;
  performance : bool;
  verbose : bool;
  decompileIgnored : bool;
  agressiveCache : bool;
  noEslint : bool;
}.

(** Truthiness of an optional string: [undefined] and [''] are falsy. *)
Definition truthy_string (s : option string) : bool :=
  match s with
  | Some s => negb (String.eqb s "")
  | None => false
  end.

(** Truthiness of an optional number: [undefined], [0] and [NaN] are falsy. *)
Definition truthy_number (n : option number) : bool :=
  match n with
  | Some (Num z) => negb (z =? 0)%Z
  | Some NaN => false
  | None => false
  end.

(** A string in a template literal. *)
Definition template_string (s : option string) : string :=
  match s with
  | Some s => s
  | None => "undefined"
  end.

(** A number in a template literal.  [Num z] stands for an integer of
    magnitude below 10^21, as every [moduleId] of a bundle is; from 10^21 on
    JavaScript prints a number in exponent notation. *)
Definition number_to_string (n : number) : string :=
  match n with
  | NaN => "NaN"
  | Num z => pretty z
  end.

(** [`${argValues.out}/${argValues.entry ?? 'null'}.cache`] *)
Definition cacheFileName (args : CmdArgs) : string :=
  template_string (arg_out args) +:+ "/" +:+
  match entry args with
  | Some n => number_to_string n
  | None => "null"
  end +:+ ".cache".

(** [`${argValues.out}/${file.name}.js`], for a [moduleId] below 10^21 (which
    a template literal prints in decimal). *)
Definition output_path (out : option string) (name : nat) : string :=
  template_string out +:+ "/" +:+ pretty name +:+ ".js".

(** ** The world the driver acts on *)

Inductive Event :=
  | Usage
  | Log (msg : string)
  | LogError (msg : string)
  | WriteFile (path : string) (content : jsstring)
  | RemoveFile (path : string)
  | WriteCache (path : string).

#[export] Instance Event_eq_dec : EqDecision Event.
Proof. solve_decision. Defined.

(** Text files by path, directory listings by path, and what the run has
    done so far (latest event last). *)
Record World := mkWorld {
  files : gmap string jsstring;
  dirs : gmap string (list string);
  events : list Event;
}.

Definition set_files (f : gmap string jsstring) (w : World) : World :=
  mkWorld f (dirs w) (events w).

Definition set_dirs (d : gmap string (list string)) (w : World) : World :=
  mkWorld (files w) d (events w).

Definition add_event (e : Event) (w : World) : World :=
  mkWorld (files w) (dirs w) (events w ++ [e]).

(** How a computation ends: normally, by [process.exit], by an uncaught
    exception, or (in the model only) by running out of fuel in a loop. *)
Inductive Res (A : Type) :=
  | Ok (a : A) (w : World)
  | Exit (code : Z) (w : World)
  | Threw (err : string) (w : World)
  | OutOfFuel.

Arguments Ok {A} a w.
Arguments Exit {A} code w.
Arguments Threw {A} err w.
Arguments OutOfFuel {A}.

Definition M (A : Type) : Type := World → Res A.

#[export] Instance M_ret : MRet M := λ A a w, Ok a w.

#[export] Instance M_bind : MBind M := λ A B k c w,
  match c w with
  | Ok a w' => k a w'
  | Exit code w' => Exit code w'
  | Threw err w' => Threw err w'
  | OutOfFuel => OutOfFuel
  end.

Definition emit (e : Event) : M unit := λ w, Ok tt (add_event e w).
Definition console_log (msg : string) : M unit := emit (Log msg).
Definition console_error (msg : string) : M unit := emit (LogError msg).
Definition process_exit {A} (code : Z) : M A := λ w, Exit code w.
Definition throw {A} (err : string) : M A := λ w, Threw err w.
Definition out_of_fuel {A} : M A := λ _, OutOfFuel.

(** The world a computation leaves behind, however it ends. *)
Definition world_of {A} (r : Res A) : option World :=
  match r with
  | Ok _ w | Exit _ w | Threw _ w => Some w
  | OutOfFuel => None
  end.

(** Every cache write recorded in [w] was already recorded in [w0]. *)
Definition no_cache_write (w0 w : World) : Prop :=
  ∀ path, WriteCache path ∈ events w → WriteCache path ∈ events w0.

(** A computation that never writes the cache. *)
Definition cache_silent {A} (c : M A) : Prop :=
  ∀ w0 w w', no_cache_write w0 w → world_of (c w) = Some w' → no_cache_write w0 w'.

(** [fsExtra.existsSync] *)
Definition existsSync (path : string) : M bool :=
  λ w, Ok (bool_decide (is_Some (files w !! path) ∨ is_Some (dirs w !! path))) w.

(** [fsExtra.readFileSync]: throws unless the path is a file. *)
Definition readFileSync (path : string) : M jsstring :=
  λ w, match files w !! path with
       | Some content => Ok content w
       | None => Threw "ENOENT" w
       end.

(** [fsExtra.readdirSync]: throws unless the path is a directory. *)
Definition readdirSync (path : string) : M (list string) :=
  λ w, match dirs w !! path with
       | Some names => Ok names w
       | None => Threw "ENOTDIR" w
       end.

(** [fsExtra.writeFileSync] *)
Definition writeFileSync (path : string) (content : jsstring) : M unit :=
  λ w, Ok tt (add_event (WriteFile path content)
                (set_files (<[path := content]> (files w)) w)).

(** [fsExtra.removeSync] *)
Definition removeSync (path : string) : M unit :=
  λ w, Ok tt (add_event (RemoveFile path)
                (set_files (delete path (files w)) (set_dirs (delete path (dirs w)) w))).

(** [fsExtra.ensureDirSync]: throws when the path is a file. *)
Definition ensureDirSync (path : string) : M unit :=
  λ w, match files w !! path, dirs w !! path with
       | Some _, _ => Threw "EEXIST" w
       | None, Some _ => Ok tt w
       | None, None => Ok tt (set_dirs (<[path := []]> (dirs w)) w)
       end.

Fixpoint forEachM {A} (f : A → M unit) (l : list A) : M unit :=
  match l with
  | [] => mret tt
  | x :: l' => f x;; forEachM f l'
  end.

Fixpoint foldlM {A B} (f : B → A → M B) (b : B) (l : list A) : M B :=
  match l with
  | [] => mret b
  | x :: l' => b' ← f b x; foldlM f b' l'
  end.

(** [String.prototype.endsWith] *)
Definition endsWith (s suffix : string) : bool :=
  let n := String.length s in
  let k := String.length suffix in
  (k <=? n)%nat && String.eqb (String.substring (n - k) k s) suffix.

(** [Array.prototype.join] on strings. *)
Fixpoint js_join (sep : jsstring) (l : list jsstring) : jsstring :=
  match l with
  | [] => []
  | [x] => x
  | x :: l' => x ++ sep ++ js_join sep l'
  end.

(** ** The sparse array [modules] *)

(** An array index of JavaScript: an integer below 2^32 - 1. *)
Definition array_index (i : nat) : Prop := (N.of_nat i < 4294967295)%N.

#[export] Instance array_index_dec (i : nat) : Decision (array_index i).
Proof. unfold array_index. apply _. Defined.

(** [a[i] = x]: writing past the end extends the array with holes.  The list
    is the array as [a[j]] reads it, for every [j]; its length is the
    [length] of the array, and its elements are those that [filter],
    [forEach] and [find] visit, as long as the array is written at array
    indices only (a write at a larger number adds a property that [a[j]]
    reads but [length] and the iteration methods do not see). *)
Definition array_set {A} (a : list (option A)) (i : nat) (x : A)
    : list (option A) :=
  if decide (i < length a) then <[i := Some x]> a
  else a ++ replicate (i - length a) None ++ [Some x].

(** The indices of the elements a callback of [filter] accepts; holes are
    skipped.  The elements of the filtered array are the same objects as in
    [a], so the model keeps their indices in [a]. *)
Fixpoint filter_from {A} (p : A → bool) (i : nat) (a : list (option A))
    : list nat :=
  match a with
  | [] => []
  | Some x :: a' => if p x then i :: filter_from p (S i) a' else filter_from p (S i) a'
  | None :: a' => filter_from p (S i) a'
  end.

Definition array_filter {A} (p : A → bool) (a : list (option A)) : list nat :=
  filter_from p 0 a.

(** The elements that are not holes, in index order. *)
Definition present {A} (a : list (option A)) : list A := omap id a.

Definition not_null {A} (o : option A) : bool :=
  match o with
  | Some _ => true
  | None => false
  end.

(** ** Registrations *)

Section Registrations.

Context {Ast : Type}.

(** Modelled from the spec: what the constructor of [Module] reads off a
    [__d(...)] call (spec 4.2): [moduleId], the dependencies, the optional
    name, the source text and the factory. *)
Record Registration := mkRegistration {
  reg_moduleId : nat;
  reg_dependencies : list nat;
  reg_moduleName : option string;
  reg_originalCode : jsstring;
  reg_factory : Ast;
}.

(** Modelled from the spec: the constructor of [Module] in [module.ts], which
    is not among the sources.  Spec 4.2: it records the arguments of the
    [__d(...)] call. *)
Definition new_Module (r : Registration) : ModuleT Ast :=
  mkModule (reg_moduleId r) (reg_moduleName r) (reg_dependencies r)
           (reg_originalCode r) (reg_factory r) None [] false None false.

(** Modelled from the spec: [Module.loadCache] of [module.ts], which is not
    among the sources.  Spec 4.9: the cached record carries [originalCode],
    [tags], [isNpmModule], [npmModuleName] and [ignored]; [moduleId] is never
    reassigned (spec 3, invariant 1). *)
Definition loadCache (cached : CachedModule) (m : ModuleT Ast) : ModuleT Ast :=
  mkModule (moduleId m) (moduleName m) (dependencies m)
           (cached_originalCode cached) (factoryBody m) (moduleCode m)
           (cached_tags cached) (cached_isNpmModule cached)
           (cached_npmModuleName cached) (cached_ignored cached).

(** Modelled from the spec: [Module.initalize] of [module.ts], which is not
    among the sources.  Spec 4.2: sets [moduleCode] to a program whose body is
    the factory body. *)
Definition initalize (m : ModuleT Ast) : ModuleT Ast :=
  set_moduleCode (Some (factoryBody m)) m.

(** Modelled from the spec: the record [CacheParse.writeCache] keeps of a
    module (spec 4.9). *)
Definition to_cached (m : ModuleT Ast) : CachedModule :=
  mkCachedModule (moduleId m) (originalCode m) (tags m) (isNpmModule m)
                 (npmModuleName m) (ignored m).

End Registrations.

Arguments Registration : clear implicits.

(** ** The external collaborators of the driver *)

Class Collaborators (Ast : Type) := {
  ast_eq_dec :: EqDecision Ast;
  (** [crypto.createHash('md5').update(text).digest('hex')] *)
  md5 : jsstring → jsstring;
  (** [path.join] *)
  path_join : string → string → string;
  (** the JSON decoding of [fsExtra.readJSONSync]: [None] when it throws,
      [Some None] when the text holds a falsy value ([null], [false], [0] or
      the empty string), and else the value, which the driver takes for a
      [CachedFile] *)
  readJSON : jsstring → option (option CachedFile);
  (** the JSON encoding of a cache file *)
  writeJSON : CachedFile → jsstring;
  (** [babylon.parse]; [None] when it throws *)
  babylon_parse : jsstring → option Ast;
  (** the [__d] calls that the [CallExpression] visitor of [traverse]
      reaches, in traversal order *)
  d_calls : Ast → list (Registration Ast);
  (** [generator(...).code] for the program of a module *)
  generator : Ast → jsstring;
  taggerList : list (Plugin Ast);
  editorList : list (Plugin Ast);
  decompilerList : list (Plugin Ast);
}.

(** ** The driver *)

Section Driver.

Context {Ast : Type} `{!Collaborators Ast}.

#[local] Abbreviation Modules := (list (option (ModuleT Ast))).

(** *** Reading the bundle *)

Definition read_input (args : CmdArgs) : M jsstring :=
  inputJsFile ← readFileSync (template_string (arg_in args));
  unbundled ← existsSync (bundlesFolder args);
  if (unbundled : bool) then
    console_log "Unbundle detected, re-bundling...";;
    names ← readdirSync (bundlesFolder args);
    let unbundleFileNames := List.filter (λ file, endsWith file ".js") names in
    unbundleFiles ← mapM (λ fileName, readFileSync (path_join (bundlesFolder args) fileName))
                         unbundleFileNames;
    mret (inputJsFile ++ [10%N] ++ js_join [10%N] unbundleFiles)
  else mret inputJsFile.

(** *** The cache file *)

(** [existsSync(cacheFileName) ? readJSONSync(cacheFileName) : undefined];
    the tests [if (cacheFile)] that follow take a falsy value of the file for
    [undefined]. *)
Definition read_cache_file (args : CmdArgs) : M (option CachedFile) :=
  exists_ ← existsSync (cacheFileName args);
  if (exists_ : bool) then
    text ← readFileSync (cacheFileName args);
    match readJSON text with
    | Some cacheFile => mret cacheFile
    | None => throw "SyntaxError"
    end
  else mret None.

Definition validate_cache (args : CmdArgs) (inputJsFile : jsstring)
    (cacheFile : option CachedFile) : M (option CachedFile) :=
  match cacheFile with
  | Some cf =>
      console_log "Cache detected, validating it...";;
      if bool_decide (checksum cf ≠ md5 inputJsFile) then
        console_log "Cache invalidated due to checksum mismatch";;
        removeSync (cacheFileName args);;
        mret None
      else
        console_log "Cache validated";;
        mret (Some cf)
  | None =>
      if agressiveCache args then
        console_error "A cache file must be generated first before using the agressive cache";;
        process_exit 1
      else mret None
  end.

(** *** Enumerating the modules *)

(** [modules[module.moduleId] = module] *)
Definition register (modules : Modules) (m : ModuleT Ast) : Modules :=
  array_set modules (moduleId m) m.

Definition validCachedModules (agressive : bool) (cf : CachedFile)
    : list CachedModule :=
  List.filter
    (λ cachedModule,
       negb agressive || negb (cached_ignored cachedModule)
       || cached_isNpmModule cachedModule)
    (cached_modules cf).

Definition canIgnoreModuleBody (agressive : bool) (cached : CachedModule) : bool :=
  agressive && cached_isNpmModule cached
  && (128 <? length (cached_originalCode cached)).

(** [`__d(function(g,r,i,a,m,e,d){},${cached.moduleId},[])`] *)
Definition stub_source (id : nat) : jsstring :=
  js ("__d(function(g,r,i,a,m,e,d){}," +:+ pretty id +:+ ",[])").

Definition source_of_cached (agressive : bool) (cached : CachedModule) : jsstring :=
  if canIgnoreModuleBody agressive cached
  then stub_source (cached_moduleId cached)
  else cached_originalCode cached.

Definition load_cached_module (agressive : bool) (modules : Modules)
    (cached : CachedModule) : M Modules :=
  match babylon_parse (source_of_cached agressive cached) with
  | None => throw "SyntaxError"
  | Some originalFile =>
      mret (foldl (λ modules r, register modules (loadCache cached (new_Module r)))
                  modules (d_calls originalFile))
  end.

Definition load_from_cache (agressive : bool) (cf : CachedFile) : M Modules :=
  console_log "Loading cache...";;
  foldlM (load_cached_module agressive) [] (validCachedModules agressive cf).

(** The parser finds in the text that is loaded for the record [cached]
    the one [__d] call of that record. *)
Definition parses_own_call (agressive : bool) (cached : CachedModule) : Prop :=
  ∃ originalFile,
    babylon_parse (source_of_cached agressive cached) = Some originalFile
    ∧ reg_moduleId <$> d_calls originalFile = [cached_moduleId cached].

(** The module [m] is the one of a [__d] call found in the text of a valid
    record of the cache file, with the cached state of that record. *)
Definition from_cached_record (agressive : bool) (cf : CachedFile)
    (m : ModuleT Ast) : Prop :=
  ∃ cached originalFile r,
    cached ∈ validCachedModules agressive cf
    ∧ babylon_parse (source_of_cached agressive cached) = Some originalFile
    ∧ r ∈ d_calls originalFile
    ∧ m = loadCache cached (new_Module r).

Definition parse_bundle (inputJsFile : jsstring) : M Modules :=
  console_log "Parsing JS...";;
  match babylon_parse inputJsFile with
  | None => throw "SyntaxError"
  | Some originalFile =>
      console_log "Finding modules...";;
      mret (foldl (λ modules r, register modules (new_Module r)) [] (d_calls originalFile))
  end.

Definition build_modules (args : CmdArgs) (inputJsFile : jsstring)
    (cacheFile : option CachedFile) : M Modules :=
  match cacheFile with
  | Some cf => load_from_cache (agressiveCache args) cf
  | None => parse_bundle inputJsFile
  end.

(** The diagnosis printed in red; the texts are abridged. *)
Definition check_modules (modules : Modules) : M unit :=
  if length modules =? 0 then
    console_error "[!] No modules were found!";;
    console_error "[!] Possible reasons:";;
    console_error "[!] - The app is unbundled.";;
    console_error "[!] - The bundle is a binary/encrypted file.";;
    console_error "[!] - The file provided is not a React Native bundle.";;
    process_exit 1
  else mret tt.

(** *** Entry filtering *)

(** [mod?.moduleId === moduleId] for a module that is not a hole. *)
Definition has_moduleId (moduleId_ : number) (m : ModuleT Ast) : bool :=
  match moduleId_ with
  | Num z => (Z.of_nat (moduleId m) =? z)%Z
  | NaN => false
  end.

(** [modules.find((mod) => mod?.moduleId === moduleId)]: the first module
    with that [moduleId]; a hole never matches a number. *)
Fixpoint find_module (modules : Modules) (moduleId_ : number)
    : option (ModuleT Ast) :=
  match modules with
  | [] => None
  | Some m :: modules' =>
      if has_moduleId moduleId_ m then Some m else find_module modules' moduleId_
  | None :: modules' => find_module modules' moduleId_
  end.

(** A [Set<number>] is the list of its elements in insertion order. *)
Definition set_add (x : number) (s : list number) : list number :=
  if decide (x ∈ s) then s else s ++ [x].

Definition set_has (x : number) (s : list number) : bool :=
  bool_decide (x ∈ s).

Definition id_number (n : nat) : number := Num (Z.of_nat n).

(** [module.dependencies.forEach((dep) => entryModuleDependencies.add(dep))] *)
Definition add_dependencies (m : ModuleT Ast) (s : list number) : list number :=
  foldl (λ s dep, set_add (id_number dep) s) s (dependencies m).

Inductive Visit :=
  | Visited (s : list number)
  | Missing (moduleId_ : number)
  | NoFuel.

(** [entryModuleDependencies.forEach(...)]: the iteration of a [Set] also
    visits the elements added while it runs, so it is an iteration by
    position [k] over a growing list. *)
Fixpoint set_forEach (fuel : nat) (agressive : bool) (modules : Modules)
    (k : nat) (s : list number) : Visit :=
  match fuel with
  | 0 => NoFuel
  | S fuel' =>
      match s !! k with
      | None => Visited s
      | Some moduleId_ =>
          match find_module modules moduleId_ with
          | None =>
              if agressive then set_forEach fuel' agressive modules (S k) s
              else Missing moduleId_
          | Some module =>
              set_forEach fuel' agressive modules (S k) (add_dependencies module s)
          end
      end
  end.

(** [while (lastDependenciesSize !== entryModuleDependencies.size) ...] *)
Fixpoint closure_loop (fuel : nat) (agressive : bool) (modules : Modules)
    (lastDependenciesSize : nat) (s : list number) : Visit :=
  if decide (lastDependenciesSize = length s) then Visited s
  else
    match fuel with
    | 0 => NoFuel
    | S fuel' =>
        match set_forEach (S fuel') agressive modules 0 s with
        | Visited s' => closure_loop fuel' agressive modules (length s) s'
        | Missing moduleId_ => Missing moduleId_
        | NoFuel => NoFuel
        end
    end.

Definition entryModuleDependencies (fuel : nat) (agressive : bool)
    (modules : Modules) (entry_ : number) : Visit :=
  closure_loop fuel agressive modules 0 [entry_].

(** [modules.forEach((mod, i) => { if (!set.has(mod.moduleId)) delete modules[i]; })]:
    the callback is run on every slot that holds a module and deletes that
    slot only, which leaves a hole there and keeps the length. *)
Definition delete_unused (s : list number) (modules : Modules) : Modules :=
  map (λ slot,
         match slot with
         | Some m => if set_has (id_number (moduleId m)) s then Some m else None
         | None => None
         end)
      modules.

Definition entry_guard (args : CmdArgs) (cacheFile : option CachedFile) : bool :=
  not_null (entry args)
  && (negb (agressiveCache args) || negb (not_null cacheFile)).

Definition filter_by_entry (fuel : nat) (agressive : bool) (entry_ : number)
    (modules : Modules) : M Modules :=
  console_log "Entry module provided, filtering out unused modules";;
  match entryModuleDependencies fuel agressive modules entry_ with
  | Visited s => mret (delete_unused s modules)
  | Missing moduleId_ =>
      throw ("Failed to find entry module/dependency " +:+ number_to_string moduleId_)
  | NoFuel => out_of_fuel
  end.

Definition entry_stage (fuel : nat) (args : CmdArgs)
    (cacheFile : option CachedFile) (modules : Modules) : M Modules :=
  match entry args with
  | Some entry_ =>
      if entry_guard args cacheFile
      then filter_by_entry fuel (agressiveCache args) entry_ modules
      else mret modules
  | None => mret modules
  end.

(** *** The dependencies relation of the graph *)

(** [a] is the [moduleId] of a module of the graph and [b] is one of the
    dependencies of that module. *)
Definition dep_edge (modules : Modules) (a b : number) : Prop :=
  ∃ m, find_module modules a = Some m
       ∧ ∃ dep, dep ∈ dependencies m ∧ b = id_number dep.

Definition reachable (modules : Modules) (entry_ x : number) : Prop :=
  rtc (dep_edge modules) entry_ x.

(** Every number that is a dependency of some module of the graph. *)
Definition all_dependencies (modules : Modules) : list number :=
  m ← present modules; id_number <$> dependencies m.

(** Fuel that suffices for the worklist loop. *)
Definition closure_fuel (modules : Modules) : nat :=
  3 + length (all_dependencies modules).

(** The state of the iteration of the [Set]: the elements before position
    [k] have been visited. *)
Record closure_inv (agressive : bool) (modules : Modules) (entry_ : number)
    (k : nat) (s : list number) : Prop := {
  inv_NoDup : NoDup s;
  inv_entry : entry_ ∈ s;
  inv_reachable : ∀ x, x ∈ s → reachable modules entry_ x;
  inv_bound : k ≤ length s;
  inv_closed : ∀ j x y, j < k → s !! j = Some x → dep_edge modules x y → y ∈ s;
  inv_found : agressive = false →
              ∀ j x, j < k → s !! j = Some x → is_Some (find_module modules x);
  inv_universe : ∀ x, x ∈ s → x ∈ entry_ :: all_dependencies modules;
}.

(** *** The passes over the modules *)

(** [modules.filter((mod) => argValues.decompileIgnored || !mod.ignored)] *)
Definition nonIgnoredModules (args : CmdArgs) (modules : Modules) : list nat :=
  array_filter (λ m, decompileIgnored args || negb (ignored m)) modules.

(** [refs.forEach(f)] for a callback that changes the module it is given:
    the change lands in the slot of [modules] that holds the module.  [None]
    when the callback throws. *)
Fixpoint forEach_module (f : Modules → nat → ModuleT Ast → option (ModuleT Ast))
    (refs : list nat) (modules : Modules) : option Modules :=
  match refs with
  | [] => Some modules
  | i :: refs' =>
      match modules !! i with
      | Some (Some m) =>
          match f modules i m with
          | Some m' => forEach_module f refs' (<[i := Some m']> modules)
          | None => None
          end
      | _ => forEach_module f refs' modules
      end
  end.

Definition lift_throw {A} (err : string) (o : option A) : M A :=
  match o with
  | Some a => mret a
  | None => throw err
  end.

Definition preparse_stage (refs : list nat) (modules : Modules) : option Modules :=
  forEach_module (λ _ _ m, Some (initalize m)) refs modules.

Definition tagging_stage (refs : list nat) (modules : Modules) : option Modules :=
  forEach_module (Router_parse Tagger taggerList) refs modules.

Definition decompile_module (modules : Modules) (i : nat) (m : ModuleT Ast)
    : option (ModuleT Ast) :=
  m' ← Router_parse Editor editorList modules i m;
  Router_parse Decompiler decompilerList modules i m'.

Definition decompiling_stage (refs : list nat) (modules : Modules) : option Modules :=
  forEach_module decompile_module refs modules.

(** *** Ignore propagation *)

(** [otherMod.dependencies.includes(mod.moduleId)] *)
Definition depends_on (otherMod mod_ : ModuleT Ast) : bool :=
  bool_decide (moduleId mod_ ∈ dependencies otherMod).

(** The callback of the outer [filter] in [calculateModulesToIgnore]. *)
Definition to_ignore (modules : Modules) (mod_ : ModuleT Ast) : bool :=
  let dependentModules :=
    List.filter (λ otherMod, depends_on otherMod mod_) (present modules) in
  negb (ignored mod_)
  && (0 <? length dependentModules)
  && forallb (λ otherMod, ignored otherMod || depends_on mod_ otherMod)
             dependentModules.

(** [calculateModulesToIgnore]: assigns the global [modulesToIgnore] unless
    the aggressive cache is on, in which case it leaves it as it is. *)
Definition calculateModulesToIgnore (agressive : bool) (modules : Modules)
    (modulesToIgnore : list nat) : list nat :=
  if agressive then modulesToIgnore
  else array_filter (to_ignore modules) modules.

(** [modulesToIgnore.forEach((mod) => { mod.ignored = true; })] *)
Definition mark_ignored (modulesToIgnore : list nat) (modules : Modules) : Modules :=
  foldl (λ modules i,
           match modules !! i with
           | Some (Some m) => <[i := Some (set_ignored true m)]> modules
           | _ => modules
           end)
        modules modulesToIgnore.

(** [while (modulesToIgnore.length) { ...; calculateModulesToIgnore(); }] *)
Fixpoint ignore_loop (fuel : nat) (agressive : bool) (modules : Modules)
    (modulesToIgnore : list nat) : option Modules :=
  match modulesToIgnore with
  | [] => Some modules
  | _ :: _ =>
      match fuel with
      | 0 => None
      | S fuel' =>
          let modules' := mark_ignored modulesToIgnore modules in
          ignore_loop fuel' agressive modules'
            (calculateModulesToIgnore agressive modules' modulesToIgnore)
      end
  end.

(** [let modulesToIgnore = []; calculateModulesToIgnore(); while ...]; [None]
    when the fuel does not suffice. *)
Definition ignore_propagation (fuel : nat) (agressive : bool) (modules : Modules)
    : option Modules :=
  ignore_loop fuel agressive modules (calculateModulesToIgnore agressive modules []).

(** The predicate of the propagator in words: [m] is not ignored, some
    module of the graph depends on it, and every module that depends on it
    is ignored or is one of its own dependencies. *)
Definition ignorable (modules : Modules) (m : ModuleT Ast) : Prop :=
  ignored m = false
  ∧ (∃ o, o ∈ present modules ∧ moduleId m ∈ dependencies o)
  ∧ (∀ o, o ∈ present modules → moduleId m ∈ dependencies o →
          ignored o = true ∨ moduleId o ∈ dependencies m).

(** One round in the words of the claim: [modules'] is [modules] with
    exactly the modules that satisfy the predicate marked as ignored, and
    nothing else changed. *)
Definition marks_ignorable (modules modules' : Modules) : Prop :=
  length modules' = length modules
  ∧ (∀ i, modules !! i = Some None → modules' !! i = Some None)
  ∧ (∀ i m, modules !! i = Some (Some m) →
       (ignorable modules m → modules' !! i = Some (Some (set_ignored true m)))
       ∧ (¬ ignorable modules m → modules' !! i = Some (Some m))).

(** The propagation in the words of the claim: rounds that each mark
    exactly the modules that satisfy the predicate, as long as some module
    does; it ends on the first graph in which none does. *)
Inductive propagation_rounds : Modules → Modules → Prop :=
  | rounds_done modules :
      (∀ i m, modules !! i = Some (Some m) → ¬ ignorable modules m) →
      propagation_rounds modules modules
  | rounds_step modules modules1 modules' :
      (∃ i m, modules !! i = Some (Some m) ∧ ignorable modules m) →
      marks_ignorable modules modules1 →
      propagation_rounds modules1 modules' →
      propagation_rounds modules modules'.

(** The modules that are not ignored yet. *)
Definition live (modules : Modules) : list nat :=
  array_filter (λ m, negb (ignored m)) modules.

(** [modules'] is [modules] with some more modules ignored. *)
Definition more_ignored (modules modules' : Modules) : Prop :=
  Forall2 (option_Forall2 (λ m m', m' = m ∨ m' = set_ignored true m))
          modules modules'.

(** Every module that is ignored in [modules] is still there and still
    ignored in [modules']. *)
Definition keeps_ignored (modules modules' : Modules) : Prop :=
  ∀ i m, modules !! i = Some (Some m) → ignored m = true →
         ∃ m', modules' !! i = Some (Some m') ∧ ignored m' = true.

(** Every module sits in the slot of its [moduleId]. *)
Definition well_indexed (modules : Modules) : Prop :=
  ∀ i m, modules !! i = Some (Some m) → moduleId m = i.

(** *** Generating and saving *)

(** [nonIgnoredModules.map((module) => ({ name, code }))]; [None] when a
    module has no [moduleCode]. *)
Definition generate (refs : list nat) (modules : Modules)
    : option (list (nat * jsstring)) :=
  mapM (λ i, match modules !! i with
             | Some (Some m) =>
                 code ← moduleCode m; Some (moduleId m, generator code)
             | _ => None
             end)
       refs.

(** The callback of [generatedFiles.forEach]. *)
Definition save_file (out : option string) (file : nat * jsstring) : M unit :=
  let filePath := output_path out file.1 in
  exists_ ← existsSync filePath;
  if negb exists_ then writeFileSync filePath file.2
  else
    content ← readFileSync filePath;
    if bool_decide (content ≠ file.2) then writeFileSync filePath file.2
    else mret tt.

(** What the callback of the save loop does to a world in which the path is
    not a directory. *)
Definition saved (out : option string) (file : nat * jsstring) (w : World) : World :=
  if decide (files w !! output_path out file.1 = Some file.2) then w
  else add_event (WriteFile (output_path out file.1) file.2)
         (set_files (<[output_path out file.1 := file.2]> (files w)) w).

Definition save_files (out : option string) (generatedFiles : list (nat * jsstring))
    : M unit :=
  forEachM (save_file out) generatedFiles.

(** *** Writing the cache *)

Definition cache_guard (args : CmdArgs) : bool :=
  truthy_number (entry args) && negb (agressiveCache args).

(** Modelled from the spec: [CacheParse.writeCache] of [cacheParse.ts], which
    is not among the sources.  Spec 4.9 and 6: the record is keyed by the
    digest of the bundle text and holds one entry per module. *)
Definition writeCache (inputJsFile : jsstring) (fileName : string)
    (modules : Modules) : M unit :=
  λ w,
    let record := mkCachedFile (md5 inputJsFile) (to_cached <$> present modules) in
    Ok tt (add_event (WriteCache fileName)
             (set_files (<[fileName := writeJSON record]> (files w)) w)).

Definition cache_stage (args : CmdArgs) (inputJsFile : jsstring)
    (modules : Modules) : M unit :=
  if cache_guard args then
    console_log "Writing to cache...";;
    writeCache inputJsFile (cacheFileName args) modules
  else mret tt.

(** The lint pass is an external, asynchronous step after the pipeline; only
    its announcements are kept. *)
Definition eslint_stage (args : CmdArgs) : M unit :=
  if negb (noEslint args) then
    console_log "Doing further cleanup with ESLint...";;
    console_log "Done!"
  else console_log "Done!".

(** *** The whole run *)

(** From the reading of the cache file to the end of the enumeration of the
    modules. *)
Definition load_modules (args : CmdArgs) (inputJsFile : jsstring)
    : M (option CachedFile * Modules) :=
  cacheFile ← read_cache_file args;
  cacheFile ← validate_cache args inputJsFile cacheFile;
  modules ← build_modules args inputJsFile cacheFile;
  mret (cacheFile, modules).

(** From [ensureDirSync] to the end of the enumeration of the modules. *)
Definition enumerate_modules (args : CmdArgs)
    : M (jsstring * option CachedFile * Modules) :=
  ensureDirSync (template_string (arg_out args));;
  console_log "Reading file...";;
  inputJsFile ← read_input args;
  '(cacheFile, modules) ← load_modules args inputJsFile;
  mret (inputJsFile, cacheFile, modules).

(** From the check for an empty module set to the end.  The progress bar,
    the timings, the [performance] report and the [verbose] dependency
    summary print only and are left out. *)
Definition process_modules (fuel : nat) (args : CmdArgs)
    (inputJsFile : jsstring) (cacheFile : option CachedFile) (modules : Modules)
    : M unit :=
  check_modules modules;;
  modules ← entry_stage fuel args cacheFile modules;
  let refs := nonIgnoredModules args modules in
  console_log "Pre-parsing modules...";;
  modules ← lift_throw "TypeError" (preparse_stage refs modules);
  console_log "Tagging...";;
  modules ← lift_throw "FixpointExceeded" (tagging_stage refs modules);
  console_log "Filtering out modules only depended on ignored modules...";;
  modules ← (match ignore_propagation fuel (agressiveCache args) modules with
             | Some modules' => mret modules'
             | None => out_of_fuel
             end);
  let refs := nonIgnoredModules args modules in
  console_log "Decompiling...";;
  modules ← lift_throw "FixpointExceeded" (decompiling_stage refs modules);
  console_log "Generating code...";;
  generatedFiles ← lift_throw "TypeError" (generate refs modules);
  console_log "Saving...";;
  save_files (arg_out args) generatedFiles;;
  cache_stage args inputJsFile modules;;
  eslint_stage args.

Definition run (fuel : nat) (args : CmdArgs) : M unit :=
  if negb (truthy_string (arg_in args)) || negb (truthy_string (arg_out args)) then
    emit Usage;;
    process_exit 1
  else
    '(inputJsFile, cacheFile, modules) ← enumerate_modules args;
    process_modules fuel args inputJsFile cacheFile modules.

End Driver.

(** * Notions used to state further properties *)

(** The last element of [regs] whose identifier is [i]. *)
Fixpoint last_with_id {R} (id_of : R → nat) (i : nat) (regs : list R) : option R :=
  match regs with
  | [] => None
  | r :: regs' =>
      match last_with_id id_of i regs' with
      | Some r' => Some r'
      | None => if decide (id_of r = i) then Some r else None
      end
  end.

(** The events a run with the arguments [args] may produce: it writes only
    files named [<out>/<moduleId>.js], and it removes and writes as cache only
    the cache file. *)
Definition allowed_event (args : CmdArgs) (e : Event) : Prop :=
  match e with
  | WriteFile path _ => ∃ name, path = output_path (arg_out args) name
  | RemoveFile path => path = cacheFileName args
  | WriteCache path => path = cacheFileName args
  | Usage | Log _ | LogError _ => True
  end.

(** The path is not named by any file event of [evs]. *)
Definition untouched (path : string) (evs : list Event) : Prop :=
  (∀ content, WriteFile path content ∉ evs)
  ∧ (RemoveFile path ∉ evs)
  ∧ (WriteCache path ∉ evs).

(** [w'] comes from [w] by events that all satisfy [P], and the files that
    these events do not name are as in [w]. *)
Definition extends_by (P : Event → Prop) (w w' : World) : Prop :=
  ∃ evs, events w' = events w ++ evs
         ∧ Forall P evs
         ∧ ∀ path, untouched path evs → files w' !! path = files w !! path.

(** A computation all of whose effects on the world satisfy [P], however it
    ends. *)
Definition confined {A} (P : Event → Prop) (c : M A) : Prop :=
  ∀ w w', world_of (c w) = Some w' → extends_by P w w'.

(** An event that is not the writing of an output file. *)
Definition no_write (e : Event) : Prop :=
  match e with
  | WriteFile _ _ => False
  | _ => True
  end.

(** In the log [evs] no output file is written before the saving stage is
    announced. *)
Definition written_when_saving (evs : list Event) : Prop :=
  ∀ path content, WriteFile path content ∈ evs → Log "Saving..." ∈ evs.

(** A computation that keeps [written_when_saving], however it ends. *)
Definition keeps_written_when_saving {A} (c : M A) : Prop :=
  ∀ w w', written_when_saving (events w) → world_of (c w) = Some w' →
          written_when_saving (events w').

(** An event that prints and does nothing to the files. *)
Definition prints_only (e : Event) : Prop :=
  match e with
  | Usage | Log _ | LogError _ => True
  | WriteFile _ _ | RemoveFile _ | WriteCache _ => False
  end.

(** Fuel that suffices for the loops of the driver on the enumerated
    [modules]. *)
Definition run_fuel {Ast} (modules : list (option (ModuleT Ast))) : nat :=
  closure_fuel modules `max` length modules.

(** * A sample bundle

    Concrete collaborators, bundles and worlds on which the driver can be
    run by evaluation. *)

Module Sample.

(** A file is the list of its [__d] calls (moduleId, dependencies and source
    text); the factory of a call is its source text. *)
Inductive SampleAst :=
  | SampleFile (calls : list (nat * list nat * jsstring))
  | SampleFactory (code : jsstring).

#[export] Instance SampleAst_eq_dec : EqDecision SampleAst.
Proof. solve_decision. Defined.

Definition source0 : jsstring :=
  js "__d(function(g,r,i,a,m,e,d){r(d[0]);},0,[1])".
Definition source1 : jsstring :=
  js "__d(function(g,r,i,a,m,e,d){r(d[0]);},1,[2])".
Definition source2 : jsstring :=
  js "__d(function(g,r,i,a,m,e,d){r(d[0]);},2,[5])".
(** Module 5 is the minified array-spread helper (spec 8, scenario S2). *)
Definition source5 : jsstring :=
  js "__d(function(g,r,i,a,m,e,d){var a=b(c[0]),d=e(f[1]),g=h(i[2]),j=k(l[3]);m.exports=function(n){return o(p)||q(r)||s(t)||u();};},5,[])".

Definition bundle : jsstring :=
  source0 ++ js ";" ++ source1 ++ js ";" ++ source2 ++ js ";" ++ source5 ++ js ";".

(** The sample bundle followed by a second definition of module 1. *)
Definition patch1 : jsstring :=
  js "__d(function(g,r,i,a,m,e,d){r(d[0]);},1,[5])".

Definition patched_bundle : jsstring := bundle ++ patch1 ++ js ";".

(** A bundle with no [__d] call (spec 8, scenario S6). *)
Definition empty_bundle : jsstring := js "console.log(1);".

(** The parser's answers on the sample texts. *)
Definition calls_of (text : jsstring) : list (nat * list nat * jsstring) :=
  if decide (text = bundle) then
    [(0, [1], source0); (1, [2], source1); (2, [5], source2); (5, [], source5)]
  else if decide (text = source0) then [(0, [1], source0)]
  else if decide (text = source1) then [(1, [2], source1)]
  else if decide (text = source2) then [(2, [5], source2)]
  else if decide (text = source5) then [(5, [], source5)]
  else if decide (text = stub_source 5) then [(5, [], stub_source 5)]
  else if decide (text = patched_bundle) then
    [(0, [1], source0); (1, [2], source1); (2, [5], source2); (5, [], source5);
     (1, [5], patch1)]
  else [].

Definition registration_of (call : nat * list nat * jsstring)
    : Registration SampleAst :=
  mkRegistration call.1.1 call.1.2 None call.2 (SampleFactory call.2).

(** A stand-in for the digest: the sum of the code units, in decimal. *)
Definition digest (text : jsstring) : jsstring :=
  js (pretty (foldr N.add 0%N text)).

(** The tagger of [babelModuleFinder.ts] as a plugin. *)
Definition BabelModuleFinder : Plugin SampleAst :=
  mkPlugin "BabelModuleFinder" 0%Z
    (λ _ m, if regex_test arraySpreadRegex (originalCode m)
            then [ActTagAsNpmModule "@babel/runtime/helpers/toConsumableArray"]
            else []).

(** The cache of the sample bundle for entry 0: module 1 depends on module
    2, which is cached as ignored and is not an NPM module; module 5 is
    cached as the NPM module it is. *)
Definition cached0 : CachedModule := mkCachedModule 0 source0 [] false None false.
Definition cached1 : CachedModule := mkCachedModule 1 source1 [] false None false.
Definition cached2 : CachedModule := mkCachedModule 2 source2 [] false None true.
Definition cached5 : CachedModule :=
  mkCachedModule 5 source5 [] true (Some "@babel/runtime/helpers/toConsumableArray") true.
Definition cache : CachedFile :=
  mkCachedFile (digest bundle) [cached0; cached1; cached2; cached5].
Definition stale_cache : CachedFile :=
  mkCachedFile (js "stale") [cached0; cached1; cached2; cached5].

Definition cache_text : jsstring := js "{cache}".
Definition stale_cache_text : jsstring := js "{stale cache}".
Definition null_cache_text : jsstring := js "null".

Definition collaborators : Collaborators SampleAst := {|
  md5 := digest;
  path_join := λ folder name, folder +:+ "/" +:+ name;
  readJSON := λ text,
    if decide (text = cache_text) then Some (Some cache)
    else if decide (text = stale_cache_text) then Some (Some stale_cache)
    else if decide (text = null_cache_text) then Some None
    else None;
  writeJSON := λ _, cache_text;
  babylon_parse := λ text, Some (SampleFile (calls_of text));
  d_calls := λ file,
    match file with
    | SampleFile calls => registration_of <$> calls
    | SampleFactory _ => []
    end;
  generator := λ code,
    match code with
    | SampleFactory text => text
    | SampleFile _ => []
    end;
  taggerList := [BabelModuleFinder];
  editorList := [];
  decompilerList := [];
|}.

Definition plain (id : nat) (deps : list nat) (code : jsstring) : ModuleT SampleAst :=
  mkModule id None deps code (SampleFactory code) None [] false None false.

(** The graph of spec 8, scenario S4: 1 depends on 2, 2 on 3. *)
Definition graph : list (option (ModuleT SampleAst)) :=
  [None; Some (plain 1 [2] []); Some (plain 2 [3] []); Some (plain 3 [] [])].

(** An ignored NPM module 0 that depends on module 1, which nothing else
    depends on. *)
Definition npm_graph : list (option (ModuleT SampleAst)) :=
  [Some (tagAsNpmModule "left-pad" (plain 0 [1] [])); Some (plain 1 [] [])].

(** The modules of the sample bundle as the cache gives them, the aggressive
    cache off. *)
Definition loaded : list (option (ModuleT SampleAst)) :=
  [Some (plain 0 [1] source0); Some (plain 1 [2] source1);
   Some (set_ignored true (plain 2 [5] source2)); None; None;
   Some (tagAsNpmModule "@babel/runtime/helpers/toConsumableArray"
           (plain 5 [] source5))].

Definition args (entry_ : option number) (agressive : bool) : CmdArgs :=
  mkCmdArgs (Some "index.android.bundle") (Some "out") "./js-modules"
            entry_ false false false agressive false.

Definition world : World :=
  mkWorld {[ "index.android.bundle" := bundle ]} ∅ [].

Definition empty_world : World :=
  mkWorld {[ "index.android.bundle" := empty_bundle ]} ∅ [].

(** A world with the cache of entry 0, and one whose cache is stale. *)
Definition cached_world : World :=
  mkWorld {[ "index.android.bundle" := bundle; "out/0.cache" := cache_text ]} ∅ [].

Definition stale_world : World :=
  mkWorld {[ "index.android.bundle" := bundle; "out/0.cache" := stale_cache_text ]} ∅ [].

(** A world in which [out/1.js] already holds the code of module 1 and
    [out/2.js] holds something else. *)
Definition saved_world : World :=
  mkWorld {[ "out/1.js" := source1; "out/2.js" := js "old" ]} ∅ [].

(** A world whose cache file of entry 0 holds [null], and one whose cache
    file is not JSON. *)
Definition null_cache_world : World :=
  mkWorld {[ "index.android.bundle" := bundle; "out/0.cache" := null_cache_text ]} ∅ [].

Definition broken_cache_world : World :=
  mkWorld {[ "index.android.bundle" := bundle; "out/0.cache" := js "{" ]} ∅ [].

(** A world with the patched bundle. *)
Definition patched_world : World :=
  mkWorld {[ "index.android.bundle" := patched_bundle ]} ∅ [].

(** A world whose output directory exists and holds no cache file. *)
Definition prepared_world : World :=
  mkWorld {[ "index.android.bundle" := bundle ]} {[ "out" := [] ]} [].

End Sample.

(** * Properties *)

(** ** The fingerprint matcher *)

Lemma match_here_spec (p : list atom) (s : jsstring) :
  match_here p s = true ↔
  ∃ mid post, s = mid ++ post ∧ Forall2 (λ a c, atom_matches a c = true) p mid.
Proof.
  revert s. induction p as [|a p IH]; intros s; simpl.
  - split; [|done]. intros _. exists [], s. split; [done|constructor].
  - destruct s as [|c s].
    + split; [done|]. intros (mid & post & Hs & HF).
      inversion HF; subst. discriminate.
    + rewrite andb_true_iff, IH. split.
      * intros (Hc & mid & post & -> & HF).
        exists (c :: mid), post. split; [done|by constructor].
      * intros (mid & post & Hs & HF).
        inversion HF as [|? c' ? mid' Hc HF']; subst.
        injection Hs as -> ->. eauto.
Qed.

(** [regex_test] holds exactly when some substring matches the pattern
    atom by atom. *)
Lemma regex_test_spec (p : list atom) (s : jsstring) :
  regex_test p s = true ↔
  ∃ pre mid post,
    s = pre ++ mid ++ post ∧ Forall2 (λ a c, atom_matches a c = true) p mid.
Proof.
  induction s as [|c s IH]; simpl; rewrite orb_true_iff.
  - rewrite match_here_spec. split.
    + intros [(mid & post & Hs & HF)|]; [|done]. by exists [], mid, post.
    + intros (pre & mid & post & Hs & HF). left.
      destruct pre; [|done]. by exists mid, post.
  - rewrite match_here_spec, IH. split.
    + intros [(mid & post & Hs & HF)|(pre & mid & post & -> & HF)].
      * by exists [], mid, post.
      * by exists (c :: pre), mid, post.
    + intros (pre & mid & post & Hs & HF).
      destruct pre as [|c' pre]; simpl in Hs.
      * left. by exists mid, post.
      * right. injection Hs as -> ->. by exists pre, mid, post.
Qed.

(** ** The Babel fingerprint tagger *)

Section Tagger.

Context {Ast : Type}.

Lemma evaluate_match (m : ModuleT Ast) :
  regex_test arraySpreadRegex (originalCode m) = true →
  evaluate m = tagAsNpmModule "@babel/runtime/helpers/toConsumableArray" m.
Proof. unfold evaluate. by intros ->. Qed.

(** The tagger is idempotent (spec 8, property 2). *)
Lemma evaluate_idempotent (m : ModuleT Ast) : evaluate (evaluate m) = evaluate m.
Proof.
  unfold evaluate.
  destruct (regex_test arraySpreadRegex (originalCode m)) eqn:E; simpl.
  - by rewrite E.
  - by rewrite E.
Qed.

(** C1: on a module whose [originalCode] matches the array-spread fingerprint
    the Babel tagger sets [isNpmModule=true],
    [npmModuleName='@babel/runtime/helpers/toConsumableArray'] and
    [ignored=true]; on a module whose [originalCode] does not match it leaves
    the module as it is. *)
Theorem babel_tagger_fingerprint (m : ModuleT Ast) :
  (regex_test arraySpreadRegex (originalCode m) = true →
   isNpmModule (evaluate m) = true
   ∧ npmModuleName (evaluate m) = Some "@babel/runtime/helpers/toConsumableArray"
   ∧ ignored (evaluate m) = true)
  ∧ (regex_test arraySpreadRegex (originalCode m) = false → evaluate m = m).
Proof.
  split; intros Hm.
  - by rewrite (evaluate_match m Hm).
  - unfold evaluate. by rewrite Hm.
Qed.

End Tagger.

(** ** Entry filtering *)

Section EntryClosure.

Context {Ast : Type} `{!Collaborators Ast}.

#[local] Abbreviation Modules := (list (option (ModuleT Ast))).

Implicit Types (modules : Modules) (s : list number) (x y : number).

Lemma find_module_Some modules x m :
  find_module modules x = Some m → m ∈ present modules ∧ has_moduleId x m = true.
Proof.
  unfold present. induction modules as [|[m'|] modules IH]; simpl; [done| |].
  - destruct (has_moduleId x m') eqn:E.
    + intros [= ->]. split; [left|done].
    + intros H. destruct (IH H). split; [by right|done].
  - done.
Qed.

Lemma elem_of_set_add x y s : x ∈ set_add y s ↔ x ∈ s ∨ x = y.
Proof.
  unfold set_add. case_decide.
  - split; [auto|]. intros [?| ->]; done.
  - rewrite elem_of_app, list_elem_of_singleton. done.
Qed.

Lemma set_add_NoDup y s : NoDup s → NoDup (set_add y s).
Proof.
  unfold set_add. case_decide; [done|]. intros Hs.
  apply NoDup_app. split_and!; [done| |apply NoDup_singleton].
  intros x Hx ->%list_elem_of_singleton. done.
Qed.

Lemma set_add_prefix y s : ∃ l, set_add y s = s ++ l.
Proof.
  unfold set_add. case_decide; [exists []; by rewrite app_nil_r|by eexists].
Qed.

Lemma set_add_id y s : y ∈ s → set_add y s = s.
Proof. unfold set_add. by case_decide. Qed.

Lemma elem_of_add_dependencies (m : ModuleT Ast) s x :
  x ∈ add_dependencies m s ↔ x ∈ s ∨ ∃ dep, dep ∈ dependencies m ∧ x = id_number dep.
Proof.
  unfold add_dependencies. revert s.
  induction (dependencies m) as [|d ds IH]; intros s; simpl.
  - split; [auto|]. intros [?|(dep & Hd & _)]; [done|]. by apply elem_of_nil in Hd.
  - rewrite IH, elem_of_set_add. split.
    + intros [[?| ->]|(dep & Hd & ->)]; [by left| |].
      * right. exists d. split; [left|done].
      * right. exists dep. split; [by right|done].
    + intros [?|(dep & Hd & ->)]; [by left; left|].
      apply elem_of_cons in Hd as [->|Hd]; [by left; right|].
      right. by exists dep.
Qed.

Lemma add_dependencies_NoDup (m : ModuleT Ast) s :
  NoDup s → NoDup (add_dependencies m s).
Proof.
  unfold add_dependencies. revert s.
  induction (dependencies m) as [|d ds IH]; intros s Hs; simpl; [done|].
  by apply IH, set_add_NoDup.
Qed.

Lemma add_dependencies_prefix (m : ModuleT Ast) s :
  ∃ l, add_dependencies m s = s ++ l.
Proof.
  unfold add_dependencies. revert s.
  induction (dependencies m) as [|d ds IH]; intros s; simpl.
  - exists []. by rewrite app_nil_r.
  - destruct (set_add_prefix (id_number d) s) as [l1 ->].
    destruct (IH (s ++ l1)) as [l2 ->]. exists (l1 ++ l2). by rewrite app_assoc.
Qed.

Lemma add_dependencies_id (m : ModuleT Ast) s :
  (∀ dep, dep ∈ dependencies m → id_number dep ∈ s) → add_dependencies m s = s.
Proof.
  unfold add_dependencies.
  induction (dependencies m) as [|d ds IH]; intros Hs; simpl; [done|].
  rewrite set_add_id by (apply Hs; left). apply IH. intros dep Hd. apply Hs. by right.
Qed.

Lemma elem_of_all_dependencies modules (m : ModuleT Ast) dep :
  m ∈ present modules → dep ∈ dependencies m → id_number dep ∈ all_dependencies modules.
Proof.
  intros Hm Hd. unfold all_dependencies. apply list_elem_of_bind.
  exists m. split; [|done]. apply list_elem_of_fmap. by exists dep.
Qed.

Lemma closure_inv_length agressive modules entry_ k s :
  closure_inv agressive modules entry_ k s →
  length s ≤ S (length (all_dependencies modules)).
Proof.
  intros [Hnd _ _ _ _ _ Hu].
  change (S (length (all_dependencies modules)))
    with (length (entry_ :: all_dependencies modules)).
  apply submseteq_length, NoDup_submseteq; done.
Qed.

Lemma closure_inv_init agressive modules entry_ :
  closure_inv agressive modules entry_ 0 [entry_].
Proof.
  split.
  - apply NoDup_singleton.
  - left.
  - intros x ->%list_elem_of_singleton. apply rtc_refl.
  - simpl. lia.
  - intros; lia.
  - intros; lia.
  - intros x ->%list_elem_of_singleton. left.
Qed.

Lemma closure_inv_skip modules entry_ k s x :
  closure_inv true modules entry_ k s →
  s !! k = Some x → find_module modules x = None →
  closure_inv true modules entry_ (S k) s.
Proof.
  intros [Hnd He Hr Hb Hc Hf Hu] Hk Hnone. split; try done.
  - by apply lookup_lt_Some in Hk.
  - intros j x' y Hj Hx' Hedge.
    destruct (decide (j = k)) as [->|]; [|apply (Hc j x'); [lia|done..]].
    rewrite Hk in Hx'. injection Hx' as <-.
    destruct Hedge as (m & Hm & _). congruence.
Qed.

Lemma closure_inv_visit agressive modules entry_ k s x (m : ModuleT Ast) :
  closure_inv agressive modules entry_ k s →
  s !! k = Some x → find_module modules x = Some m →
  closure_inv agressive modules entry_ (S k) (add_dependencies m s).
Proof.
  intros [Hnd He Hr Hb Hc Hf Hu] Hk Hm.
  destruct (add_dependencies_prefix m s) as [l Hl].
  assert (Hlt : k < length s) by by apply lookup_lt_Some in Hk.
  assert (Hx : x ∈ s) by (apply list_elem_of_lookup; eauto).
  assert (Hold : ∀ j z, j < S k → add_dependencies m s !! j = Some z → s !! j = Some z).
  { intros j z Hj. rewrite Hl, lookup_app_l by lia. done. }
  split.
  - by apply add_dependencies_NoDup.
  - apply elem_of_add_dependencies. by left.
  - intros z [Hz|(dep & Hd & ->)]%elem_of_add_dependencies; [by apply Hr|].
    eapply rtc_r; [by apply Hr|]. exists m. split; [done|]. by exists dep.
  - rewrite Hl, length_app. lia.
  - intros j z y Hj Hz Hedge. apply Hold in Hz; [|done].
    apply elem_of_add_dependencies.
    destruct (decide (j = k)) as [->|].
    + rewrite Hk in Hz. injection Hz as <-.
      destruct Hedge as (m' & Hm' & dep & Hd & ->).
      rewrite Hm in Hm'. injection Hm' as <-. right. by exists dep.
    + left. apply (Hc j z); [lia|done..].
  - intros Ha j z Hj Hz. apply Hold in Hz; [|done].
    destruct (decide (j = k)) as [->|].
    + rewrite Hk in Hz. injection Hz as <-. by rewrite Hm.
    + apply (Hf Ha j); [lia|done].
  - intros z [Hz|(dep & Hd & ->)]%elem_of_add_dependencies; [by apply Hu|].
    right. eapply elem_of_all_dependencies; [|done].
    by apply find_module_Some in Hm as [Hm _].
Qed.

(** One iteration of the [Set], from any state of the iteration. *)
Lemma set_forEach_inv agressive modules entry_ fuel k s :
  closure_inv agressive modules entry_ k s →
  match set_forEach fuel agressive modules k s with
  | Visited s' => closure_inv agressive modules entry_ (length s') s'
  | Missing x =>
      agressive = false ∧ reachable modules entry_ x ∧ find_module modules x = None
  | NoFuel => fuel + k ≤ S (length (all_dependencies modules))
  end.
Proof.
  revert k s. induction fuel as [|fuel IH]; intros k s Hinv; simpl.
  - pose proof (closure_inv_length _ _ _ _ _ Hinv). destruct Hinv. lia.
  - destruct (s !! k) as [x|] eqn:Hk.
    + destruct (find_module modules x) as [m|] eqn:Hm.
      * specialize (IH (S k) _ (closure_inv_visit _ _ _ _ _ _ _ Hinv Hk Hm)).
        destruct (set_forEach fuel agressive modules (S k) (add_dependencies m s));
          [done..|lia].
      * destruct agressive.
        -- specialize (IH (S k) _ (closure_inv_skip _ _ _ _ _ Hinv Hk Hm)).
           destruct (set_forEach fuel true modules (S k) s); [done..|lia].
        -- split_and!; [done| |done].
           apply (inv_reachable _ _ _ _ _ Hinv), list_elem_of_lookup. eauto.
    + apply lookup_ge_None in Hk. destruct Hinv as [? ? ? Hb ? ? ?].
      assert (k = length s) as -> by lia. done.
Qed.

(** Iterating over a set that is already closed leaves it as it is. *)
Lemma set_forEach_closed agressive modules entry_ s fuel k :
  closure_inv agressive modules entry_ (length s) s →
  k ≤ length s → length s - k < fuel →
  set_forEach fuel agressive modules k s = Visited s.
Proof.
  intros Hinv. revert k. induction fuel as [|fuel IH]; intros k Hk Hfuel; [lia|].
  simpl. destruct (s !! k) as [x|] eqn:Hx; [|done].
  assert (k < length s) by by apply lookup_lt_Some in Hx.
  destruct (find_module modules x) as [m|] eqn:Hm.
  - rewrite add_dependencies_id; [apply IH; lia|].
    intros dep Hd. apply (inv_closed _ _ _ _ _ Hinv k x); [done..|].
    exists m. split; [done|]. by exists dep.
  - destruct agressive; [apply IH; lia|].
    destruct (inv_found _ _ _ _ _ Hinv eq_refl k x) as [m Hm']; [done..|congruence].
Qed.

Lemma closure_inv_reachable agressive modules entry_ s x :
  closure_inv agressive modules entry_ (length s) s →
  x ∈ s ↔ reachable modules entry_ x.
Proof.
  intros Hinv. split; [apply (inv_reachable _ _ _ _ _ Hinv)|].
  revert x. apply rtc_ind_r; [apply (inv_entry _ _ _ _ _ Hinv)|].
  intros y z _ Hedge [j Hj]%list_elem_of_lookup.
  apply (inv_closed _ _ _ _ _ Hinv j y); [|done..].
  by apply lookup_lt_Some in Hj.
Qed.

(** What the worklist loop computes, given enough fuel. *)
Lemma entryModuleDependencies_spec agressive modules entry_ fuel :
  closure_fuel modules ≤ fuel →
  match entryModuleDependencies fuel agressive modules entry_ with
  | Visited s =>
      (∀ x, x ∈ s ↔ reachable modules entry_ x)
      ∧ (agressive = false → ∀ x, x ∈ s → is_Some (find_module modules x))
  | Missing x =>
      agressive = false ∧ reachable modules entry_ x ∧ find_module modules x = None
  | NoFuel => False
  end.
Proof.
  unfold closure_fuel, entryModuleDependencies. intros Hfuel.
  assert (Hdone : ∀ s, closure_inv agressive modules entry_ (length s) s →
    (∀ x, x ∈ s ↔ reachable modules entry_ x)
    ∧ (agressive = false → ∀ x, x ∈ s → is_Some (find_module modules x))).
  { intros s Hinv. split; [intros x; by eapply closure_inv_reachable|].
    intros Ha x [j Hj]%list_elem_of_lookup.
    apply (inv_found _ _ _ _ _ Hinv Ha j x); [|done]. by apply lookup_lt_Some in Hj. }
  destruct fuel as [|fuel]; [lia|]. cbn [closure_loop length].
  rewrite decide_False by lia.
  pose proof (set_forEach_inv agressive modules entry_ (S fuel) 0 [entry_]
                (closure_inv_init _ _ _)) as H1.
  destruct (set_forEach (S fuel) agressive modules 0 [entry_]) as [s'| |];
    [|done|lia].
  pose proof (closure_inv_length _ _ _ _ _ H1) as Hlen.
  destruct fuel as [|fuel]; [lia|]. cbn [closure_loop].
  case_decide; [by apply Hdone|].
  rewrite (set_forEach_closed agressive modules entry_ s') by (done || lia).
  destruct fuel; simpl; rewrite decide_True by done; by apply Hdone.
Qed.

Lemma lookup_delete_unused s modules i (m : ModuleT Ast) :
  delete_unused s modules !! i = Some (Some m) ↔
  modules !! i = Some (Some m) ∧ id_number (moduleId m) ∈ s.
Proof.
  unfold delete_unused, set_has. rewrite list_lookup_fmap.
  destruct (modules !! i) as [[m'|]|]; simpl.
  - case_bool_decide as Hin.
    + split; [by intros [= ->]|by intros [[= ->] _]].
    + split; [done|]. intros [[= ->] ?]. done.
  - split; [done|by intros [? _]].
  - split; [done|by intros [? _]].
Qed.

Lemma length_delete_unused s modules :
  length (delete_unused s modules) = length modules.
Proof. unfold delete_unused. apply length_map. Qed.


End EntryClosure.

(** ** The sparse array *)

Section Arrays.

Context {A : Type}.

Implicit Types (a : list (option A)) (p : A → bool).

Lemma elem_of_filter_from p k a i :
  i ∈ filter_from p k a ↔
  ∃ j x, i = k + j ∧ a !! j = Some (Some x) ∧ p x = true.
Proof.
  revert k. induction a as [|o a IH]; intros k; simpl.
  - split; [by intros ?%elem_of_nil|]. by intros (j & x & _ & ? & _).
  - assert (Hrest : i ∈ filter_from p (S k) a ↔
      ∃ j x, i = k + S j ∧ a !! j = Some (Some x) ∧ p x = true).
    { rewrite IH. split; intros (j & x & -> & ?); exists j, x; split; done || lia. }
    assert (Htail : (∃ j x, i = k + j ∧ (o :: a) !! j = Some (Some x) ∧ p x = true) ↔
      (∃ x, i = k ∧ o = Some x ∧ p x = true)
      ∨ ∃ j x, i = k + S j ∧ a !! j = Some (Some x) ∧ p x = true).
    { split.
      - intros ([|j] & x & -> & Hx & Hp); simpl in Hx.
        + left. exists x. split_and!; [lia|congruence|done].
        + right. by exists j, x.
      - intros [(x & -> & -> & Hp)|(j & x & -> & Hx & Hp)].
        + exists 0, x. split_and!; [lia|done..].
        + by exists (S j), x. }
    rewrite Htail. destruct o as [x|].
    + destruct (p x) eqn:Hp.
      * rewrite elem_of_cons, Hrest. split.
        -- intros [->|?]; [left; by exists x|by right].
        -- intros [(? & -> & _)|?]; [by left|by right].
      * rewrite Hrest. split; [by right|].
        intros [(x' & _ & [= <-] & ?)|?]; [congruence|done].
    + rewrite Hrest. split; [by right|]. by intros [(x' & _ & ? & _)|?].
Qed.

Lemma elem_of_array_filter p a i :
  i ∈ array_filter p a ↔ ∃ x, a !! i = Some (Some x) ∧ p x = true.
Proof.
  unfold array_filter. rewrite elem_of_filter_from. split.
  - intros (j & x & -> & ?). by exists x.
  - intros (x & ?). by exists i, x.
Qed.

Lemma filter_from_NoDup p k a : NoDup (filter_from p k a).
Proof.
  revert k. induction a as [|[x|] a IH]; intros k; simpl; [constructor| |done].
  destruct (p x); [|done]. constructor; [|done].
  intros (j & y & ? & _)%elem_of_filter_from. lia.
Qed.

Lemma array_filter_NoDup p a : NoDup (array_filter p a).
Proof. apply filter_from_NoDup. Qed.

Lemma array_filter_nil p a :
  array_filter p a = [] ↔ ∀ i x, a !! i = Some (Some x) → p x = false.
Proof.
  split.
  - intros Hnil i x Hx. destruct (p x) eqn:Hp; [|done].
    assert (i ∈ array_filter p a) as Hi by (apply elem_of_array_filter; eauto).
    rewrite Hnil in Hi. by apply elem_of_nil in Hi.
  - intros Hall. destruct (array_filter p a) as [|i l] eqn:E; [done|].
    assert (i ∈ array_filter p a) as (x & Hx & Hp)%elem_of_array_filter
      by (rewrite E; left).
    rewrite (Hall i x Hx) in Hp. done.
Qed.

Lemma elem_of_present a x : x ∈ present a ↔ ∃ i, a !! i = Some (Some x).
Proof.
  unfold present. rewrite list_elem_of_omap. split.
  - intros (o & [i Hi]%list_elem_of_lookup & Ho). unfold id in Ho. subst o. by exists i.
  - intros [i Hi]. exists (Some x). split; [|done].
    apply list_elem_of_lookup. by exists i.
Qed.

Lemma length_array_set a i x : 0 < length (array_set a i x).
Proof.
  unfold array_set. case_decide.
  - rewrite length_insert. lia.
  - rewrite !length_app. simpl. lia.
Qed.

Lemma lookup_array_set a i x j :
  array_set a i x !! j = Some (Some x) ∧ j = i
  ∨ j ≠ i ∧ (array_set a i x !! j = a !! j
             ∨ a !! j = None ∧ array_set a i x !! j = Some None).
Proof.
  unfold array_set. destruct (decide (j = i)) as [->|Hne].
  - left. split; [|done]. case_decide.
    + by apply list_lookup_insert_eq.
    + rewrite lookup_app_r by lia. rewrite lookup_app_r; rewrite length_replicate; [|lia].
      by replace (i - length a - (i - length a)) with 0 by lia.
  - right. split; [done|]. case_decide.
    + left. by apply list_lookup_insert_ne.
    + destruct (decide (j < length a)).
      * left. by rewrite lookup_app_l.
      * destruct (decide (j < i)).
        -- right. split; [apply lookup_ge_None; lia|].
           rewrite lookup_app_r by lia. rewrite lookup_app_l by (rewrite length_replicate; lia).
           apply lookup_replicate. split; [done|lia].
        -- left. rewrite !lookup_ge_None_2; [done|lia|].
           rewrite !length_app, length_replicate. simpl. lia.
Qed.

(** A slot holds an element after [a[i] = x] exactly when it is slot [i] or
    held one before. *)
Lemma array_set_holds a i x j :
  (∃ y, array_set a i x !! j = Some (Some y)) ↔ j = i ∨ ∃ y, a !! j = Some (Some y).
Proof.
  destruct (lookup_array_set a i x j) as [[H ->]|[Hne [H|[Hn H]]]]; rewrite H.
  - split; [by left|]. by exists x.
  - split; [by right|]. by intros [?|?].
  - split; [by intros [? ?]|]. intros [?|[y Hy]]; [done|congruence].
Qed.

End Arrays.

(** ** Ignore propagation *)

Section IgnorePropagation.

Context {Ast : Type}.

#[local] Abbreviation Modules := (list (option (ModuleT Ast))).

Implicit Types (modules : Modules) (m o : ModuleT Ast).

Lemma set_ignored_idemp m : set_ignored true (set_ignored true m) = set_ignored true m.
Proof. done. Qed.

Lemma to_ignore_spec modules m : to_ignore modules m = true ↔ ignorable modules m.
Proof.
  unfold to_ignore, ignorable, depends_on.
  rewrite !andb_true_iff, negb_true_iff, Nat.ltb_lt, forallb_forall.
  split.
  - intros [[Hi Hlen] Hall]. split_and!; [done| |].
    + destruct (List.filter _ (present modules)) as [|o l] eqn:E; [simpl in Hlen; lia|].
      assert (In o (List.filter (λ otherMod, bool_decide (moduleId m ∈ dependencies otherMod))
                      (present modules))) as [Ho Hd]%filter_In by (rewrite E; by left).
      exists o. split; [by apply list_elem_of_In|by apply bool_decide_eq_true in Hd].
    + intros o Ho Hd. specialize (Hall o). rewrite filter_In, orb_true_iff in Hall.
      destruct Hall as [?|?%bool_decide_eq_true]; [|by left|by right].
      split; [by apply list_elem_of_In|by apply bool_decide_eq_true].
  - intros (Hi & (o & Ho & Hd) & Hall). split_and!; [done| |].
    + assert (In o (List.filter (λ otherMod, bool_decide (moduleId m ∈ dependencies otherMod))
                      (present modules))) as Hin.
      { apply filter_In. split; [by apply list_elem_of_In|by apply bool_decide_eq_true]. }
      destruct (List.filter _ (present modules)); [done|simpl; lia].
    + intros o' [Ho' Hd']%filter_In. apply orb_true_iff.
      destruct (Hall o') as [?|?]; [by apply list_elem_of_In|by apply bool_decide_eq_true in Hd'| |].
      * by left.
      * right. by apply bool_decide_eq_true.
Qed.

Lemma lookup_mark_ignored (l : list nat) modules i :
  mark_ignored l modules !! i =
  (λ slot, (λ m, if decide (i ∈ l) then set_ignored true m else m) <$> slot)
    <$> modules !! i.
Proof.
  unfold mark_ignored. revert modules.
  induction l as [|x l IH]; intros modules; simpl.
  - by destruct (modules !! i) as [[m|]|].
  - rewrite IH. destruct (decide (i = x)) as [->|Hne].
    + destruct (modules !! x) as [[m|]|] eqn:Hx; simpl; [|by rewrite Hx..].
      rewrite list_lookup_insert_eq by by apply lookup_lt_Some in Hx. simpl.
      rewrite (decide_True (P := x ∈ x :: l)) by left.
      by destruct (decide (x ∈ l)).
    + assert (Hsame : (match modules !! x with
                       | Some (Some m) => <[x:=Some (set_ignored true m)]> modules
                       | _ => modules
                       end) !! i = modules !! i).
      { destruct (modules !! x) as [[m|]|]; [|done..].
        by apply list_lookup_insert_ne. }
      rewrite Hsame. destruct (modules !! i) as [[m|]|]; simpl; [|done..].
      destruct (decide (i ∈ l)) as [Hl|Hl].
      * by rewrite decide_True by by right.
      * rewrite decide_False; [done|]. by intros [?|?]%elem_of_cons.
Qed.

Lemma more_ignored_refl modules : more_ignored modules modules.
Proof.
  unfold more_ignored. induction modules as [|[m|] modules IH]; constructor; try done.
  - constructor. by left.
  - constructor.
Qed.

Lemma more_ignored_trans modules1 modules2 modules3 :
  more_ignored modules1 modules2 → more_ignored modules2 modules3 →
  more_ignored modules1 modules3.
Proof.
  unfold more_ignored. intros H12. revert modules3.
  induction H12 as [|o1 o2 l1 l2 Ho Hl IH]; intros modules3 H23;
    inversion H23 as [|? o3 ? l3 Ho' Hl']; subst; constructor; [|by apply IH].
  destruct Ho as [m1 m2 H1|]; inversion Ho' as [? m3 H2|]; subst; constructor.
  destruct H1 as [->| ->], H2 as [->| ->]; auto.
Qed.

Lemma more_ignored_lookup modules modules' i m :
  more_ignored modules modules' → modules !! i = Some (Some m) →
  ∃ m', modules' !! i = Some (Some m') ∧ (m' = m ∨ m' = set_ignored true m).
Proof.
  intros H Hm. destruct (Forall2_lookup_l _ _ _ _ _ H Hm) as (o & Ho & Hrel).
  inversion Hrel; subst. eauto.
Qed.

Lemma mark_ignored_more (l : list nat) modules :
  more_ignored modules (mark_ignored l modules).
Proof.
  unfold more_ignored. apply Forall2_same_length_lookup. split.
  - unfold mark_ignored. revert modules.
    induction l as [|x l IH]; intros modules; simpl; [done|].
    rewrite <-IH. destruct (modules !! x) as [[m|]|]; [|done..].
    by rewrite length_insert.
  - intros i o o' Ho. rewrite lookup_mark_ignored, Ho. simpl. intros [= <-].
    destruct o as [m|]; constructor. destruct (decide (i ∈ l)); auto.
Qed.

Lemma elem_of_live modules i :
  i ∈ live modules ↔ ∃ m, modules !! i = Some (Some m) ∧ ignored m = false.
Proof.
  unfold live. rewrite elem_of_array_filter.
  split; intros (m & ? & ?); exists m; by rewrite ?negb_true_iff in *.
Qed.

Lemma elem_of_live_mark (l : list nat) modules i :
  i ∈ live (mark_ignored l modules) ↔ i ∈ live modules ∧ i ∉ l.
Proof.
  rewrite !elem_of_live. setoid_rewrite lookup_mark_ignored. split.
  - intros (m' & Hm' & Hi). destruct (modules !! i) as [[m|]|]; simpl in Hm'; [|done..].
    injection Hm' as <-. destruct (decide (i ∈ l)); [done|]. eauto.
  - intros [(m & Hm & Hi) Hl]. exists m. rewrite Hm. simpl.
    by rewrite decide_False.
Qed.

(** A round that marks something leaves fewer modules that are not
    ignored. *)
Lemma live_mark_decreases modules t (l : list nat) :
  array_filter (to_ignore modules) modules = t :: l →
  length (live (mark_ignored (t :: l) modules)) < length (live modules).
Proof.
  intros E.
  assert (Ht : t ∈ live modules).
  { assert (t ∈ array_filter (to_ignore modules) modules) as
      (m & Hm & [Hi _]%to_ignore_spec)%elem_of_array_filter by (rewrite E; left).
    apply elem_of_live. eauto. }
  assert (Hsub : live (mark_ignored (t :: l) modules) ⊆+ live modules).
  { apply NoDup_submseteq; [apply array_filter_NoDup|].
    by intros i [? _]%elem_of_live_mark. }
  apply submseteq_length in Hsub as Hle.
  destruct (decide (length (live modules) ≤ length (live (mark_ignored (t :: l) modules))));
    [|lia].
  apply submseteq_length_Permutation in Hsub; [|done].
  rewrite <-Hsub in Ht. apply elem_of_live_mark in Ht as [_ []]. left.
Qed.

Lemma ignore_loop_spec fuel modules :
  length (live modules) ≤ fuel →
  ∃ modules',
    ignore_loop fuel false modules (array_filter (to_ignore modules) modules) = Some modules'
    ∧ more_ignored modules modules'
    ∧ array_filter (to_ignore modules') modules' = [].
Proof.
  revert modules. induction fuel as [|fuel IH]; intros modules Hfuel.
  - destruct (array_filter (to_ignore modules) modules) as [|t l] eqn:E.
    + exists modules. split_and!; [done|apply more_ignored_refl|done].
    + apply live_mark_decreases in E. lia.
  - destruct (array_filter (to_ignore modules) modules) as [|t l] eqn:E.
    + exists modules. split_and!; [done|apply more_ignored_refl|done].
    + cbn [ignore_loop]. unfold calculateModulesToIgnore.
      apply live_mark_decreases in E as Hlt.
      destruct (IH (mark_ignored (t :: l) modules)) as (modules' & Hloop & Hmore & Hnil);
        [lia|].
      exists modules'. split_and!; [done| |done].
      eapply more_ignored_trans; [apply mark_ignored_more|done].
Qed.

(** C10: with the aggressive cache on, the ignore-propagation stage marks
    nothing: it returns the modules as they were, whatever the fuel. *)
Theorem ignore_propagation_agressive_noop (fuel : nat) modules :
  ignore_propagation fuel true modules = Some modules.
Proof. unfold ignore_propagation, calculateModulesToIgnore. by destruct fuel. Qed.

Lemma ignore_loop_more fuel agressive modules (l : list nat) modules' :
  ignore_loop fuel agressive modules l = Some modules' → more_ignored modules modules'.
Proof.
  revert modules l. induction fuel as [|fuel IH]; intros modules [|t l];
    cbn [ignore_loop]; try by (intros [= <-]; apply more_ignored_refl).
  intros H%IH. eapply more_ignored_trans; [apply mark_ignored_more|done].
Qed.

Lemma length_mark_ignored (l : list nat) modules :
  length (mark_ignored l modules) = length modules.
Proof.
  apply Nat.le_antisymm.
  - apply Nat.nlt_ge. intros Hlt.
    destruct (lookup_lt_is_Some_2 (mark_ignored l modules) (length modules) Hlt)
      as [slot Hslot].
    rewrite lookup_mark_ignored, (lookup_ge_None_2 modules (length modules)) in Hslot;
      [done|lia].
  - apply Nat.nlt_ge. intros Hlt.
    destruct (lookup_lt_is_Some_2 modules (length (mark_ignored l modules)) Hlt)
      as [slot Hslot].
    pose proof (lookup_mark_ignored l modules (length (mark_ignored l modules))) as Hl.
    rewrite Hslot, lookup_ge_None_2 in Hl; [done|lia].
Qed.

(** A round of the loop marks exactly the modules that satisfy the
    predicate. *)
Lemma mark_ignored_round modules :
  marks_ignorable modules
    (mark_ignored (calculateModulesToIgnore false modules []) modules).
Proof.
  unfold calculateModulesToIgnore.
  assert (Hround : ∀ i, i ∈ array_filter (to_ignore modules) modules ↔
            ∃ m, modules !! i = Some (Some m) ∧ ignorable modules m).
  { intros i. rewrite elem_of_array_filter. by setoid_rewrite to_ignore_spec. }
  split_and!.
  - apply length_mark_ignored.
  - intros i Hi. by rewrite lookup_mark_ignored, Hi.
  - intros i m Hm. rewrite lookup_mark_ignored, Hm. simpl. split; intros Hign.
    + rewrite decide_True; [done|]. apply Hround. eauto.
    + rewrite decide_False; [done|]. intros (m' & Hm' & ?)%Hround. congruence.
Qed.

(** What a round does is determined by the graph. *)
Lemma marks_ignorable_unique modules modules1 modules2 :
  marks_ignorable modules modules1 → marks_ignorable modules modules2 →
  modules1 = modules2.
Proof.
  intros (Hlen1 & Hhole1 & Hmod1) (Hlen2 & Hhole2 & Hmod2).
  apply list_eq. intros i.
  destruct (modules !! i) as [[m|]|] eqn:Hi.
  - destruct (to_ignore modules m) eqn:Hign.
    + apply to_ignore_spec in Hign.
      by rewrite (proj1 (Hmod1 i m Hi) Hign), (proj1 (Hmod2 i m Hi) Hign).
    + assert (¬ ignorable modules m) as Hnot
        by (rewrite <-to_ignore_spec; congruence).
      by rewrite (proj2 (Hmod1 i m Hi) Hnot), (proj2 (Hmod2 i m Hi) Hnot).
  - by rewrite (Hhole1 i Hi), (Hhole2 i Hi).
  - apply lookup_ge_None in Hi.
    rewrite !lookup_ge_None_2; [done|lia..].
Qed.

(** The rounds lead from a graph to one graph only. *)
Lemma propagation_rounds_unique modules modules1 modules2 :
  propagation_rounds modules modules1 → propagation_rounds modules modules2 →
  modules1 = modules2.
Proof.
  intros H1. revert modules2.
  induction H1 as [modules Hnone|modules modulesA modules1 Hsome Hround _ IH];
    intros modules2 H2;
    inversion H2 as [? Hnone2|? modulesB ? Hsome2 Hround2 Hrest2]; subst.
  - done.
  - destruct Hsome2 as (i & m & Hm & Hign). by destruct (Hnone i m Hm).
  - destruct Hsome as (i & m & Hm & Hign). by destruct (Hnone2 i m Hm).
  - apply IH. by rewrite (marks_ignorable_unique _ _ _ Hround Hround2).
Qed.

(** The loop of the driver runs these rounds. *)
Lemma ignore_loop_rounds fuel modules modules' :
  ignore_loop fuel false modules (calculateModulesToIgnore false modules [])
  = Some modules' →
  propagation_rounds modules modules'.
Proof.
  revert modules. unfold calculateModulesToIgnore.
  induction fuel as [|fuel IH]; intros modules;
    destruct (array_filter (to_ignore modules) modules) as [|t l] eqn:E;
    cbn [ignore_loop]; try done.
  - intros [= <-]. apply rounds_done. intros i m Hm Hign%to_ignore_spec.
    rewrite array_filter_nil in E. by rewrite (E i m Hm) in Hign.
  - intros [= <-]. apply rounds_done. intros i m Hm Hign%to_ignore_spec.
    rewrite array_filter_nil in E. by rewrite (E i m Hm) in Hign.
  - intros Hloop. apply IH in Hloop.
    eapply rounds_step; [| |exact Hloop].
    + assert (t ∈ array_filter (to_ignore modules) modules) as
        (m & Hm & Hign%to_ignore_spec)%elem_of_array_filter by (rewrite E; left).
      by exists t, m.
    + rewrite <-E. apply mark_ignored_round.
Qed.

(** C4 (as amended): with the aggressive cache off the propagator terminates
    at a fixed point: in its result no module that is not ignored (NPM or
    not) has a reverse dependent while all its reverse dependents are ignored
    or among its own dependencies.  It gets there by rounds that each mark
    exactly the modules that satisfy this predicate in the graph of that
    round (the code does not look at [isNpmModule]) and change nothing else,
    and it ends with the first round that marks nothing: its result is the
    one graph that such rounds lead to.  With the aggressive cache on it
    marks nothing. *)
Theorem ignore_propagation_fixed_point (fuel : nat) modules :
  length (live modules) ≤ fuel →
  (∃ modules',
     ignore_propagation fuel false modules = Some modules'
     ∧ more_ignored modules modules'
     ∧ (∀ i m, modules' !! i = Some (Some m) → ¬ ignorable modules' m)
     ∧ propagation_rounds modules modules'
     ∧ ∀ modules'', propagation_rounds modules modules'' → modules'' = modules')
  ∧ (∀ modulesToIgnore,
       let round := calculateModulesToIgnore false modules modulesToIgnore in
       (∀ i, i ∈ round ↔ ∃ m, modules !! i = Some (Some m) ∧ ignorable modules m)
       ∧ (∀ i m, modules !! i = Some (Some m) →
            (ignorable modules m →
             mark_ignored round modules !! i = Some (Some (set_ignored true m)))
            ∧ (¬ ignorable modules m →
               mark_ignored round modules !! i = Some (Some m)))
       ∧ (round = [] → ignore_propagation fuel false modules = Some modules)
       ∧ (round ≠ [] → ∀ fuel',
            ignore_propagation (S fuel') false modules
            = ignore_propagation fuel' false (mark_ignored round modules)))
  ∧ ignore_propagation fuel true modules = Some modules.
Proof.
  intros Hfuel. split_and!.
  - destruct (ignore_loop_spec fuel modules Hfuel) as (modules' & Hloop & Hmore & Hnil).
    pose proof (ignore_loop_rounds fuel modules modules' Hloop) as Hrounds.
    exists modules'. split_and!; [done|done| |done|].
    + intros i m Hm Hign%to_ignore_spec.
      rewrite array_filter_nil in Hnil. rewrite (Hnil i m Hm) in Hign. done.
    + intros modules'' Hrounds'. by apply (propagation_rounds_unique modules).
  - intros l. unfold calculateModulesToIgnore. simpl.
    assert (Hround : ∀ i, i ∈ array_filter (to_ignore modules) modules ↔
              ∃ m, modules !! i = Some (Some m) ∧ ignorable modules m).
    { intros i. rewrite elem_of_array_filter. by setoid_rewrite to_ignore_spec. }
    split_and!; [done| | |].
    + intros i m Hm. rewrite lookup_mark_ignored, Hm. simpl. split; intros Hign.
      * rewrite decide_True; [done|]. apply Hround. eauto.
      * rewrite decide_False; [done|]. intros (m' & Hm' & ?)%Hround. congruence.
    + intros Hnil. unfold ignore_propagation, calculateModulesToIgnore.
      rewrite Hnil. by destruct fuel.
    + intros Hsome fuel'. unfold ignore_propagation, calculateModulesToIgnore.
      by destruct (array_filter (to_ignore modules) modules).
  - unfold ignore_propagation, calculateModulesToIgnore. by destruct fuel.
Qed.

(** On a graph where every NPM module is ignored, the predicate of the code
    and the one that also asks for a module that is not an NPM module
    agree. *)
Lemma ignorable_non_npm modules m :
  (isNpmModule m = true → ignored m = true) →
  ignorable modules m ↔ isNpmModule m = false ∧ ignorable modules m.
Proof.
  intros Hnpm. split; [|by intros [_ ?]]. intros Hign. split; [|done].
  destruct Hign as [Hi _]. destruct (isNpmModule m); [|done].
  rewrite Hnpm in Hi; done.
Qed.

End IgnorePropagation.

(** ** The ignored flag across the passes *)

Section IgnoredFlag.

Context {Ast : Type} `{!Collaborators Ast}.

#[local] Abbreviation Modules := (list (option (ModuleT Ast))).

Implicit Types (modules : Modules) (m : ModuleT Ast).

Lemma apply_action_ignored m (a : Action Ast) :
  ignored m = true → ignored (apply_action m a) = true.
Proof.
  destruct a; simpl; try done.
  unfold tag. by case_decide.
Qed.

Lemma foldl_apply_action_ignored (l : list (Action Ast)) m :
  ignored m = true → ignored (foldl apply_action m l) = true.
Proof.
  revert m. induction l as [|a l IH]; intros m Hm; simpl; [done|].
  by apply IH, apply_action_ignored.
Qed.

Lemma Router_traverse_ignored (plugins : list (Plugin Ast)) modules i m :
  ignored m = true → ignored (Router_traverse plugins modules i m) = true.
Proof.
  unfold Router_traverse. revert m.
  induction (dispatch_order plugins) as [|p l IH]; intros m Hm; simpl; [done|].
  apply IH. unfold run_plugin. by apply foldl_apply_action_ignored.
Qed.

Lemma Router_parse_ignored pass (plugins : list (Plugin Ast)) modules i m m' :
  Router_parse pass plugins modules i m = Some m' →
  ignored m = true → ignored m' = true.
Proof.
  assert (Hfix : ∀ cap m, Router_fixpoint cap plugins modules i m = Some m' →
            ignored m = true → ignored m' = true).
  { induction cap as [|cap IH]; intros m0; simpl; [done|].
    case_decide; [by intros [= <-]|].
    intros Hrec Hm0. eapply IH; [done|]. by apply Router_traverse_ignored. }
  destruct pass; unfold Router_parse; [apply Hfix| |apply Hfix].
  intros [= <-]. apply Router_traverse_ignored.
Qed.

Lemma keeps_ignored_refl modules : keeps_ignored modules modules.
Proof. intros i m ? ?. eauto. Qed.

Lemma keeps_ignored_trans modules1 modules2 modules3 :
  keeps_ignored modules1 modules2 → keeps_ignored modules2 modules3 →
  keeps_ignored modules1 modules3.
Proof.
  intros H12 H23 i m Hm Hi. destruct (H12 i m Hm Hi) as (m2 & Hm2 & Hi2).
  by apply (H23 i m2).
Qed.

Lemma more_ignored_keeps modules modules' :
  more_ignored modules modules' → keeps_ignored modules modules'.
Proof.
  intros Hmore i m Hm Hi.
  destruct (more_ignored_lookup _ _ _ _ Hmore Hm) as (m' & Hm' & [->| ->]); eauto.
Qed.

(** A pass whose callback never clears the flag never clears it. *)
Lemma forEach_module_keeps
    (f : Modules → nat → ModuleT Ast → option (ModuleT Ast))
    (refs : list nat) modules modules' :
  (∀ modules i m m', f modules i m = Some m' → ignored m = true → ignored m' = true) →
  forEach_module f refs modules = Some modules' →
  keeps_ignored modules modules'.
Proof.
  intros Hf. revert modules.
  induction refs as [|r refs IH]; intros modules; simpl.
  - intros [= <-]. apply keeps_ignored_refl.
  - destruct (modules !! r) as [[m|]|] eqn:Hr; [|by apply IH..].
    destruct (f modules r m) as [m1|] eqn:Hfm; [|done].
    intros Hrest%IH. eapply keeps_ignored_trans; [|done].
    intros i m0 Hm0 Hi. destruct (decide (i = r)) as [->|].
    + rewrite Hr in Hm0. injection Hm0 as <-. exists m1.
      split; [|by eapply Hf].
      apply list_lookup_insert_eq. by apply lookup_lt_Some in Hr.
    + exists m0. by rewrite list_lookup_insert_ne.
Qed.

(** C5: the ignored flag is monotone across the passes that follow the
    enumeration: a module that is ignored before the pre-parsing, the
    tagging, the ignore propagation or the editing and decompiling pass is
    still ignored after it, and hence at the output, which reads the modules
    only. *)
Theorem ignored_flag_monotone (fuel : nat) (agressive : bool)
    (refs refs' : list nat) (modules0 modules1 modules2 modules3 modules4 : Modules) :
  preparse_stage refs modules0 = Some modules1 →
  tagging_stage refs modules1 = Some modules2 →
  ignore_propagation fuel agressive modules2 = Some modules3 →
  decompiling_stage refs' modules3 = Some modules4 →
  keeps_ignored modules0 modules1
  ∧ keeps_ignored modules1 modules2
  ∧ keeps_ignored modules2 modules3
  ∧ keeps_ignored modules3 modules4
  ∧ keeps_ignored modules0 modules4.
Proof.
  intros H1 H2 H3 H4.
  assert (K1 : keeps_ignored modules0 modules1).
  { eapply forEach_module_keeps; [|exact H1]. by intros ? ? ? ? [= <-]. }
  assert (K2 : keeps_ignored modules1 modules2).
  { eapply forEach_module_keeps; [|exact H2]. intros ? ? ? ?. apply Router_parse_ignored. }
  assert (K3 : keeps_ignored modules2 modules3).
  { by eapply more_ignored_keeps, ignore_loop_more. }
  assert (K4 : keeps_ignored modules3 modules4).
  { eapply forEach_module_keeps; [|exact H4].
    intros ms i m m'. unfold decompile_module.
    destruct (Router_parse Editor editorList ms i m) as [m1|] eqn:E;
      cbn [mbind option_bind]; [|done].
    intros Hd Hm. eapply Router_parse_ignored; [done|].
    by eapply Router_parse_ignored. }
  split_and!; try done.
  eauto using keeps_ignored_trans.
Qed.

End IgnoredFlag.

(** ** Runs of the driver *)

Lemma bind_Ok {A B} (c : M A) (k : A → M B) (w w1 : World) (a : A) :
  c w = Ok a w1 → (c ≫= k) w = k a w1.
Proof. unfold mbind, M_bind. by intros ->. Qed.

Lemma bind_Ok_inv {A B} (c : M A) (k : A → M B) (w w' : World) (b : B) :
  (c ≫= k) w = Ok b w' → ∃ a w1, c w = Ok a w1 ∧ k a w1 = Ok b w'.
Proof. unfold mbind, M_bind. destruct (c w); [eauto|done..]. Qed.

Lemma existsSync_file path w content :
  files w !! path = Some content → existsSync path w = Ok true w.
Proof.
  intros H. unfold existsSync. rewrite bool_decide_eq_true_2; [done|]. left. by rewrite H.
Qed.

Lemma existsSync_absent path w :
  files w !! path = None → dirs w !! path = None → existsSync path w = Ok false w.
Proof.
  intros Hf Hd. unfold existsSync. rewrite bool_decide_eq_false_2; [done|].
  rewrite Hf, Hd. by intros [[? [=]]|[? [=]]].
Qed.

Lemma readFileSync_file path w content :
  files w !! path = Some content → readFileSync path w = Ok content w.
Proof. intros H. unfold readFileSync. by rewrite H. Qed.

Section Runs.

Context {Ast : Type} `{!Collaborators Ast}.

#[local] Abbreviation Modules := (list (option (ModuleT Ast))).

Implicit Types (modules : Modules) (args : CmdArgs) (w : World).

(** C8: the program exits with code 1 when [in] or [out] is missing, and
    when the enumeration of the modules ends with no module, in which case
    the diagnosis has been printed. *)
Theorem exit_code_nonzero (fuel : nat) args w :
  (truthy_string (arg_in args) = false ∨ truthy_string (arg_out args) = false →
   run fuel args w = Exit 1 (add_event Usage w))
  ∧ (∀ inputJsFile cacheFile modules w',
       truthy_string (arg_in args) = true →
       truthy_string (arg_out args) = true →
       enumerate_modules args w = Ok (inputJsFile, cacheFile, modules) w' →
       length modules = 0 →
       ∃ w'', run fuel args w = Exit 1 w''
              ∧ LogError "[!] No modules were found!" ∈ events w'').
Proof.
  split.
  - intros Hmissing. unfold run.
    assert (negb (truthy_string (arg_in args)) || negb (truthy_string (arg_out args)) = true)
      as -> by (destruct Hmissing as [-> | ->]; [done|apply orb_true_r]).
    done.
  - intros inputJsFile cacheFile modules w' Hin Hout Henum Hlen.
    unfold run. rewrite Hin, Hout. simpl.
    rewrite (bind_Ok _ _ _ _ _ Henum).
    unfold process_modules, check_modules. rewrite Hlen. simpl.
    eexists. split; [reflexivity|].
    simpl. rewrite !elem_of_app. do 4 left. right. left.
Qed.

(** Without a cache file (and the aggressive cache off) the modules come
    from parsing the bundle. *)
Lemma load_modules_fresh args inputJsFile w :
  files w !! cacheFileName args = None →
  dirs w !! cacheFileName args = None →
  agressiveCache args = false →
  load_modules args inputJsFile w =
  (modules ← parse_bundle inputJsFile; mret (None, modules)) w.
Proof.
  intros Hf Hd Ha. unfold load_modules, read_cache_file.
  rewrite (bind_Ok _ _ w w None); [|by rewrite (bind_Ok _ _ _ _ _ (existsSync_absent _ _ Hf Hd))].
  unfold validate_cache. rewrite Ha. done.
Qed.

End Runs.

Lemma list_ascii_of_string_app (s t : string) :
  String.list_ascii_of_string (s +:+ t)
  = String.list_ascii_of_string s ++ String.list_ascii_of_string t.
Proof. induction s as [|a s IH]; [done|]. cbn. by rewrite <-IH. Qed.

Lemma string_app_inj_r (s1 s2 t : string) : s1 +:+ t = s2 +:+ t → s1 = s2.
Proof.
  intros H%(f_equal String.list_ascii_of_string).
  rewrite !list_ascii_of_string_app in H. apply app_inv_tail in H.
  rewrite <-(String.string_of_list_ascii_of_string s1), H.
  apply String.string_of_list_ascii_of_string.
Qed.

Lemma output_path_inj (out : option string) (name1 name2 : nat) :
  output_path out name1 = output_path out name2 → name1 = name2.
Proof.
  unfold output_path. intros H. do 2 apply String.app_inj in H.
  apply string_app_inj_r in H. by apply pretty_nat_inj in H.
Qed.

Lemma NoDup_fst_unique {A B} (l : list (A * B)) (x : A) (y1 y2 : B) :
  NoDup l.*1 → (x, y1) ∈ l → (x, y2) ∈ l → y1 = y2.
Proof.
  induction l as [|[x' y'] l IH]; csimpl; [by intros _ ?%elem_of_nil|].
  intros [Hfresh Hnd]%NoDup_cons [E1|H1]%elem_of_cons [E2|H2]%elem_of_cons.
  - congruence.
  - injection E1 as <- <-. destruct Hfresh. apply list_elem_of_fmap. by exists (x, y2).
  - injection E2 as <- <-. destruct Hfresh. apply list_elem_of_fmap. by exists (x, y1).
  - by apply IH.
Qed.

(** ** The names of the generated files *)

Section ModuleIds.

Context {Ast : Type} `{!Collaborators Ast}.

#[local] Abbreviation Modules := (list (option (ModuleT Ast))).

Implicit Types (modules : Modules) (m : ModuleT Ast).

Lemma well_indexed_register modules m :
  well_indexed modules → well_indexed (register modules m).
Proof.
  intros Hwi i m' Hm'. unfold register in Hm'.
  destruct (lookup_array_set modules (moduleId m) m i) as [[H ->]|[Hne [H|[_ H]]]];
    rewrite H in Hm'.
  - by injection Hm' as <-.
  - by apply Hwi.
  - done.
Qed.

Lemma well_indexed_registrations {R} (f : R → ModuleT Ast) (regs : list R) modules :
  well_indexed modules →
  well_indexed (foldl (λ modules r, register modules (f r)) modules regs).
Proof.
  revert modules. induction regs as [|r regs IH]; intros modules Hwi; simpl; [done|].
  by apply IH, well_indexed_register.
Qed.

Lemma well_indexed_delete_unused s modules :
  well_indexed modules → well_indexed (delete_unused s modules).
Proof. intros Hwi i m [Hm _]%lookup_delete_unused. by apply Hwi. Qed.

Lemma well_indexed_more_ignored modules modules' :
  more_ignored modules modules' → well_indexed modules → well_indexed modules'.
Proof.
  intros Hmore Hwi i m' Hm'.
  destruct (Forall2_lookup_r _ _ _ _ _ Hmore Hm') as (o & Ho & Hrel).
  inversion Hrel as [m ? [->| ->]|]; subst; by apply Hwi in Ho.
Qed.

Lemma Router_parse_moduleId pass (plugins : list (Plugin Ast)) modules i m m' :
  Router_parse pass plugins modules i m = Some m' → moduleId m' = moduleId m.
Proof.
  assert (Haction : ∀ (l : list (Action Ast)) m0,
            moduleId (foldl apply_action m0 l) = moduleId m0).
  { induction l as [|a l IH]; intros m0; simpl; [done|]. rewrite IH.
    destruct a; simpl; try done. unfold tag. by case_decide. }
  assert (Htraverse : ∀ m0, moduleId (Router_traverse plugins modules i m0) = moduleId m0).
  { unfold Router_traverse. induction (dispatch_order plugins) as [|p l IH];
      intros m0; simpl; [done|]. rewrite IH. apply Haction. }
  assert (Hfix : ∀ cap m0, Router_fixpoint cap plugins modules i m0 = Some m' →
            moduleId m' = moduleId m0).
  { induction cap as [|cap IH]; intros m0; simpl; [done|].
    case_decide; [by intros [= <-]|]. intros Hrec%IH. by rewrite Hrec. }
  destruct pass; unfold Router_parse; [apply Hfix| |apply Hfix].
  by intros [= <-].
Qed.

Lemma forEach_module_well_indexed
    (f : Modules → nat → ModuleT Ast → option (ModuleT Ast))
    (refs : list nat) modules modules' :
  (∀ modules i m m', f modules i m = Some m' → moduleId m' = moduleId m) →
  forEach_module f refs modules = Some modules' →
  well_indexed modules → well_indexed modules'.
Proof.
  intros Hf. revert modules.
  induction refs as [|r refs IH]; intros modules; simpl.
  - by intros [= <-].
  - destruct (modules !! r) as [[m|]|] eqn:Hr; [|by apply IH..].
    destruct (f modules r m) as [m1|] eqn:Hfm; [|done].
    intros Hrest Hwi. apply (IH _ Hrest).
    intros i m0 Hm0. destruct (decide (i = r)) as [->|].
    + rewrite list_lookup_insert_eq in Hm0 by by apply lookup_lt_Some in Hr.
      injection Hm0 as <-. rewrite (Hf _ _ _ _ Hfm). by apply Hwi.
    + rewrite list_lookup_insert_ne in Hm0 by done. by apply Hwi.
Qed.

(** The names of the generated files are the indices of the modules they
    come from. *)
Lemma generate_names (refs : list nat) modules generatedFiles :
  well_indexed modules →
  generate refs modules = Some generatedFiles →
  generatedFiles.*1 = refs.
Proof.
  intros Hwi. unfold generate. rewrite mapM_Some. intros Hall.
  induction Hall as [|i [name code] refs files Hi _ IH]; [done|].
  csimpl. rewrite IH. f_equal.
  destruct (modules !! i) as [[m|]|] eqn:Hm; [|done..].
  destruct (moduleCode m); [|done]. simpl in Hi. injection Hi as <- _.
  by apply Hwi.
Qed.

(** The files the driver generates have distinct names. *)
Lemma generate_names_NoDup args modules generatedFiles :
  well_indexed modules →
  generate (nonIgnoredModules args modules) modules = Some generatedFiles →
  NoDup generatedFiles.*1.
Proof.
  intros Hwi Hgen. rewrite (generate_names _ _ _ Hwi Hgen).
  apply array_filter_NoDup.
Qed.

End ModuleIds.

(** ** Saving the generated files *)

Section Saving.

Implicit Types (out : option string) (w : World)
  (generatedFiles : list (nat * jsstring)).

Lemma save_file_saved out file w :
  dirs w !! output_path out file.1 = None →
  save_file out file w = Ok tt (saved out file w).
Proof.
  intros Hd. unfold save_file, saved.
  destruct (files w !! output_path out file.1) as [content|] eqn:Hf.
  - rewrite (bind_Ok _ _ _ _ _ (existsSync_file _ _ _ Hf)). simpl.
    rewrite (bind_Ok _ _ _ _ _ (readFileSync_file _ _ _ Hf)).
    destruct (decide (content = file.2)) as [->|Hne].
    + rewrite bool_decide_eq_false_2 by (intros ?; done). by rewrite decide_True.
    + rewrite bool_decide_eq_true_2 by done. rewrite decide_False by congruence. done.
  - by rewrite (bind_Ok _ _ _ _ _ (existsSync_absent _ _ Hf Hd)).
Qed.

Lemma save_files_inv out generatedFiles w :
  NoDup generatedFiles.*1 →
  (∀ file, file ∈ generatedFiles → dirs w !! output_path out file.1 = None) →
  ∃ w' written,
    save_files out generatedFiles w = Ok tt w'
    ∧ events w' = events w ++ written
    ∧ dirs w' = dirs w
    ∧ (∀ e, e ∈ written →
         ∃ name code, (name, code) ∈ generatedFiles
                      ∧ e = WriteFile (output_path out name) code
                      ∧ files w !! output_path out name ≠ Some code)
    ∧ (∀ name code, (name, code) ∈ generatedFiles →
         files w !! output_path out name ≠ Some code →
         WriteFile (output_path out name) code ∈ written)
    ∧ (∀ name code, (name, code) ∈ generatedFiles →
         files w' !! output_path out name = Some code)
    ∧ (∀ path, (∀ name, name ∈ generatedFiles.*1 → path ≠ output_path out name) →
         files w' !! path = files w !! path).
Proof.
  revert w. induction generatedFiles as [|[name0 code0] generatedFiles IH];
    intros w Hnd Hdirs.
  - exists w, []. split_and!; try done.
    + by rewrite app_nil_r.
    + by intros e ?%elem_of_nil.
    + by intros ? ? ?%elem_of_nil.
    + by intros ? ? ?%elem_of_nil.
  - apply NoDup_cons in Hnd as [Hfresh Hnd].
    assert (Hd0 : dirs w !! output_path out name0 = None) by (apply (Hdirs (name0, code0)); left).
    set (w1 := saved out (name0, code0) w).
    assert (Hdirs1 : dirs w1 = dirs w) by (unfold w1, saved; by case_decide).
    assert (Hother : ∀ path, path ≠ output_path out name0 → files w1 !! path = files w !! path).
    { intros path Hne. unfold w1, saved. case_decide; [done|]. simpl.
      by rewrite lookup_insert_ne. }
    assert (Hhead : files w1 !! output_path out name0 = Some code0).
    { unfold w1, saved. case_decide; [done|]. simpl. by rewrite lookup_insert_eq. }
    assert (Hpaths : ∀ name, name ∈ generatedFiles.*1 →
              output_path out name ≠ output_path out name0).
    { intros name Hin Heq%output_path_inj. by subst. }
    destruct (IH w1 Hnd) as (w' & written & Hrun & Hev & Hdir & Hall & Hwr & Hpost & Hframe).
    { intros file Hin. rewrite Hdirs1. apply Hdirs. by right. }
    exists w', (drop (length (events w)) (events w1) ++ written).
    assert (Hev1 : events w1 = events w ++ drop (length (events w)) (events w1)).
    { unfold w1, saved. case_decide; simpl.
      - by rewrite drop_all, app_nil_r.
      - by rewrite drop_app_length. }
    assert (Hfirst : ∀ e, e ∈ drop (length (events w)) (events w1) ↔
              e = WriteFile (output_path out name0) code0
              ∧ files w !! output_path out name0 ≠ Some code0).
    { intros e. unfold w1, saved. case_decide; simpl.
      - rewrite drop_all. split; [by intros ?%elem_of_nil|by intros [_ ?]].
      - rewrite drop_app_length, list_elem_of_singleton. by split; [|intros [? _]]. }
    split_and!.
    + unfold save_files. cbn [forEachM].
      rewrite (bind_Ok _ _ _ _ _ (save_file_saved out (name0, code0) w Hd0)). exact Hrun.
    + rewrite Hev, Hev1 at 1. by rewrite <-app_assoc.
    + by rewrite Hdir.
    + intros e [[-> Hne]%Hfirst|He]%elem_of_app.
      * exists name0, code0. split_and!; [left|done..].
      * destruct (Hall e He) as (name & code & Hin & -> & Hne).
        exists name, code. split_and!; [by right|done|].
        rewrite <-Hother; [done|]. apply Hpaths, list_elem_of_fmap. by exists (name, code).
    + intros name code [[= -> ->]|Hin]%elem_of_cons Hne; apply elem_of_app.
      * left. by apply Hfirst.
      * right. apply Hwr; [done|]. rewrite Hother; [done|].
        apply Hpaths, list_elem_of_fmap. by exists (name, code).
    + intros name code [[= -> ->]|Hin]%elem_of_cons; [|by apply Hpost].
      rewrite Hframe; [done|]. intros name Hin Heq. by apply (Hpaths name).
    + intros path Hpath. rewrite Hframe, Hother; [done| |].
      * apply Hpath. left.
      * intros name Hin. apply Hpath. by right.
Qed.

(** C7: the save loop writes [<out>/<moduleId>.js] exactly when the file is
    absent or its content differs from the generated code, and then it writes
    the generated code; a file whose content equals the generated code is not
    written.  In both cases the file holds the generated code afterwards. *)
Theorem save_writes_only_changes out generatedFiles w :
  NoDup generatedFiles.*1 →
  (∀ file, file ∈ generatedFiles → dirs w !! output_path out file.1 = None) →
  ∃ w' written,
    save_files out generatedFiles w = Ok tt w'
    ∧ events w' = events w ++ written
    ∧ ∀ name code, (name, code) ∈ generatedFiles →
        ((∃ content, WriteFile (output_path out name) content ∈ written) ↔
         files w !! output_path out name ≠ Some code)
        ∧ (∀ content, WriteFile (output_path out name) content ∈ written →
                      content = code)
        ∧ files w' !! output_path out name = Some code.
Proof.
  intros Hnd Hdirs.
  destruct (save_files_inv out generatedFiles w Hnd Hdirs)
    as (w' & written & Hrun & Hev & _ & Hall & Hwr & Hpost & _).
  exists w', written. split_and!; [done..|].
  intros name code Hin.
  assert (Hsame : ∀ content, WriteFile (output_path out name) content ∈ written →
            content = code ∧ files w !! output_path out name ≠ Some code).
  { intros content (name' & code' & Hin' & [= Hp ->] & Hne)%Hall.
    apply output_path_inj in Hp as <-.
    assert (code' = code) as ->; [|done].
    by eapply (NoDup_fst_unique generatedFiles name). }
  split_and!.
  - split; [by intros [content [_ ?]%Hsame]|]. intros Hne. exists code. by apply Hwr.
  - by intros content [? _]%Hsame.
  - by apply Hpost.
Qed.

End Saving.

(** ** The cache file is written only by the cache stage *)

Section CacheSilent.

Lemma silent_ret {A} (a : A) : cache_silent (mret a : M A).
Proof. intros w0 w w' Hw [= <-]. done. Qed.

Lemma silent_bind {A B} (c : M A) (k : A → M B) :
  cache_silent c → (∀ a, cache_silent (k a)) → cache_silent (c ≫= k).
Proof.
  intros Hc Hk w0 w w' Hw. unfold mbind, M_bind.
  destruct (c w) as [a w1|code w1|err w1|] eqn:E; simpl.
  - apply (Hk a). apply (Hc w0 w w1 Hw). by rewrite E.
  - intros [= <-]. apply (Hc w0 w w1 Hw). by rewrite E.
  - intros [= <-]. apply (Hc w0 w w1 Hw). by rewrite E.
  - done.
Qed.

Lemma silent_pure {A} (c : M A) :
  (∀ w w', world_of (c w) = Some w' → w' = w) → cache_silent c.
Proof. intros Hc w0 w w' Hw Hr. by rewrite (Hc w w' Hr). Qed.

Lemma silent_emit (e : Event) : (∀ path, e ≠ WriteCache path) → cache_silent (emit e).
Proof.
  intros He w0 w w' Hw [= <-] path. simpl.
  intros [?|Heq%list_elem_of_singleton]%elem_of_app; [by apply Hw|].
  by destruct (He path).
Qed.

Lemma silent_console_log msg : cache_silent (console_log msg).
Proof. by apply silent_emit. Qed.

Lemma silent_console_error msg : cache_silent (console_error msg).
Proof. by apply silent_emit. Qed.

Lemma silent_process_exit {A} code : cache_silent (process_exit code : M A).
Proof. apply silent_pure. by intros w w' [= <-]. Qed.

Lemma silent_throw {A} err : cache_silent (throw err : M A).
Proof. apply silent_pure. by intros w w' [= <-]. Qed.

Lemma silent_out_of_fuel {A} : cache_silent (out_of_fuel : M A).
Proof. by intros w0 w w' _. Qed.

Lemma silent_lift_throw {A} err (o : option A) : cache_silent (lift_throw err o).
Proof. destruct o; [apply silent_ret|apply silent_throw]. Qed.

Lemma silent_existsSync path : cache_silent (existsSync path).
Proof. apply silent_pure. by intros w w' [= <-]. Qed.

Lemma silent_readFileSync path : cache_silent (readFileSync path).
Proof.
  apply silent_pure. intros w w'. unfold readFileSync.
  by destruct (files w !! path); intros [= <-].
Qed.

Lemma silent_readdirSync path : cache_silent (readdirSync path).
Proof.
  apply silent_pure. intros w w'. unfold readdirSync.
  by destruct (dirs w !! path); intros [= <-].
Qed.

Lemma silent_ensureDirSync path : cache_silent (ensureDirSync path).
Proof.
  intros w0 w w' Hw. unfold ensureDirSync.
  by destruct (files w !! path), (dirs w !! path); intros [= <-].
Qed.

Lemma silent_writeFileSync path content : cache_silent (writeFileSync path content).
Proof.
  intros w0 w w' Hw [= <-] p. simpl.
  intros [?|Heq%list_elem_of_singleton]%elem_of_app; [by apply Hw|done].
Qed.

Lemma silent_removeSync path : cache_silent (removeSync path).
Proof.
  intros w0 w w' Hw [= <-] p. simpl.
  intros [?|Heq%list_elem_of_singleton]%elem_of_app; [by apply Hw|done].
Qed.

Lemma silent_mapM {A B} (f : A → M B) (l : list A) :
  (∀ x, cache_silent (f x)) → cache_silent (mapM f l).
Proof.
  intros Hf. induction l as [|x l IH]; simpl; [apply silent_ret|].
  apply silent_bind; [done|]. intros y.
  apply silent_bind; [done|]. intros ys. apply silent_ret.
Qed.

Lemma silent_forEachM {A} (f : A → M unit) (l : list A) :
  (∀ x, cache_silent (f x)) → cache_silent (forEachM f l).
Proof.
  intros Hf. induction l as [|x l IH]; simpl; [apply silent_ret|].
  by apply silent_bind.
Qed.

Lemma silent_foldlM {A B} (f : B → A → M B) (l : list A) (b : B) :
  (∀ b x, cache_silent (f b x)) → cache_silent (foldlM f b l).
Proof.
  intros Hf. revert b. induction l as [|x l IH]; intros b; simpl; [apply silent_ret|].
  by apply silent_bind.
Qed.

End CacheSilent.

Create HintDb silent.

#[local] Hint Resolve silent_ret silent_console_log silent_console_error
  silent_process_exit silent_throw silent_out_of_fuel silent_lift_throw
  silent_existsSync silent_readFileSync silent_readdirSync silent_ensureDirSync
  silent_writeFileSync silent_removeSync : silent.

Ltac silent :=
  repeat first
    [ solve [eauto with silent]
    | apply silent_bind; [|intros ?]
    | apply silent_mapM; intros ?
    | apply silent_forEachM; intros ?
    | apply silent_foldlM; intros ? ?
    | match goal with
      | |- cache_silent (if ?b then _ else _) => destruct b
      | |- cache_silent (match ?x with _ => _ end) => destruct x
      end ].

Section CacheStage.

Context {Ast : Type} `{!Collaborators Ast}.

#[local] Abbreviation Modules := (list (option (ModuleT Ast))).

Implicit Types (modules : Modules) (args : CmdArgs) (w : World).

Lemma silent_enumerate_modules args : cache_silent (enumerate_modules args).
Proof.
  unfold enumerate_modules, read_input, load_modules, read_cache_file,
    validate_cache, build_modules, load_from_cache, load_cached_module, parse_bundle.
  silent.
Qed.

Lemma silent_entry_stage fuel args cacheFile modules :
  cache_silent (entry_stage fuel args cacheFile modules).
Proof. unfold entry_stage, filter_by_entry. silent. Qed.

Lemma silent_save_files out generatedFiles : cache_silent (save_files out generatedFiles).
Proof. unfold save_files, save_file. silent. Qed.

Lemma silent_process_modules fuel args inputJsFile cacheFile modules :
  cache_guard args = false →
  cache_silent (process_modules fuel args inputJsFile cacheFile modules).
Proof.
  intros Hguard. unfold process_modules, check_modules, cache_stage, eslint_stage.
  rewrite Hguard.
  pose proof silent_entry_stage. pose proof silent_save_files.
  silent.
Qed.

(** A run whose cache guard is off never writes the cache, however it
    ends. *)
Lemma run_cache_silent fuel args :
  cache_guard args = false → cache_silent (run fuel args).
Proof.
  intros Hguard. unfold run.
  pose proof silent_enumerate_modules. pose proof (silent_process_modules fuel args).
  assert (cache_silent (emit Usage)) by by apply silent_emit.
  silent.
Qed.

Lemma lift_throw_Ok {A} err (o : option A) w w' (a : A) :
  lift_throw err o w = Ok a w' → o = Some a.
Proof. destruct o; [by intros [= ->]|done]. Qed.

(** A run that completes has taken the modules through the passes in
    order. *)
Lemma process_modules_stages fuel args inputJsFile cacheFile modules w w' :
  process_modules fuel args inputJsFile cacheFile modules w = Ok tt w' →
  ∃ modules0 modules1 modules2 modules3 modules4 generatedFiles,
    (∃ w0 w1, entry_stage fuel args cacheFile modules w0 = Ok modules0 w1)
    ∧ preparse_stage (nonIgnoredModules args modules0) modules0 = Some modules1
    ∧ tagging_stage (nonIgnoredModules args modules0) modules1 = Some modules2
    ∧ ignore_propagation fuel (agressiveCache args) modules2 = Some modules3
    ∧ decompiling_stage (nonIgnoredModules args modules3) modules3 = Some modules4
    ∧ generate (nonIgnoredModules args modules3) modules4 = Some generatedFiles
    ∧ (∃ w2 w3, save_files (arg_out args) generatedFiles w2 = Ok tt w3).
Proof.
  unfold process_modules. intros Hrun.
  repeat match type of Hrun with
         | (_ ≫= _) _ = Ok _ _ =>
             let H := fresh "Hstage" in
             apply bind_Ok_inv in Hrun as (? & ? & H & Hrun); cbv beta in Hrun
         end.
  repeat match goal with
         | H : lift_throw _ _ _ = Ok _ _ |- _ => apply lift_throw_Ok in H
         | u : unit |- _ => destruct u
         end.
  match goal with
  | H : match ignore_propagation ?f ?a ?ms with _ => _ end _ = Ok ?ms' _ |- _ =>
      assert (ignore_propagation f a ms = Some ms')
        by (destruct (ignore_propagation f a ms); [by injection H as <- _|done])
  end.
  eexists _, _, _, _, _, _. split_and!; eauto.
Qed.

Lemma find_module_NaN modules : find_module modules NaN = None.
Proof. induction modules as [|[m|] modules IH]; done. Qed.

(** An entry that is [NaN] is found in no graph: without the aggressive
    cache the entry stage does not complete. *)
Lemma entry_stage_NaN fuel args cacheFile modules w modules' w' :
  entry args = Some NaN → agressiveCache args = false →
  entry_stage fuel args cacheFile modules w ≠ Ok modules' w'.
Proof.
  intros HE Ha. unfold entry_stage, entry_guard, filter_by_entry.
  rewrite HE, Ha. simpl. unfold mbind, M_bind, console_log, emit.
  unfold entryModuleDependencies.
  destruct fuel as [|fuel]; [done|].
  cbn [closure_loop length]. rewrite decide_False by lia.
  cbn [set_forEach]. simpl. by rewrite find_module_NaN.
Qed.

Lemma cache_stage_writes args inputJsFile modules w w' :
  cache_guard args = true →
  cache_stage args inputJsFile modules w = Ok tt w' →
  WriteCache (cacheFileName args) ∈ events w'.
Proof.
  intros Hguard. unfold cache_stage. rewrite Hguard.
  intros [= <-]. simpl. apply elem_of_app. right. left.
Qed.

Lemma eslint_stage_events args w w' (e : Event) :
  eslint_stage args w = Ok tt w' → e ∈ events w → e ∈ events w'.
Proof.
  unfold eslint_stage. destruct (noEslint args); simpl; intros [= <-] He; simpl;
    rewrite ?elem_of_app; auto.
Qed.

(** C9 (as amended): with [entry] 0 the entry filter runs unless the
    aggressive cache is on and a cache was validated, and the run never
    writes the cache file, however it ends; with any other [entry] value and
    the aggressive cache off, a run that completes has written the cache
    file. *)
Theorem entry_zero_cache_guard (fuel : nat) args w :
  (entry args = Some (Num 0) →
   (∀ cacheFile modules,
      agressiveCache args = false ∨ cacheFile = None →
      entry_stage fuel args cacheFile modules =
      filter_by_entry fuel (agressiveCache args) (Num 0) modules)
   ∧ (∀ w', world_of (run fuel args w) = Some w' → no_cache_write w w'))
  ∧ (∀ v w',
       entry args = Some v → v ≠ Num 0 → agressiveCache args = false →
       run fuel args w = Ok tt w' → WriteCache (cacheFileName args) ∈ events w').
Proof.
  split.
  - intros HE. split.
    + intros cacheFile modules Hmode. unfold entry_stage, entry_guard.
      rewrite HE. simpl. by destruct Hmode as [-> | ->]; [|rewrite orb_true_r].
    + intros w' Hw'. eapply (run_cache_silent fuel args); [|by intros ? ?|done].
      unfold cache_guard. by rewrite HE.
  - intros v w' HE Hv Ha. unfold run.
    destruct (negb (truthy_string (arg_in args)) || negb (truthy_string (arg_out args)));
      [done|].
    intros ([[inputJsFile cacheFile] modules] & w1 & _ & Hrun)%bind_Ok_inv.
    unfold process_modules in Hrun.
    repeat match type of Hrun with
           | (_ ≫= _) _ = Ok _ _ =>
               let H := fresh "Hstage" in
               apply bind_Ok_inv in Hrun as (? & ? & H & Hrun); cbv beta in Hrun
           end.
    eapply eslint_stage_events; [exact Hrun|].
    match goal with
    | H : cache_stage _ _ _ _ = Ok ?u _ |- _ =>
        destruct u; eapply cache_stage_writes; [|exact H]
    end.
    unfold cache_guard. rewrite Ha, HE. destruct v as [|z].
    + match goal with
      | H : entry_stage _ _ _ _ _ = Ok _ _ |- _ => by apply entry_stage_NaN in H
      end.
    + simpl. rewrite andb_true_r. apply negb_true_iff, Z.eqb_neq. congruence.
Qed.

End CacheStage.

(** ** Loading the modules from the cache *)

Section CacheLoading.

Context {Ast : Type} `{!Collaborators Ast}.

#[local] Abbreviation Modules := (list (option (ModuleT Ast))).

Implicit Types (modules : Modules) (w : World) (c : CachedModule).

Lemma elem_of_validCachedModules agressive (cf : CachedFile) c :
  c ∈ validCachedModules agressive cf ↔
  c ∈ cached_modules cf
  ∧ (agressive = false ∨ cached_ignored c = false ∨ cached_isNpmModule c = true).
Proof.
  unfold validCachedModules. rewrite list_elem_of_In, filter_In, <-list_elem_of_In.
  rewrite !orb_true_iff, !negb_true_iff.
  split; intros [Hc Hflags]; (split; [done|]).
  - destruct Hflags as [[?|?]|?]; auto.
  - destruct Hflags as [?|[?|?]]; auto.
Qed.

Lemma source_of_cached_stub c :
  cached_isNpmModule c = true → 128 < length (cached_originalCode c) →
  source_of_cached true c = stub_source (cached_moduleId c).
Proof.
  intros Hnpm Hlen. unfold source_of_cached, canIgnoreModuleBody.
  rewrite Hnpm. simpl. by apply Nat.ltb_lt in Hlen as ->.
Qed.

Lemma source_of_cached_original agressive c :
  agressive = false ∨ cached_isNpmModule c = false
  ∨ length (cached_originalCode c) ≤ 128 →
  source_of_cached agressive c = cached_originalCode c.
Proof.
  unfold source_of_cached, canIgnoreModuleBody.
  intros [-> |[-> | Hlen]]; [done|by rewrite andb_false_r|].
  apply Nat.ltb_ge in Hlen as ->. by rewrite andb_false_r.
Qed.

(** The records are loaded one after the other; each registers the module
    of its [__d] call. *)
Lemma load_cached_modules_holds agressive (l : list CachedModule) modules w :
  (∀ c, c ∈ l →
     ∃ originalFile,
       babylon_parse (source_of_cached agressive c) = Some originalFile
       ∧ reg_moduleId <$> d_calls originalFile = [cached_moduleId c]) →
  ∃ modules',
    foldlM (load_cached_module agressive) modules l w = Ok modules' w
    ∧ ∀ i, (∃ m, modules' !! i = Some (Some m)) ↔
           (∃ m, modules !! i = Some (Some m))
           ∨ ∃ c, c ∈ l ∧ cached_moduleId c = i.
Proof.
  revert modules. induction l as [|c l IH]; intros modules Hparse.
  - exists modules. split; [done|]. intros i. split; [by left|].
    intros [?|(c & ?%elem_of_nil & _)]; done.
  - destruct (Hparse c) as (originalFile & Hfile & Hcalls); [left|].
    destruct (d_calls originalFile) as [|r [|r' rs]] eqn:Hd; try done.
    injection Hcalls as Hr.
    destruct (IH (register modules (loadCache c (new_Module r)))) as (modules' & Hrun & Hholds).
    { intros c' Hc'. apply Hparse. by right. }
    exists modules'. split.
    + cbn [foldlM].
      rewrite (bind_Ok _ _ w w (register modules (loadCache c (new_Module r))));
        [exact Hrun|].
      unfold load_cached_module. by rewrite Hfile, Hd.
    + intros i. rewrite Hholds. unfold register. rewrite array_set_holds. simpl.
      rewrite Hr. split.
      * intros [[->|?]|(c' & Hc' & <-)]; [right; exists c; split; [left|done]|by left|].
        right. exists c'. split; [by right|done].
      * intros [?|(c' & [->|Hc']%elem_of_cons & <-)]; [by left; right|by left; left|].
        right. by exists c'.
Qed.

(** C2 (as amended): with the aggressive cache on, the graph loaded from the
    cache (with a parser that finds in each loaded text the one [__d] call
    of the record) holds a module exactly at the [moduleId]s of the cached
    records that are not ignored or are NPM modules: a record with
    [ignored=true] and [isNpmModule=false] is filtered out and registers
    nothing.  The empty factory stub replaces the body of the cached NPM
    modules whose [originalCode] is longer than 128 characters. *)
Theorem cached_ignored_modules_not_loaded (cf : CachedFile) w :
  (∀ c, c ∈ validCachedModules true cf →
     ∃ originalFile,
       babylon_parse (source_of_cached true c) = Some originalFile
       ∧ reg_moduleId <$> d_calls originalFile = [cached_moduleId c]) →
  ∃ modules w',
    load_from_cache true cf w = Ok modules w'
    ∧ (∀ i, (∃ m, modules !! i = Some (Some m)) ↔
            ∃ c, c ∈ cached_modules cf ∧ cached_moduleId c = i
                 ∧ (cached_ignored c = false ∨ cached_isNpmModule c = true))
    ∧ (∀ c, c ∈ cached_modules cf →
            cached_ignored c = true → cached_isNpmModule c = false →
            c ∉ validCachedModules true cf)
    ∧ (∀ c, cached_isNpmModule c = true → 128 < length (cached_originalCode c) →
            source_of_cached true c = stub_source (cached_moduleId c)).
Proof.
  intros Hparse. unfold load_from_cache.
  destruct (load_cached_modules_holds true (validCachedModules true cf) []
              (add_event (Log "Loading cache...") w) Hparse) as (modules & Hrun & Hholds).
  exists modules, (add_event (Log "Loading cache...") w). split_and!.
  - unfold mbind, M_bind, console_log, emit. exact Hrun.
  - intros i. rewrite Hholds. split.
    + intros [[m Hm]|(c & Hc & Hid)]; [by rewrite lookup_nil in Hm|].
      apply elem_of_validCachedModules in Hc as [Hc [?|Hflags]]; [done|]. by exists c.
    + intros (c & Hc & Hid & Hflags). right. exists c. split; [|done].
      apply elem_of_validCachedModules. auto.
  - intros c Hc Hign Hnpm [_ [?|[?|?]]]%elem_of_validCachedModules; congruence.
  - apply source_of_cached_stub.
Qed.

End CacheLoading.

(** ** The validation of the cache file *)

Section CacheValidation.

Context {Ast : Type} `{!Collaborators Ast}.

#[local] Abbreviation Modules := (list (option (ModuleT Ast))).

Implicit Types (modules : Modules) (args : CmdArgs) (w : World) (c : CachedModule).

Lemma read_cache_file_present args w (text : jsstring) :
  files w !! cacheFileName args = Some text →
  read_cache_file args w =
  match readJSON text with
  | Some cacheFile => Ok cacheFile w
  | None => Threw "SyntaxError" w
  end.
Proof.
  intros Hfile. unfold read_cache_file.
  rewrite (bind_Ok _ _ _ _ _ (existsSync_file _ _ _ Hfile)).
  rewrite (bind_Ok _ _ _ _ _ (readFileSync_file _ _ _ Hfile)).
  by destruct (readJSON text).
Qed.

(** With no cache (no file, or a file that holds a falsy value) the modules
    come from parsing the bundle, unless the aggressive cache is asked for. *)
Lemma load_modules_no_cache args inputJsFile w :
  read_cache_file args w = Ok None w →
  load_modules args inputJsFile w =
  if agressiveCache args
  then Exit 1 (add_event
                 (LogError "A cache file must be generated first before using the agressive cache")
                 w)
  else (modules ← parse_bundle inputJsFile; mret (None, modules)) w.
Proof.
  intros Hread. unfold load_modules. rewrite (bind_Ok _ _ _ _ _ Hread).
  unfold validate_cache. by destruct (agressiveCache args).
Qed.

Lemma lookup_registrations_inv {R} (f : R → ModuleT Ast) (regs : list R) modules i m :
  foldl (λ modules r, register modules (f r)) modules regs !! i = Some (Some m) →
  modules !! i = Some (Some m) ∨ ∃ r, r ∈ regs ∧ m = f r.
Proof.
  revert modules. induction regs as [|r regs IH]; intros modules; simpl; [by left|].
  intros H. apply IH in H as [Hm|(r' & Hr' & ->)].
  - unfold register in Hm.
    destruct (lookup_array_set modules (moduleId (f r)) (f r) i)
      as [[Hi _]|[_ [Hi|[_ Hi]]]]; rewrite Hi in Hm.
    + injection Hm as <-. right. exists r. split; [left|done].
    + by left.
    + done.
  - right. exists r'. split; [by right|done].
Qed.

Lemma load_cached_modules_from_records agressive (cf : CachedFile)
    (l : list CachedModule) modules w modules' w' :
  l ⊆ validCachedModules agressive cf →
  (∀ i m, modules !! i = Some (Some m) → from_cached_record agressive cf m) →
  foldlM (load_cached_module agressive) modules l w = Ok modules' w' →
  w' = w ∧ ∀ i m, modules' !! i = Some (Some m) → from_cached_record agressive cf m.
Proof.
  revert modules w. induction l as [|c l IH]; intros modules w Hsub Hinv; simpl.
  - by intros [= <- <-].
  - intros (modules1 & w1 & Hstep & Hrest)%bind_Ok_inv.
    unfold load_cached_module in Hstep.
    destruct (babylon_parse (source_of_cached agressive c)) as [originalFile|] eqn:Hfile;
      [|done].
    injection Hstep as <- <-.
    refine (IH _ _ _ _ Hrest); [intros x Hx; apply Hsub; by right|].
    intros i m Hm.
    destruct (lookup_registrations_inv (λ r, loadCache c (new_Module r)) _ _ _ _ Hm)
      as [Hm'|(r & Hr & ->)]; [exact (Hinv _ _ Hm')|].
    exists c, originalFile, r. split_and!; [|done..]. apply Hsub. left.
Qed.

(** Whatever the parser finds, a graph loaded from the cache holds only
    modules of [__d] calls found in the texts of the valid records, each with
    the cached state of its record; loading prints one line and does nothing
    else to the world. *)
Lemma load_from_cache_from_records agressive (cf : CachedFile) w modules w' :
  load_from_cache agressive cf w = Ok modules w' →
  w' = add_event (Log "Loading cache...") w
  ∧ ∀ i m, modules !! i = Some (Some m) → from_cached_record agressive cf m.
Proof.
  unfold load_from_cache. intros ([] & w1 & [= <-] & Hload)%bind_Ok_inv.
  apply (load_cached_modules_from_records agressive cf) in Hload; [done..|].
  intros i m Hm. by rewrite lookup_nil in Hm.
Qed.

(** C6 (as amended): when the cache file is present and holds a value, the
    stored checksum is compared with the digest of the bundle text.  If they
    differ the cache file is removed and the modules come from parsing the
    bundle: without the aggressive cache the run goes on exactly as a run
    that finds no cache file, with the aggressive cache it goes on where such
    a run exits.  If they are equal the bundle is not parsed and the graph is
    built from the cached records: every module in it is the module of a
    [__d] call found in the text of a valid record, with the cached state of
    that record, and when the parser finds in each text the call of its
    record the graph holds a module exactly at the [moduleId]s of the valid
    records.  A cache file that holds a falsy value is taken for no cache,
    neither compared nor removed, and one that is not JSON stops the run. *)
Theorem cache_checksum_validation args (inputJsFile text : jsstring) w :
  files w !! cacheFileName args = Some text →
  match readJSON text with
  | None => load_modules args inputJsFile w = Threw "SyntaxError" w
  | Some None =>
      load_modules args inputJsFile w =
      if agressiveCache args
      then Exit 1 (add_event
                     (LogError "A cache file must be generated first before using the agressive cache")
                     w)
      else (modules ← parse_bundle inputJsFile; mret (None, modules)) w
  | Some (Some cf) =>
      (checksum cf ≠ md5 inputJsFile →
       ∃ w1,
         files w1 = delete (cacheFileName args) (files w)
         ∧ dirs w1 = delete (cacheFileName args) (dirs w)
         ∧ events w1 = events w ++ [Log "Cache detected, validating it...";
                                    Log "Cache invalidated due to checksum mismatch";
                                    RemoveFile (cacheFileName args)]
         ∧ load_modules args inputJsFile w =
           (modules ← parse_bundle inputJsFile; mret (None, modules)) w1
         ∧ load_modules args inputJsFile w1 =
           if agressiveCache args
           then Exit 1 (add_event
                          (LogError "A cache file must be generated first before using the agressive cache")
                          w1)
           else load_modules args inputJsFile w)
      ∧ (checksum cf = md5 inputJsFile →
         ∃ w1,
           files w1 = files w
           ∧ events w1 = events w ++ [Log "Cache detected, validating it...";
                                      Log "Cache validated"]
           ∧ load_modules args inputJsFile w =
             (modules ← load_from_cache (agressiveCache args) cf;
              mret (Some cf, modules)) w1
           ∧ (∀ cacheFile modules w',
                load_modules args inputJsFile w = Ok (cacheFile, modules) w' →
                cacheFile = Some cf
                ∧ w' = add_event (Log "Loading cache...") w1
                ∧ ∀ i m, modules !! i = Some (Some m) →
                         from_cached_record (agressiveCache args) cf m)
           ∧ ((∀ c, c ∈ validCachedModules (agressiveCache args) cf →
                    parses_own_call (agressiveCache args) c) →
              ∃ modules,
                load_modules args inputJsFile w
                = Ok (Some cf, modules) (add_event (Log "Loading cache...") w1)
                ∧ ∀ i, (∃ m, modules !! i = Some (Some m)) ↔
                       ∃ c, c ∈ validCachedModules (agressiveCache args) cf
                            ∧ cached_moduleId c = i))
  end.
Proof.
  intros Hfile. pose proof (read_cache_file_present args w text Hfile) as Hread.
  destruct (readJSON text) as [[cf|]|].
  - split; intros Hsum.
    + set (w1 := add_event (RemoveFile (cacheFileName args))
                   (set_files (delete (cacheFileName args) (files w))
                      (set_dirs (delete (cacheFileName args) (dirs w))
                         (add_event (Log "Cache invalidated due to checksum mismatch")
                            (add_event (Log "Cache detected, validating it...") w))))).
      assert (Hload : load_modules args inputJsFile w =
                (modules ← parse_bundle inputJsFile; mret (None, modules)) w1).
      { unfold load_modules. rewrite (bind_Ok _ _ _ _ _ Hread).
        unfold validate_cache. by rewrite bool_decide_eq_true_2 by done. }
      exists w1. split_and!; [done|done|by simpl; rewrite <-!app_assoc|done|].
      rewrite (load_modules_no_cache args inputJsFile w1).
      * destruct (agressiveCache args); [done|by rewrite Hload].
      * unfold read_cache_file.
        rewrite (bind_Ok _ _ _ _ _ (existsSync_absent (cacheFileName args) w1
                                      (lookup_delete_eq _ _) (lookup_delete_eq _ _))).
        done.
    + set (w1 := add_event (Log "Cache validated")
                   (add_event (Log "Cache detected, validating it...") w)).
      assert (Hload : load_modules args inputJsFile w =
                (modules ← load_from_cache (agressiveCache args) cf;
                 mret (Some cf, modules)) w1).
      { unfold load_modules. rewrite (bind_Ok _ _ _ _ _ Hread).
        unfold validate_cache. by rewrite bool_decide_eq_false_2 by (intros ?; done). }
      exists w1. split_and!; [done|by simpl; rewrite <-!app_assoc|done| |].
      * intros cacheFile modules w'. rewrite Hload.
        intros (modules0 & w2 & Hcache & [= <- <- <-])%bind_Ok_inv.
        apply load_from_cache_from_records in Hcache as [-> Hfrom]. done.
      * intros Hparse. rewrite Hload. unfold load_from_cache.
        destruct (load_cached_modules_holds (agressiveCache args)
                    (validCachedModules (agressiveCache args) cf) []
                    (add_event (Log "Loading cache...") w1) Hparse)
          as (modules & Hrun & Hholds).
        exists modules. split.
        -- rewrite (bind_Ok _ _ w1 (add_event (Log "Loading cache...") w1) modules);
             [done|].
           by rewrite (bind_Ok _ _ w1 (add_event (Log "Loading cache...") w1) tt).
        -- intros i. rewrite Hholds. split; [|by right].
           intros [[m Hm]|?]; [by rewrite lookup_nil in Hm|done].
  - by apply load_modules_no_cache.
  - unfold load_modules. unfold mbind, M_bind. by rewrite Hread.
Qed.

End CacheValidation.

(** * The properties on the sample bundle *)

Section OnTheSample.

#[local] Existing Instance Sample.collaborators.

Lemma babel_tagger_fingerprint_witness :
  (regex_test arraySpreadRegex (originalCode (Sample.plain 5 [] Sample.source5)) = true
   ∧ isNpmModule (evaluate (Sample.plain 5 [] Sample.source5)) = true
   ∧ npmModuleName (evaluate (Sample.plain 5 [] Sample.source5))
     = Some "@babel/runtime/helpers/toConsumableArray"
   ∧ ignored (evaluate (Sample.plain 5 [] Sample.source5)) = true)
  ∧ (regex_test arraySpreadRegex (originalCode (Sample.plain 0 [1] Sample.source0)) = false
     ∧ evaluate (Sample.plain 0 [1] Sample.source0) = Sample.plain 0 [1] Sample.source0).
Proof.
  assert (H5 : regex_test arraySpreadRegex
                 (originalCode (Sample.plain 5 [] Sample.source5)) = true)
    by (vm_compute; reflexivity).
  assert (H0 : regex_test arraySpreadRegex
                 (originalCode (Sample.plain 0 [1] Sample.source0)) = false)
    by (vm_compute; reflexivity).
  split.
  - split; [exact H5|].
    exact (proj1 (babel_tagger_fingerprint (Sample.plain 5 [] Sample.source5)) H5).
  - split; [exact H0|].
    exact (proj2 (babel_tagger_fingerprint (Sample.plain 0 [1] Sample.source0)) H0).
Defined.

(** In aggressive mode the record of module 2 (ignored, not an NPM module)
    is dropped: slot 2 of the graph is a hole and the dependency 2 of module
    1 does not resolve. *)
Lemma cached_ignored_module_dropped :
  Sample.cached2 ∈ cached_modules Sample.cache
  ∧ cached_ignored Sample.cached2 = true
  ∧ cached_isNpmModule Sample.cached2 = false
  ∧ ∃ modules w',
      load_from_cache true Sample.cache Sample.world = Ok modules w'
      ∧ modules !! cached_moduleId Sample.cached2 = Some None
      ∧ find_module modules (id_number (cached_moduleId Sample.cached2)) = None
      ∧ ∃ m1, modules !! 1 = Some (Some m1)
              ∧ cached_moduleId Sample.cached2 ∈ dependencies m1.
Proof.
  split_and!; [|done..|].
  - unfold Sample.cache. simpl. set_solver.
  - eexists _, _. split; [vm_compute; reflexivity|].
    split_and!; [done..|]. eexists. split; [done|]. simpl. set_solver.
Qed.

Lemma cached_ignored_modules_not_loaded_witness :
  ∃ modules w',
    load_from_cache true Sample.cache Sample.world = Ok modules w'
    ∧ (∀ i, (∃ m, modules !! i = Some (Some m)) ↔
            ∃ c, c ∈ cached_modules Sample.cache ∧ cached_moduleId c = i
                 ∧ (cached_ignored c = false ∨ cached_isNpmModule c = true))
    ∧ (∀ c, c ∈ cached_modules Sample.cache →
            cached_ignored c = true → cached_isNpmModule c = false →
            c ∉ validCachedModules true Sample.cache)
    ∧ (∀ c, cached_isNpmModule c = true → 128 < length (cached_originalCode c) →
            source_of_cached true c = stub_source (cached_moduleId c)).
Proof.
  apply (cached_ignored_modules_not_loaded Sample.cache Sample.world).
  change (validCachedModules true Sample.cache)
    with [Sample.cached0; Sample.cached1; Sample.cached5].
  intros c Hc. rewrite !elem_of_cons in Hc.
  destruct Hc as [->|[->|[->|Hc]]]; [..|by apply elem_of_nil in Hc];
    eexists; (split; [reflexivity|]); vm_compute; reflexivity.
Defined.


(** In aggressive mode the propagator returns the graph as it is, although
    module 1 is not ignored, is not an NPM module, and its only reverse
    dependent, module 0, is ignored. *)
Lemma ignore_propagation_agressive_not_fixed :
  ignore_propagation 2 true Sample.npm_graph = Some Sample.npm_graph
  ∧ ∃ m, Sample.npm_graph !! 1 = Some (Some m)
         ∧ ignored m = false ∧ isNpmModule m = false
         ∧ ignorable Sample.npm_graph m.
Proof.
  split; [reflexivity|]. eexists. split_and!; [reflexivity..|].
  apply to_ignore_spec. vm_compute. reflexivity.
Qed.

Lemma ignore_propagation_fixed_point_witness :
  length (live Sample.npm_graph) ≤ 2
  ∧ ∃ modules',
      ignore_propagation 2 false Sample.npm_graph = Some modules'
      ∧ more_ignored Sample.npm_graph modules'
      ∧ (∀ i m, modules' !! i = Some (Some m) → ¬ ignorable modules' m)
      ∧ propagation_rounds Sample.npm_graph modules'
      ∧ ∀ modules'', propagation_rounds Sample.npm_graph modules'' → modules'' = modules'.
Proof.
  assert (Hfuel : length (live Sample.npm_graph) ≤ 2) by (vm_compute; lia).
  split; [exact Hfuel|].
  exact (proj1 (ignore_propagation_fixed_point 2 Sample.npm_graph Hfuel)).
Defined.

Lemma ignored_flag_monotone_witness :
  ∃ modules4,
    (∃ modules1 modules2 modules3,
       preparse_stage [0; 1] Sample.loaded = Some modules1
       ∧ tagging_stage [0; 1] modules1 = Some modules2
       ∧ ignore_propagation 6 false modules2 = Some modules3
       ∧ decompiling_stage (nonIgnoredModules (Sample.args None false) modules3) modules3
         = Some modules4)
    ∧ keeps_ignored Sample.loaded modules4.
Proof.
  pose (modules1 := default [] (preparse_stage [0; 1] Sample.loaded)).
  pose (modules2 := default [] (tagging_stage [0; 1] modules1)).
  pose (modules3 := default [] (ignore_propagation 6 false modules2)).
  pose (modules4 := default []
          (decompiling_stage (nonIgnoredModules (Sample.args None false) modules3) modules3)).
  assert (H1 : preparse_stage [0; 1] Sample.loaded = Some modules1)
    by (vm_compute; reflexivity).
  assert (H2 : tagging_stage [0; 1] modules1 = Some modules2)
    by (vm_compute; reflexivity).
  assert (H3 : ignore_propagation 6 false modules2 = Some modules3)
    by (vm_compute; reflexivity).
  assert (H4 : decompiling_stage (nonIgnoredModules (Sample.args None false) modules3)
                 modules3 = Some modules4)
    by (vm_compute; reflexivity).
  exists modules4. split; [by exists modules1, modules2, modules3|].
  exact (proj2 (proj2 (proj2 (proj2
    (ignored_flag_monotone 6 false [0; 1] _ _ _ _ _ _ H1 H2 H3 H4))))).
Defined.

(** With the aggressive cache on, a run that finds a stale cache removes it
    and completes, while the same run in the world without the cache file
    exits with code 1; and a cache file that holds [null] is neither compared
    nor removed. *)
Lemma cache_mismatch_agressive_not_fresh :
  files Sample.stale_world !! cacheFileName (Sample.args (Some (Num 0)) true)
  = Some Sample.stale_cache_text
  ∧ readJSON Sample.stale_cache_text = Some (Some Sample.stale_cache)
  ∧ checksum Sample.stale_cache ≠ md5 Sample.bundle
  ∧ (∃ w', run 20 (Sample.args (Some (Num 0)) true) Sample.stale_world = Ok tt w')
  ∧ files Sample.world = delete "out/0.cache" (files Sample.stale_world)
  ∧ (∃ w', run 20 (Sample.args (Some (Num 0)) true) Sample.world = Exit 1 w')
  ∧ files Sample.null_cache_world !! cacheFileName (Sample.args (Some (Num 0)) false)
    = Some Sample.null_cache_text
  ∧ ∃ w', run 20 (Sample.args (Some (Num 0)) false) Sample.null_cache_world = Ok tt w'
          ∧ (Log "Cache detected, validating it..." ∉ events w')
          ∧ files w' !! "out/0.cache" = Some Sample.null_cache_text.
Proof.
  split_and!.
  - vm_compute. reflexivity.
  - vm_compute. reflexivity.
  - vm_compute. discriminate.
  - eexists. vm_compute. reflexivity.
  - apply map_eq. intros path. vm_compute. reflexivity.
  - eexists. vm_compute. reflexivity.
  - vm_compute. reflexivity.
  - eexists. split_and!; [vm_compute; reflexivity| |vm_compute; reflexivity].
    simpl. rewrite !elem_of_cons. intros H.
    repeat (destruct H as [H|H]; [discriminate H|]). by apply elem_of_nil in H.
Qed.

Lemma cache_checksum_validation_witness :
  (∃ w1,
     files w1 = delete "out/0.cache" (files Sample.stale_world)
     ∧ dirs w1 = delete "out/0.cache" (dirs Sample.stale_world)
     ∧ events w1 = events Sample.stale_world
                   ++ [Log "Cache detected, validating it...";
                       Log "Cache invalidated due to checksum mismatch";
                       RemoveFile "out/0.cache"]
     ∧ load_modules (Sample.args (Some (Num 0)) false) Sample.bundle Sample.stale_world
       = (modules ← parse_bundle Sample.bundle; mret (None, modules)) w1
     ∧ load_modules (Sample.args (Some (Num 0)) false) Sample.bundle w1
       = load_modules (Sample.args (Some (Num 0)) false) Sample.bundle Sample.stale_world)
  ∧ (∃ w1 modules,
       events w1 = events Sample.cached_world
                   ++ [Log "Cache detected, validating it..."; Log "Cache validated"]
       ∧ load_modules (Sample.args (Some (Num 0)) false) Sample.bundle Sample.cached_world
         = Ok (Some Sample.cache, modules) (add_event (Log "Loading cache...") w1)
       ∧ (∀ i, (∃ m, modules !! i = Some (Some m)) ↔
               ∃ c, c ∈ validCachedModules false Sample.cache ∧ cached_moduleId c = i)
       ∧ ∀ i m, modules !! i = Some (Some m) → from_cached_record false Sample.cache m)
  ∧ load_modules (Sample.args (Some (Num 0)) false) Sample.bundle Sample.null_cache_world
    = (modules ← parse_bundle Sample.bundle; mret (None, modules)) Sample.null_cache_world
  ∧ load_modules (Sample.args (Some (Num 0)) false) Sample.bundle Sample.broken_cache_world
    = Threw "SyntaxError" Sample.broken_cache_world.
Proof.
  assert (Hstale : readJSON Sample.stale_cache_text = Some (Some Sample.stale_cache))
    by (vm_compute; reflexivity).
  assert (Hcache : readJSON Sample.cache_text = Some (Some Sample.cache))
    by (vm_compute; reflexivity).
  assert (Hnull : readJSON Sample.null_cache_text = Some None)
    by (vm_compute; reflexivity).
  assert (Hbroken : readJSON (js "{") = None) by (vm_compute; reflexivity).
  split_and!.
  - pose proof (cache_checksum_validation (Sample.args (Some (Num 0)) false)
                  Sample.bundle Sample.stale_cache_text Sample.stale_world eq_refl) as H.
    rewrite Hstale in H. apply (proj1 H). vm_compute. discriminate.
  - pose proof (cache_checksum_validation (Sample.args (Some (Num 0)) false)
                  Sample.bundle Sample.cache_text Sample.cached_world eq_refl) as H.
    rewrite Hcache in H.
    destruct (proj2 H eq_refl) as (w1 & _ & Hev & _ & Hfrom & Hall).
    destruct Hall as (modules & Hload & Hslots).
    { change (validCachedModules _ Sample.cache)
        with [Sample.cached0; Sample.cached1; Sample.cached2; Sample.cached5].
      intros c Hc. rewrite !elem_of_cons in Hc. unfold parses_own_call.
      destruct Hc as [->|[->|[->|[->|Hc]]]]; [..|by apply elem_of_nil in Hc];
        eexists; (split; [reflexivity|]); vm_compute; reflexivity. }
    exists w1, modules. split_and!; [exact Hev|exact Hload|exact Hslots|].
    exact (proj2 (proj2 (Hfrom _ _ _ Hload))).
  - pose proof (cache_checksum_validation (Sample.args (Some (Num 0)) false)
                  Sample.bundle Sample.null_cache_text Sample.null_cache_world eq_refl) as H.
    rewrite Hnull in H. exact H.
  - pose proof (cache_checksum_validation (Sample.args (Some (Num 0)) false)
                  Sample.bundle (js "{") Sample.broken_cache_world eq_refl) as H.
    rewrite Hbroken in H. exact H.
Defined.

Lemma save_writes_only_changes_witness :
  ∃ w' written,
    save_files (Some "out") [(1, Sample.source1); (2, Sample.source2)] Sample.saved_world
    = Ok tt w'
    ∧ events w' = events Sample.saved_world ++ written
    ∧ ∀ name code, (name, code) ∈ [(1, Sample.source1); (2, Sample.source2)] →
        ((∃ content, WriteFile (output_path (Some "out") name) content ∈ written) ↔
         files Sample.saved_world !! output_path (Some "out") name ≠ Some code)
        ∧ (∀ content, WriteFile (output_path (Some "out") name) content ∈ written →
                      content = code)
        ∧ files w' !! output_path (Some "out") name = Some code.
Proof.
  apply (save_writes_only_changes (Some "out")
           [(1, Sample.source1); (2, Sample.source2)] Sample.saved_world).
  - apply (bool_decide_unpack _). vm_compute. exact I.
  - intros file _. apply lookup_empty.
Defined.

Lemma exit_code_nonzero_witness :
  run 0 (mkCmdArgs None (Some "out") "./js-modules" None false false false false false)
      Sample.world
  = Exit 1 (add_event Usage Sample.world)
  ∧ ∃ w'', run 0 (Sample.args None false) Sample.empty_world = Exit 1 w''
           ∧ LogError "[!] No modules were found!" ∈ events w''.
Proof.
  split.
  - apply (proj1 (exit_code_nonzero 0
             (mkCmdArgs None (Some "out") "./js-modules" None false false false false false)
             Sample.world)).
    by left.
  - pose (r := enumerate_modules (Sample.args None false) Sample.empty_world).
    assert (Hr : ∃ w', r = Ok (Sample.empty_bundle, None, []) w')
      by (vm_compute; eexists; reflexivity).
    destruct Hr as [w' Hr].
    exact (proj2 (exit_code_nonzero 0 (Sample.args None false) Sample.empty_world)
             Sample.empty_bundle None [] w' eq_refl eq_refl Hr eq_refl).
Defined.

(** With [entry] 0, the aggressive cache on and a validated cache, the entry
    filter does not run: the guard is off and the run never announces the
    filtering. *)
Lemma entry_zero_agressive_no_filter :
  entry_guard (Sample.args (Some (Num 0)) true) (Some Sample.cache) = false
  ∧ ∃ w', run 20 (Sample.args (Some (Num 0)) true) Sample.cached_world = Ok tt w'
          ∧ Log "Entry module provided, filtering out unused modules" ∉ events w'.
Proof.
  split; [reflexivity|].
  eexists. split; [vm_compute; reflexivity|].
  simpl. rewrite !elem_of_cons. intros H.
  repeat (destruct H as [H|H]; [discriminate H|]). by apply elem_of_nil in H.
Qed.

Lemma entry_zero_cache_guard_witness :
  (∀ cacheFile (modules : list (option (ModuleT Sample.SampleAst))),
     entry_stage 20 (Sample.args (Some (Num 0)) false) cacheFile modules =
     filter_by_entry 20 false (Num 0) modules)
  ∧ (∃ w', world_of (run 20 (Sample.args (Some (Num 0)) false) Sample.world) = Some w'
           ∧ no_cache_write Sample.world w')
  ∧ (∃ w', run 20 (Sample.args (Some (Num 1)) false) Sample.world = Ok tt w'
           ∧ WriteCache "out/1.cache" ∈ events w').
Proof.
  split_and!.
  - intros cacheFile modules.
    apply (proj1 (proj1 (entry_zero_cache_guard 20 (Sample.args (Some (Num 0)) false)
                           Sample.world) eq_refl)).
    by left.
  - pose (r := run 20 (Sample.args (Some (Num 0)) false) Sample.world).
    assert (Hr : ∃ w', world_of r = Some w') by (vm_compute; eexists; reflexivity).
    destruct Hr as [w' Hr]. exists w'. split; [exact Hr|].
    exact (proj2 (proj1 (entry_zero_cache_guard 20 (Sample.args (Some (Num 0)) false)
                           Sample.world) eq_refl) w' Hr).
  - pose (r := run 20 (Sample.args (Some (Num 1)) false) Sample.world).
    assert (Hr : ∃ w', r = Ok tt w') by (vm_compute; eexists; reflexivity).
    destruct Hr as [w' Hr]. exists w'. split; [exact Hr|].
    apply (proj2 (entry_zero_cache_guard 20 (Sample.args (Some (Num 1)) false)
                    Sample.world) (Num 1) w' eq_refl); [discriminate|reflexivity|exact Hr].
Defined.

End OnTheSample.

(** * Further properties *)

(** ** The fingerprint *)

Lemma match_here_length (p : list atom) (s : jsstring) :
  match_here p s = true → length p ≤ length s.
Proof.
  revert s. induction p as [|a p IH]; intros [|c s]; simpl; try done; [lia|].
  intros [_ H%IH]%andb_true_iff. lia.
Qed.

Lemma regex_test_length (p : list atom) (s : jsstring) :
  regex_test p s = true → length p ≤ length s.
Proof.
  induction s as [|c s IH]; simpl; rewrite orb_true_iff.
  - by intros [?%match_here_length|?].
  - intros [H%match_here_length|H%IH]; simpl in *; lia.
Qed.

Section Fingerprint.

Context {Ast : Type}.

(** The fingerprint is not anchored: a module whose code contains a matching
    text anywhere is tagged. *)
Theorem evaluate_tags_any_occurrence (m : ModuleT Ast) (pre code post : jsstring) :
  originalCode m = pre ++ code ++ post →
  regex_test arraySpreadRegex code = true →
  evaluate m = tagAsNpmModule "@babel/runtime/helpers/toConsumableArray" m.
Proof.
  intros Hcode (pre' & mid & post' & -> & Hmid)%regex_test_spec.
  apply evaluate_match, regex_test_spec.
  exists (pre ++ pre'), mid, (post' ++ post). split; [|done].
  rewrite Hcode. by rewrite <-!app_assoc.
Qed.

(** The fingerprint has 99 positions: a module whose code is shorter is
    never tagged. *)
Theorem evaluate_skips_short_code (m : ModuleT Ast) :
  length (originalCode m) < 99 → evaluate m = m.
Proof.
  intros Hshort. unfold evaluate.
  destruct (regex_test arraySpreadRegex (originalCode m)) eqn:E; [|done].
  apply regex_test_length in E.
  change (length arraySpreadRegex) with 99 in E. lia.
Qed.

(** A line terminator where the fingerprint has a wildcard breaks the match:
    the tagger looks at 99 consecutive code units none of which is a line
    terminator. *)
Theorem evaluate_match_has_no_line_terminator (m : ModuleT Ast) :
  evaluate m ≠ m →
  ∃ pre mid post,
    originalCode m = pre ++ mid ++ post
    ∧ length mid = 99
    ∧ ∀ c, c ∈ mid → is_line_terminator c = false.
Proof.
  unfold evaluate.
  destruct (regex_test arraySpreadRegex (originalCode m)) eqn:E; [|done].
  intros _. apply regex_test_spec in E as (pre & mid & post & Hcode & Hmid).
  exists pre, mid, post. split_and!; [done| |].
  - apply Forall2_length in Hmid. by rewrite <-Hmid.
  - intros c Hc.
    assert (Hlits : Forall (λ a, match a with
                                 | Lit d => is_line_terminator d = false
                                 | Dot => True
                                 end) arraySpreadRegex)
      by (vm_compute; repeat constructor).
    apply list_elem_of_lookup in Hc as [i Hi].
    destruct (Forall2_lookup_r _ _ _ _ _ Hmid Hi) as (a & Ha & Hac).
    apply (Forall_lookup_1 _ _ _ _ Hlits) in Ha.
    destruct a as [d|]; simpl in Hac.
    + by apply N.eqb_eq in Hac as ->.
    + by apply negb_true_iff in Hac.
Qed.

End Fingerprint.

(** ** More on entry filtering *)

Section EntryFilter.

Context {Ast : Type}.

#[local] Abbreviation Modules := (list (option (ModuleT Ast))).

Implicit Types (modules : Modules) (s : list number) (x y : number).

Lemma has_moduleId_true x (m : ModuleT Ast) :
  has_moduleId x m = true ↔ x = id_number (moduleId m).
Proof.
  unfold has_moduleId, id_number. destruct x as [|z]; [done|].
  rewrite Z.eqb_eq. split; [by intros ->|by intros [= ->]].
Qed.

Lemma closure_inv_restart agressive modules entry_ k s :
  closure_inv agressive modules entry_ k s → closure_inv agressive modules entry_ 0 s.
Proof. intros [? ? ? ? ? ? ?]. split; try done; intros; lia. Qed.

(** Whatever the fuel, a set the worklist loop returns is closed. *)
Lemma closure_loop_sound agressive modules entry_ fuel last s :
  closure_inv agressive modules entry_ 0 s →
  (last = length s → closure_inv agressive modules entry_ (length s) s) →
  match closure_loop fuel agressive modules last s with
  | Visited s' => closure_inv agressive modules entry_ (length s') s'
  | Missing x =>
      agressive = false ∧ reachable modules entry_ x ∧ find_module modules x = None
  | NoFuel => True
  end.
Proof.
  revert last s. induction fuel as [|fuel IH]; intros last s H0 Hlast;
    cbn [closure_loop]; case_decide; [by apply Hlast|done|by apply Hlast|].
  pose proof (set_forEach_inv agressive modules entry_ (S fuel) 0 s H0) as H1.
  destruct (set_forEach (S fuel) agressive modules 0 s) as [s'| |]; [|done..].
  apply IH; [by eapply closure_inv_restart|done].
Qed.

Lemma entryModuleDependencies_sound agressive modules entry_ fuel s :
  entryModuleDependencies fuel agressive modules entry_ = Visited s →
  (∀ x, x ∈ s ↔ reachable modules entry_ x)
  ∧ (agressive = false → ∀ x, x ∈ s → is_Some (find_module modules x)).
Proof.
  unfold entryModuleDependencies. intros Hs.
  pose proof (closure_loop_sound agressive modules entry_ fuel 0 [entry_]
                (closure_inv_init _ _ _)) as Hinv.
  rewrite Hs in Hinv. specialize (Hinv ltac:(done)).
  split; [intros x; by eapply closure_inv_reachable|].
  intros Ha x [j Hj]%list_elem_of_lookup.
  apply (inv_found _ _ _ _ _ Hinv Ha j x); [|done]. by apply lookup_lt_Some in Hj.
Qed.

(** What a completed entry stage was: either no filtering, or the filtering
    by a closed set. *)
Lemma entry_stage_Ok fuel args cacheFile modules w modules' w' :
  entry_stage fuel args cacheFile modules w = Ok modules' w' →
  (entry_guard args cacheFile = false ∧ modules' = modules ∧ w' = w)
  ∨ ∃ E s,
      entry args = Some E ∧ entry_guard args cacheFile = true
      ∧ entryModuleDependencies fuel (agressiveCache args) modules E = Visited s
      ∧ modules' = delete_unused s modules
      ∧ w' = add_event (Log "Entry module provided, filtering out unused modules") w.
Proof.
  unfold entry_stage.
  destruct (entry args) as [E|] eqn:HE.
  - destruct (entry_guard args cacheFile) eqn:Hg; [|intros [= <- <-]; by left].
    unfold filter_by_entry, mbind, M_bind, console_log, emit.
    destruct (entryModuleDependencies fuel (agressiveCache args) modules E) as [s| |] eqn:Hs;
      [|done..].
    intros [= <- <-]. right. by exists E, s.
  - intros [= <- <-]. left. split; [|done]. unfold entry_guard. by rewrite HE.
Qed.

(** The entry filter keeps the length of [modules], turns slots into holes
    only, leaves the surviving modules as they were, and does not touch the
    files. *)
Theorem entry_stage_frame fuel args cacheFile modules w modules' w' :
  entry_stage fuel args cacheFile modules w = Ok modules' w' →
  length modules' = length modules
  ∧ (∀ i m, modules' !! i = Some (Some m) → modules !! i = Some (Some m))
  ∧ (∀ i, modules !! i = Some None → modules' !! i = Some None)
  ∧ files w' = files w.
Proof.
  intros [(_ & -> & ->)|(E & s & _ & _ & _ & -> & ->)]%entry_stage_Ok; [done|].
  split_and!; [apply length_delete_unused| | |done].
  - by intros i m [? _]%lookup_delete_unused.
  - intros i Hi. unfold delete_unused. by rewrite list_lookup_fmap, Hi.
Qed.

(** Without the aggressive cache, a completed entry stage has kept the entry
    module. *)
Theorem entry_module_survives fuel args cacheFile modules w modules' w' E :
  entry args = Some E → agressiveCache args = false →
  entry_stage fuel args cacheFile modules w = Ok modules' w' →
  ∃ i m, modules' !! i = Some (Some m) ∧ E = id_number (moduleId m).
Proof.
  intros HE Ha [(Hg & _)|(E' & s & HE' & _ & Hs & -> & _)]%entry_stage_Ok.
  - unfold entry_guard in Hg. by rewrite HE, Ha in Hg.
  - rewrite HE in HE'. injection HE' as <-. rewrite Ha in Hs.
    apply entryModuleDependencies_sound in Hs as [Hs Hfound].
    assert (HEs : E ∈ s) by (apply Hs, rtc_refl).
    destruct (Hfound eq_refl E HEs) as [m Hm].
    apply find_module_Some in Hm as [[i Hi]%elem_of_present Hid%has_moduleId_true].
    exists i, m. split; [|done]. apply lookup_delete_unused. split; [done|].
    by rewrite <-Hid.
Qed.

Lemma find_module_delete_unused s modules x :
  find_module (delete_unused s modules) x =
  if decide (x ∈ s) then find_module modules x else None.
Proof.
  induction modules as [|[m|] modules IH]; simpl.
  - by case_decide.
  - unfold set_has. destruct (has_moduleId x m) eqn:Hx.
    + apply has_moduleId_true in Hx as Hid. rewrite <-Hid.
      case_bool_decide; case_decide; try done. simpl. by rewrite Hx.
    + case_bool_decide; simpl; by rewrite ?Hx.
  - done.
Qed.

Lemma length_all_dependencies_delete_unused s modules :
  length (all_dependencies (delete_unused s modules))
  ≤ length (all_dependencies modules).
Proof.
  assert (Hcons : ∀ (m : ModuleT Ast) ms,
            all_dependencies (Some m :: ms)
            = (id_number <$> dependencies m) ++ all_dependencies ms) by done.
  assert (Hhole : ∀ ms : Modules, all_dependencies (None :: ms) = all_dependencies ms)
    by done.
  induction modules as [|[m|] modules IH]; [done| |].
  - cbn [delete_unused map]. fold (delete_unused s modules).
    destruct (set_has (id_number (moduleId m)) s);
      rewrite ?Hcons, ?Hhole, ?length_app; lia.
  - cbn [delete_unused map]. fold (delete_unused s modules). by rewrite !Hhole.
Qed.

(** Once the unreachable modules are gone, the same modules are reachable. *)
Lemma reachable_delete_unused s modules E x :
  (∀ y, y ∈ s ↔ reachable modules E y) →
  reachable (delete_unused s modules) E x ↔ reachable modules E x.
Proof.
  intros Hs. split.
  - apply rtc_subrel. intros a b (m & Hm & Hdep).
    rewrite find_module_delete_unused in Hm. case_decide; [|done]. by exists m.
  - revert x. apply rtc_ind_r; [apply rtc_refl|].
    intros y z Hy (m & Hm & Hdep) IH. eapply rtc_r; [done|].
    exists m. split; [|done].
    rewrite find_module_delete_unused, decide_True; [done|]. by apply Hs.
Qed.

Lemma delete_unused_twice s s' modules :
  (∀ x, x ∈ s → x ∈ s') →
  delete_unused s' (delete_unused s modules) = delete_unused s modules.
Proof.
  intros Hsub. unfold delete_unused. rewrite <-list_fmap_compose.
  apply list_fmap_ext. intros i [m|] _; simpl; [|done].
  unfold set_has. case_bool_decide as Hin; simpl; [|done].
  by rewrite bool_decide_eq_true_2 by by apply Hsub.
Qed.

(** Entry filtering is idempotent: on the graph it returns, the same stage
    completes and changes nothing (as when the filtered graph comes back from
    the cache). *)
Theorem entry_stage_idempotent fuel args cacheFile modules w modules' w' w2 :
  closure_fuel modules ≤ fuel →
  entry_stage fuel args cacheFile modules w = Ok modules' w' →
  ∃ w3, entry_stage fuel args cacheFile modules' w2 = Ok modules' w3.
Proof.
  intros Hfuel [(Hg & -> & _)|(E & s & HE & Hg & Hs & -> & _)]%entry_stage_Ok.
  - exists w2. unfold entry_stage. rewrite Hg. by destruct (entry args).
  - apply entryModuleDependencies_sound in Hs as [Hs Hfound].
    pose proof (λ x, reachable_delete_unused s modules E x Hs) as Hreach.
    pose proof (length_all_dependencies_delete_unused s modules) as Hlen.
    pose proof (entryModuleDependencies_spec (agressiveCache args)
                  (delete_unused s modules) E fuel) as Hspec.
    unfold entry_stage, filter_by_entry, mbind, M_bind, console_log, emit.
    rewrite HE, Hg.
    destruct (entryModuleDependencies fuel (agressiveCache args)
                (delete_unused s modules) E) as [s'|x|].
    + destruct Hspec as [Hs' _]; [unfold closure_fuel in *; lia|].
      eexists. f_equal. apply delete_unused_twice.
      intros x Hx. by apply Hs', Hreach, Hs.
    + destruct Hspec as (Ha & Hx & Hnone); [unfold closure_fuel in *; lia|].
      apply Hreach, Hs in Hx as Hxs.
      rewrite find_module_delete_unused, decide_True in Hnone by done.
      destruct (Hfound Ha x Hxs) as [m Hm]. congruence.
    + destruct Hspec. unfold closure_fuel in *. lia.
Qed.

End EntryFilter.

(** ** More on ignore propagation *)

Section Propagation.

Context {Ast : Type}.

#[local] Abbreviation Modules := (list (option (ModuleT Ast))).

Implicit Types (modules : Modules) (m o : ModuleT Ast).

Lemma ignore_propagation_agressive_noop_aux fuel modules :
  ignore_propagation fuel true modules = Some modules.
Proof. unfold ignore_propagation, calculateModulesToIgnore. by destruct fuel. Qed.

(** The loop stops only on a graph in which nothing is left to mark. *)
Lemma ignore_loop_fixed fuel modules modules' :
  ignore_loop fuel false modules (array_filter (to_ignore modules) modules) = Some modules' →
  array_filter (to_ignore modules') modules' = [].
Proof.
  revert modules. induction fuel as [|fuel IH]; intros modules;
    destruct (array_filter (to_ignore modules) modules) as [|t l] eqn:E;
    cbn [ignore_loop]; try done; try by intros [= <-].
  unfold calculateModulesToIgnore. apply IH.
Qed.

(** Ignore propagation is idempotent: on its own result it marks nothing,
    whatever the fuel. *)
Theorem ignore_propagation_idempotent fuel fuel' agressive modules modules' :
  ignore_propagation fuel agressive modules = Some modules' →
  ignore_propagation fuel' agressive modules' = Some modules'.
Proof.
  destruct agressive.
  - intros _. unfold ignore_propagation, calculateModulesToIgnore. by destruct fuel'.
  - unfold ignore_propagation, calculateModulesToIgnore.
    intros ->%ignore_loop_fixed. by destruct fuel'.
Qed.

Lemma more_ignored_present modules modules' o' :
  more_ignored modules modules' → o' ∈ present modules' →
  ∃ o, o ∈ present modules ∧ (o' = o ∨ o' = set_ignored true o).
Proof.
  intros Hmore [i Hi]%elem_of_present.
  destruct (Forall2_lookup_r _ _ _ _ _ Hmore Hi) as (slot & Hslot & Hrel).
  inversion Hrel as [o ? Ho|]; subst. exists o. split; [|done].
  apply elem_of_present. eauto.
Qed.

Lemma more_ignored_present_l modules modules' o :
  more_ignored modules modules' → o ∈ present modules →
  ∃ o', o' ∈ present modules' ∧ (o' = o ∨ o' = set_ignored true o).
Proof.
  intros Hmore [i Hi]%elem_of_present.
  destruct (more_ignored_lookup _ _ _ _ Hmore Hi) as (o' & Ho' & Hrel).
  exists o'. split; [|done]. apply elem_of_present. eauto.
Qed.

(** The reason a module is ignored for stays true while more modules get
    ignored. *)
Lemma ignorable_persists modules modules' m :
  more_ignored modules modules' → ignorable modules m →
  (∃ o, o ∈ present modules' ∧ moduleId m ∈ dependencies o)
  ∧ (∀ o, o ∈ present modules' → moduleId m ∈ dependencies o →
          ignored o = true ∨ moduleId o ∈ dependencies m).
Proof.
  intros Hmore (_ & (o & Ho & Hdep) & Hall). split.
  - destruct (more_ignored_present_l _ _ _ Hmore Ho) as (o' & Ho' & Hrel).
    exists o'. split; [done|]. by destruct Hrel as [->| ->].
  - intros o' Ho' Hdep'.
    destruct (more_ignored_present _ _ _ Hmore Ho') as (o0 & Ho0 & [->| ->]).
    + by apply Hall.
    + by left.
Qed.

Lemma ignore_loop_justified fuel modules modules' i m m' :
  ignore_loop fuel false modules (array_filter (to_ignore modules) modules) = Some modules' →
  modules !! i = Some (Some m) → ignored m = false →
  modules' !! i = Some (Some m') → ignored m' = true →
  m' = set_ignored true m
  ∧ (∃ o, o ∈ present modules' ∧ moduleId m ∈ dependencies o)
  ∧ (∀ o, o ∈ present modules' → moduleId m ∈ dependencies o →
          ignored o = true ∨ moduleId o ∈ dependencies m).
Proof.
  revert modules. induction fuel as [|fuel IH]; intros modules;
    destruct (array_filter (to_ignore modules) modules) as [|t l] eqn:E;
    cbn [ignore_loop]; try done;
    try (intros [= <-] Hm Hi Hm' Hi'; rewrite Hm in Hm'; congruence).
  unfold calculateModulesToIgnore. intros Hloop Hm Hi Hm' Hi'.
  pose proof (ignore_loop_more _ _ _ _ _ Hloop) as Hmore.
  destruct (decide (i ∈ t :: l)) as [Hin|Hout].
  - rewrite <-E in Hin. apply elem_of_array_filter in Hin as (m0 & Hm0 & Hign).
    rewrite Hm in Hm0. injection Hm0 as <-. apply to_ignore_spec in Hign.
    assert (Hmarked : mark_ignored (t :: l) modules !! i = Some (Some (set_ignored true m))).
    { rewrite lookup_mark_ignored, Hm. simpl. rewrite decide_True; [done|].
      rewrite <-E. apply elem_of_array_filter. exists m. split; [done|].
      by apply to_ignore_spec. }
    destruct (more_ignored_lookup _ _ _ _ Hmore Hmarked) as (m1 & Hm1 & Hrel).
    rewrite Hm' in Hm1. injection Hm1 as <-.
    split; [by destruct Hrel as [->| ->]|].
    apply (ignorable_persists modules); [|done].
    eapply more_ignored_trans; [apply mark_ignored_more|done].
  - assert (Hkept : mark_ignored (t :: l) modules !! i = Some (Some m)).
    { rewrite lookup_mark_ignored, Hm. simpl. by rewrite decide_False. }
    by apply (IH _ Hloop).
Qed.

(** Propagation ignores a module only for a reason that holds in its result:
    a module it has marked has a reverse dependent, and each of its reverse
    dependents ends up ignored or is one of its own dependencies.  Nothing but
    the flag of the module changes. *)
Theorem ignore_propagation_justified fuel agressive modules modules' i m m' :
  ignore_propagation fuel agressive modules = Some modules' →
  modules !! i = Some (Some m) → ignored m = false →
  modules' !! i = Some (Some m') → ignored m' = true →
  agressive = false
  ∧ m' = set_ignored true m
  ∧ (∃ o, o ∈ present modules' ∧ moduleId m ∈ dependencies o)
  ∧ (∀ o, o ∈ present modules' → moduleId m ∈ dependencies o →
          ignored o = true ∨ moduleId o ∈ dependencies m).
Proof.
  destruct agressive.
  - rewrite ignore_propagation_agressive_noop_aux.
    intros [= <-] Hm Hi Hm' Hi'. rewrite Hm in Hm'. congruence.
  - intros Hloop Hm Hi Hm' Hi'. split; [done|].
    by eapply ignore_loop_justified.
Qed.

(** A module that no module of the graph depends on (the entry point, for
    one) is never ignored by the propagation. *)
Theorem ignore_propagation_keeps_roots fuel agressive modules modules' i m :
  ignore_propagation fuel agressive modules = Some modules' →
  modules !! i = Some (Some m) →
  (∀ o, o ∈ present modules → moduleId m ∉ dependencies o) →
  modules' !! i = Some (Some m).
Proof.
  intros Hloop Hm Hroot.
  pose proof (ignore_loop_more _ _ _ _ _ Hloop) as Hmore.
  destruct (more_ignored_lookup _ _ _ _ Hmore Hm) as (m' & Hm' & [->| ->]); [done|].
  destruct (ignored m) eqn:Hi.
  { rewrite Hm'. do 2 f_equal. destruct m; simpl in *; by subst. }
  destruct agressive.
  - rewrite ignore_propagation_agressive_noop_aux in Hloop. by injection Hloop as <-.
  - destruct (ignore_loop_justified _ _ _ _ _ _ Hloop Hm Hi Hm' eq_refl)
      as (_ & (o' & Ho' & Hdep) & _).
    destruct (more_ignored_present _ _ _ Hmore Ho') as (o & Ho & [->| ->]);
      by destruct (Hroot o Ho).
Qed.

End Propagation.

(** ** More on the enumeration of the modules *)

Section Enumeration.

Context {Ast : Type} `{!Collaborators Ast}.

#[local] Abbreviation Modules := (list (option (ModuleT Ast))).

Implicit Types (modules : Modules) (m : ModuleT Ast).

Lemma length_array_set_max {A} (a : list (option A)) (i : nat) (x : A) :
  length (array_set a i x) = length a `max` S i.
Proof.
  unfold array_set. case_decide.
  - rewrite length_insert. lia.
  - rewrite !length_app, length_replicate. simpl. lia.
Qed.

Lemma lookup_registrations {R} (f : R → ModuleT Ast) (regs : list R) modules i m :
  foldl (λ modules r, register modules (f r)) modules regs !! i = Some (Some m) ↔
  (∃ r, last_with_id (λ r, moduleId (f r)) i regs = Some r ∧ m = f r)
  ∨ (last_with_id (λ r, moduleId (f r)) i regs = None ∧ modules !! i = Some (Some m)).
Proof.
  revert modules. induction regs as [|r regs IH]; intros modules; simpl.
  - split; [by right|]. by intros [(r & ? & _)|[_ ?]].
  - rewrite IH.
    destruct (last_with_id (λ r, moduleId (f r)) i regs) as [r'|] eqn:Hlast.
    + split; (intros [?|[? _]]; [by left|done]).
    + unfold register.
      destruct (lookup_array_set modules (moduleId (f r)) (f r) i)
        as [[Hi ->]|[Hne [Hi|[Hnone Hi]]]]; rewrite Hi.
      * rewrite decide_True by done. split.
        -- intros [(? & ? & _)|[_ [= <-]]]; [done|]. left. by exists r.
        -- intros [(? & [= <-] & ->)|[? _]]; [|done]. by right.
      * rewrite decide_False by done. split; (intros [(? & ? & _)|?]; [done|by right]).
      * rewrite decide_False by done. rewrite Hnone.
        split; (intros [(? & ? & _)|[_ ?]]; done).
Qed.

Lemma length_registrations {R} (f : R → ModuleT Ast) (regs : list R) modules i :
  i < length (foldl (λ modules r, register modules (f r)) modules regs) ↔
  i < length modules ∨ ∃ r, r ∈ regs ∧ i ≤ moduleId (f r).
Proof.
  revert modules. induction regs as [|r regs IH]; intros modules; simpl.
  - split; [by left|]. by intros [?|(r & ?%elem_of_nil & _)].
  - rewrite IH. unfold register. rewrite length_array_set_max. split.
    + intros [Hi|(r' & Hr' & Hi)].
      * destruct (decide (i < length modules)); [by left|].
        right. exists r. split; [left|lia].
      * right. exists r'. split; [by right|done].
    + intros [Hi|(r' & [->|Hr']%elem_of_cons & Hi)].
      * left. lia.
      * left. lia.
      * right. by exists r'.
Qed.

(** The enumeration of a bundle: the module of a [moduleId] is the one of the
    last [__d] call with that [moduleId] (a later registration overwrites an
    earlier one) and every module sits in the slot of its [moduleId]; when the
    [moduleId]s are array indices, the array reaches up to the largest of
    them, the slots of the others being holes. *)
Theorem enumeration_last_wins (inputJsFile : jsstring) w modules w' :
  parse_bundle inputJsFile w = Ok modules w' →
  ∃ originalFile,
    babylon_parse inputJsFile = Some originalFile
    ∧ (∀ i m, modules !! i = Some (Some m) ↔
              ∃ r, last_with_id reg_moduleId i (d_calls originalFile) = Some r
                   ∧ m = new_Module r)
    ∧ ((∀ r, r ∈ d_calls originalFile → array_index (reg_moduleId r)) →
       ∀ i, i < length modules ↔
            ∃ r, r ∈ d_calls originalFile ∧ i ≤ reg_moduleId r)
    ∧ well_indexed modules.
Proof.
  unfold parse_bundle, mbind, M_bind, console_log, emit.
  destruct (babylon_parse inputJsFile) as [originalFile|]; [|done].
  intros [= <- _]. exists originalFile. split_and!; [done| | |].
  - intros i m. rewrite lookup_registrations. split.
    + intros [?|[_ ?]]; done.
    + by left.
  - intros _ i. rewrite length_registrations. simpl. split.
    + intros [?|?]; [lia|done].
    + by right.
  - apply well_indexed_registrations. by intros i m.
Qed.

Lemma validCachedModules_all (cf : CachedFile) :
  validCachedModules false cf = cached_modules cf.
Proof.
  unfold validCachedModules.
  induction (cached_modules cf) as [|c l IH]; [done|]. simpl in *. by rewrite IH.
Qed.

(** Without the aggressive cache every cached record is loaded from its own
    code: the graph holds a module exactly at the [moduleId]s of the cached
    records (the parser finding in each text the one [__d] call of the
    record). *)
Theorem cache_load_registers_all (cf : CachedFile) w :
  (∀ c, c ∈ cached_modules cf →
     ∃ originalFile,
       babylon_parse (cached_originalCode c) = Some originalFile
       ∧ reg_moduleId <$> d_calls originalFile = [cached_moduleId c]) →
  ∃ modules w',
    load_from_cache false cf w = Ok modules w'
    ∧ ∀ i, (∃ m, modules !! i = Some (Some m)) ↔
           ∃ c, c ∈ cached_modules cf ∧ cached_moduleId c = i.
Proof.
  intros Hparse. unfold load_from_cache.
  rewrite validCachedModules_all.
  destruct (load_cached_modules_holds false (cached_modules cf) []
              (add_event (Log "Loading cache...") w)) as (modules & Hrun & Hholds).
  { intros c Hc. rewrite source_of_cached_original by by left. by apply Hparse. }
  exists modules, (add_event (Log "Loading cache...") w). split.
  - unfold mbind, M_bind, console_log, emit. exact Hrun.
  - intros i. rewrite Hholds. split; [|by right].
    intros [[m Hm]|?]; [by rewrite lookup_nil in Hm|done].
Qed.

(** The files that are generated are those of the modules that are not
    ignored when the decompiling starts (of all modules with
    [decompileIgnored]), one file per module. *)
Theorem generated_files_of_live_modules args modules modules' generatedFiles :
  well_indexed modules' →
  generate (nonIgnoredModules args modules) modules' = Some generatedFiles →
  NoDup generatedFiles.*1
  ∧ ∀ name, name ∈ generatedFiles.*1 ↔
            ∃ m, modules !! name = Some (Some m)
                 ∧ (decompileIgnored args = true ∨ ignored m = false).
Proof.
  intros Hwi Hgen. rewrite (generate_names _ _ _ Hwi Hgen).
  split; [apply array_filter_NoDup|]. intros name.
  unfold nonIgnoredModules. rewrite elem_of_array_filter.
  split; intros (m & Hm & Hflag); exists m; (split; [done|]).
  - apply orb_true_iff in Hflag as [?|?%negb_true_iff]; auto.
  - apply orb_true_iff. destruct Hflag as [?| ->]; auto.
Qed.

End Enumeration.

(** ** More on saving *)

Section SavingAgain.

Implicit Types (out : option string) (w : World)
  (generatedFiles : list (nat * jsstring)).

(** Saving is idempotent: saving the same files again leaves the world as it
    is, without a single write. *)
Theorem save_files_idempotent out generatedFiles w w' :
  NoDup generatedFiles.*1 →
  (∀ file, file ∈ generatedFiles → dirs w !! output_path out file.1 = None) →
  save_files out generatedFiles w = Ok tt w' →
  save_files out generatedFiles w' = Ok tt w'.
Proof.
  intros Hnd Hdirs Hrun.
  destruct (save_files_inv out generatedFiles w Hnd Hdirs)
    as (w1 & written & Hrun1 & _ & Hdir1 & _ & _ & Hpost & _).
  rewrite Hrun in Hrun1. injection Hrun1 as <-.
  destruct (save_files_inv out generatedFiles w' Hnd)
    as (w2 & written2 & Hrun2 & Hev2 & Hdir2 & Hall2 & _ & Hpost2 & Hframe2).
  { intros file Hin. rewrite Hdir1. by apply Hdirs. }
  rewrite Hrun2. f_equal.
  assert (written2 = []) as ->.
  { destruct written2 as [|e l]; [done|].
    destruct (Hall2 e) as (name & code & Hin & _ & Hne); [left|].
    by destruct Hne, (Hpost name code). }
  rewrite app_nil_r in Hev2.
  assert (Hfiles : files w2 = files w').
  { apply map_eq. intros path.
    destruct (decide (path ∈ output_path out <$> generatedFiles.*1)) as [Hin|Hnone].
    - apply list_elem_of_fmap in Hin as (name & -> & Hin).
      apply list_elem_of_fmap in Hin as ([name' code] & -> & Hin).
      simpl. by rewrite (Hpost2 name' code), (Hpost name' code).
    - apply Hframe2. intros name Hin ->. apply Hnone.
      apply list_elem_of_fmap. by exists name. }
  destruct w2, w'. simpl in *. by subst.
Qed.

End SavingAgain.

(** ** The cache file and the output files *)

Lemma last_list_ascii_app (s : string) (c : ascii) (t : string) :
  last (String.list_ascii_of_string (s +:+ t +:+ String c ""))
  = Some c.
Proof.
  rewrite !list_ascii_of_string_app. simpl. by rewrite !app_assoc, last_snoc.
Qed.

Lemma cache_path_not_output (args : CmdArgs) (name : nat) :
  cacheFileName args ≠ output_path (arg_out args) name.
Proof.
  unfold cacheFileName, output_path. intros H.
  do 2 apply String.app_inj in H.
  apply (f_equal (λ s, last (String.list_ascii_of_string s))) in H.
  change ".cache" with (".cach" +:+ String "e" "") in H.
  change ".js" with (".j" +:+ String "s" "") in H.
  by rewrite !last_list_ascii_app in H.
Qed.

(** The cache file is never one of the output files: a path ends in
    [.cache] or in [.js], not both. *)
Theorem cacheFileName_not_output (args : CmdArgs) (name : nat) :
  cacheFileName args ≠ output_path (arg_out args) name.
Proof. apply cache_path_not_output. Qed.

(** ** What a run does to the files *)

Section Confined.

Context (P : Event → Prop).

Lemma extends_by_refl (w : World) : extends_by P w w.
Proof.
  exists []. split_and!; [by rewrite app_nil_r|constructor|done].
Qed.

Lemma extends_by_trans (w1 w2 w3 : World) :
  extends_by P w1 w2 → extends_by P w2 w3 → extends_by P w1 w3.
Proof.
  intros (evs1 & Hev1 & HP1 & Hf1) (evs2 & Hev2 & HP2 & Hf2).
  exists (evs1 ++ evs2). split_and!.
  - by rewrite Hev2, Hev1, app_assoc.
  - by apply Forall_app.
  - intros path (Hw & Hr & Hc). rewrite Hf2, Hf1; [done| |].
    + split_and!; [intros content Hin; apply (Hw content)|intros Hin; apply Hr
                   |intros Hin; apply Hc]; apply elem_of_app; by left.
    + split_and!; [intros content Hin; apply (Hw content)|intros Hin; apply Hr
                   |intros Hin; apply Hc]; apply elem_of_app; by right.
Qed.

Lemma confined_ret {A} (a : A) : confined P (mret a : M A).
Proof. intros w w' [= <-]. apply extends_by_refl. Qed.

Lemma confined_bind {A B} (c : M A) (k : A → M B) :
  confined P c → (∀ a, confined P (k a)) → confined P (c ≫= k).
Proof.
  intros Hc Hk w w'. unfold mbind, M_bind.
  destruct (c w) as [a w1|code w1|err w1|] eqn:E; simpl.
  - intros Hw'. eapply extends_by_trans; [|by apply (Hk a)].
    apply Hc. by rewrite E.
  - intros [= <-]. apply Hc. by rewrite E.
  - intros [= <-]. apply Hc. by rewrite E.
  - done.
Qed.

Lemma confined_pure {A} (c : M A) :
  (∀ w w', world_of (c w) = Some w' → w' = w) → confined P c.
Proof. intros Hc w w' ->%Hc. apply extends_by_refl. Qed.

Lemma confined_log (e : Event) :
  P e → (∀ path content, e ≠ WriteFile path content) →
  (∀ path, e ≠ RemoveFile path) → (∀ path, e ≠ WriteCache path) →
  confined P (emit e).
Proof.
  intros He _ _ _ w w' [= <-]. exists [e]. split_and!; [done|by constructor|done].
Qed.

Lemma confined_console_log msg : P (Log msg) → confined P (console_log msg).
Proof. intros. by apply confined_log. Qed.

Lemma confined_console_error msg : P (LogError msg) → confined P (console_error msg).
Proof. intros. by apply confined_log. Qed.

Lemma confined_process_exit {A} code : confined P (process_exit code : M A).
Proof. apply confined_pure. by intros w w' [= <-]. Qed.

Lemma confined_throw {A} err : confined P (throw err : M A).
Proof. apply confined_pure. by intros w w' [= <-]. Qed.

Lemma confined_out_of_fuel {A} : confined P (out_of_fuel : M A).
Proof. by intros w w'. Qed.

Lemma confined_lift_throw {A} err (o : option A) : confined P (lift_throw err o).
Proof. destruct o; [apply confined_ret|apply confined_throw]. Qed.

Lemma confined_existsSync path : confined P (existsSync path).
Proof. apply confined_pure. by intros w w' [= <-]. Qed.

Lemma confined_readFileSync path : confined P (readFileSync path).
Proof.
  apply confined_pure. intros w w'. unfold readFileSync.
  by destruct (files w !! path); intros [= <-].
Qed.

Lemma confined_readdirSync path : confined P (readdirSync path).
Proof.
  apply confined_pure. intros w w'. unfold readdirSync.
  by destruct (dirs w !! path); intros [= <-].
Qed.

Lemma confined_ensureDirSync path : confined P (ensureDirSync path).
Proof.
  intros w w'. unfold ensureDirSync.
  destruct (files w !! path), (dirs w !! path); intros [= <-];
    try apply extends_by_refl.
  exists []. split_and!; [by rewrite app_nil_r|constructor|done].
Qed.

Lemma confined_writeFileSync path content :
  P (WriteFile path content) → confined P (writeFileSync path content).
Proof.
  intros HP w w' [= <-]. exists [WriteFile path content].
  split_and!; [done|by constructor|].
  intros p (Hw & _ & _). simpl. apply lookup_insert_ne. intros <-.
  apply (Hw content). left.
Qed.

Lemma confined_removeSync path : P (RemoveFile path) → confined P (removeSync path).
Proof.
  intros HP w w' [= <-]. exists [RemoveFile path].
  split_and!; [done|by constructor|].
  intros p (_ & Hr & _). simpl. apply lookup_delete_ne. intros <-.
  apply Hr. left.
Qed.

Lemma confined_mapM {A B} (f : A → M B) (l : list A) :
  (∀ x, confined P (f x)) → confined P (mapM f l).
Proof.
  intros Hf. induction l as [|x l IH]; simpl; [apply confined_ret|].
  apply confined_bind; [done|]. intros y.
  apply confined_bind; [done|]. intros ys. apply confined_ret.
Qed.

Lemma confined_forEachM {A} (f : A → M unit) (l : list A) :
  (∀ x, confined P (f x)) → confined P (forEachM f l).
Proof.
  intros Hf. induction l as [|x l IH]; simpl; [apply confined_ret|].
  by apply confined_bind.
Qed.

Lemma confined_foldlM {A B} (f : B → A → M B) (l : list A) (b : B) :
  (∀ b x, confined P (f b x)) → confined P (foldlM f b l).
Proof.
  intros Hf. revert b. induction l as [|x l IH]; intros b; simpl; [apply confined_ret|].
  by apply confined_bind.
Qed.

End Confined.

Create HintDb confined.

#[local] Hint Resolve confined_ret confined_process_exit confined_throw
  confined_out_of_fuel confined_lift_throw confined_existsSync
  confined_readFileSync confined_readdirSync confined_ensureDirSync : confined.

#[local] Hint Extern 1 (confined _ (console_log _)) =>
  apply confined_console_log; exact I : confined.
#[local] Hint Extern 1 (confined _ (console_error _)) =>
  apply confined_console_error; exact I : confined.

Ltac confine :=
  repeat first
    [ solve [eauto with confined]
    | apply confined_bind; [|intros ?]
    | apply confined_mapM; intros ?
    | apply confined_forEachM; intros ?
    | apply confined_foldlM; intros ? ?
    | match goal with
      | |- confined _ (if ?b then _ else _) => destruct b
      | |- confined _ (match ?x with _ => _ end) => destruct x
      end ].

Section RunFiles.

Context {Ast : Type} `{!Collaborators Ast}.

#[local] Abbreviation Modules := (list (option (ModuleT Ast))).

Implicit Types (modules : Modules) (args : CmdArgs) (w : World).

Lemma confined_enumerate_modules args :
  confined (allowed_event args) (enumerate_modules args).
Proof.
  assert (confined (allowed_event args) (removeSync (cacheFileName args)))
    by by apply confined_removeSync.
  unfold enumerate_modules, read_input, load_modules, read_cache_file,
    validate_cache, build_modules, load_from_cache, load_cached_module, parse_bundle.
  confine.
Qed.

Lemma confined_entry_stage fuel args cacheFile modules :
  confined (allowed_event args) (entry_stage fuel args cacheFile modules).
Proof. unfold entry_stage, filter_by_entry. confine. Qed.

Lemma confined_save_files args generatedFiles :
  confined (allowed_event args) (save_files (arg_out args) generatedFiles).
Proof.
  assert (∀ file : nat * jsstring,
            confined (allowed_event args)
              (writeFileSync (output_path (arg_out args) file.1) file.2)).
  { intros file. apply confined_writeFileSync. simpl. by exists file.1. }
  unfold save_files, save_file. confine.
Qed.

Lemma confined_writeCache args inputJsFile modules :
  confined (allowed_event args) (writeCache inputJsFile (cacheFileName args) modules).
Proof.
  intros w w' [= <-]. exists [WriteCache (cacheFileName args)].
  split_and!; [done|by constructor|].
  intros p (_ & _ & Hc). simpl. apply lookup_insert_ne. intros <-.
  apply Hc. left.
Qed.

Lemma confined_process_modules fuel args inputJsFile cacheFile modules :
  confined (allowed_event args)
    (process_modules fuel args inputJsFile cacheFile modules).
Proof.
  unfold process_modules, check_modules, cache_stage, eslint_stage.
  pose proof confined_entry_stage. pose proof confined_save_files.
  pose proof confined_writeCache.
  confine.
Qed.

(** A run, however it ends, writes only files named [<out>/<moduleId>.js]
    and the cache file, and removes only the cache file: every other file is
    as it was (the bundle, for one). *)
Theorem run_touches_only_its_files fuel args w w' :
  world_of (run fuel args w) = Some w' →
  (∃ evs, events w' = events w ++ evs ∧ Forall (allowed_event args) evs)
  ∧ ∀ path,
      (∀ name, path ≠ output_path (arg_out args) name) →
      path ≠ cacheFileName args →
      files w' !! path = files w !! path.
Proof.
  assert (Hrun : confined (allowed_event args) (run fuel args)).
  { unfold run.
    pose proof confined_enumerate_modules. pose proof (confined_process_modules fuel args).
    assert (confined (allowed_event args) (emit Usage)) by by apply confined_log.
    confine. }
  intros (evs & Hev & HP & Hfiles)%Hrun. split; [by exists evs|].
  intros path Hout Hcache. apply Hfiles.
  rewrite Forall_forall in HP.
  split_and!.
  - intros content [name ->]%HP. by destruct (Hout name).
  - by intros ?%HP.
  - by intros ?%HP.
Qed.

End RunFiles.

(** ** More on the cache *)

Section CacheAgain.

Context {Ast : Type} `{!Collaborators Ast}.

#[local] Abbreviation Modules := (list (option (ModuleT Ast))).

Implicit Types (modules : Modules) (args : CmdArgs) (w : World).

(** A run that completes has written the cache file exactly when [entry] is
    truthy and the aggressive cache is off. *)
Theorem cache_written_iff_guard fuel args w w' :
  run fuel args w = Ok tt w' →
  (∀ path, WriteCache path ∉ events w) →
  WriteCache (cacheFileName args) ∈ events w' ↔ cache_guard args = true.
Proof.
  intros Hrun Hfresh. split.
  - intros Hwritten. destruct (cache_guard args) eqn:Hguard; [done|].
    destruct (Hfresh (cacheFileName args)).
    apply (run_cache_silent fuel args Hguard w w w'); [by intros ? ?| |done].
    by rewrite Hrun.
  - intros Hguard. unfold run in Hrun.
    destruct (negb (truthy_string (arg_in args)) || negb (truthy_string (arg_out args)));
      [done|].
    apply bind_Ok_inv in Hrun as ([[inputJsFile cacheFile] modules] & w1 & _ & Hrun).
    unfold process_modules in Hrun.
    repeat match type of Hrun with
           | (_ ≫= _) _ = Ok _ _ =>
               let H := fresh "Hstage" in
               apply bind_Ok_inv in Hrun as (? & ? & H & Hrun); cbv beta in Hrun
           end.
    eapply eslint_stage_events; [exact Hrun|].
    match goal with
    | H : cache_stage _ _ _ _ = Ok ?u _ |- _ =>
        destruct u; by eapply cache_stage_writes
    end.
Qed.

(** The aggressive cache needs a cache file: without one the run stops with
    exit code 1 as soon as the bundle has been read, before anything is
    parsed or written. *)
Theorem agressive_run_needs_cache fuel args w (content : jsstring)
    (listing : list string) :
  truthy_string (arg_in args) = true →
  truthy_string (arg_out args) = true →
  agressiveCache args = true →
  files w !! template_string (arg_in args) = Some content →
  files w !! template_string (arg_out args) = None →
  dirs w !! template_string (arg_out args) = Some listing →
  files w !! bundlesFolder args = None → dirs w !! bundlesFolder args = None →
  files w !! cacheFileName args = None → dirs w !! cacheFileName args = None →
  run fuel args w =
  Exit 1 (add_event
            (LogError "A cache file must be generated first before using the agressive cache")
            (add_event (Log "Reading file...") w)).
Proof.
  intros Hin Hout Ha Hfile Hnofile Hdir Hbf Hbd Hcf Hcd.
  unfold run. rewrite Hin, Hout. simpl.
  unfold enumerate_modules.
  assert (Hensure : ensureDirSync (template_string (arg_out args)) w = Ok tt w)
    by (unfold ensureDirSync; by rewrite Hnofile, Hdir).
  set (w1 := add_event (Log "Reading file...") w).
  assert (Hread : read_input args w1 = Ok content w1).
  { unfold read_input.
    rewrite (bind_Ok _ _ _ _ _ (readFileSync_file _ w1 _ Hfile)).
    by rewrite (bind_Ok _ _ _ _ _ (existsSync_absent _ w1 Hbf Hbd)). }
  assert (Hload : load_modules args content w1 =
                  Exit 1 (add_event
                    (LogError "A cache file must be generated first before using the agressive cache")
                    w1)).
  { unfold load_modules, read_cache_file.
    rewrite (bind_Ok _ _ w1 w1 None);
      [|by rewrite (bind_Ok _ _ _ _ _ (existsSync_absent _ w1 Hcf Hcd))].
    unfold validate_cache. by rewrite Ha. }
  unfold mbind at 1, M_bind at 1.
  unfold mbind at 1, M_bind at 1. rewrite Hensure.
  unfold mbind at 1, M_bind at 1. unfold console_log at 1, emit at 1. fold w1.
  unfold mbind at 1, M_bind at 1. rewrite Hread.
  unfold mbind at 1, M_bind at 1. by rewrite Hload.
Qed.

End CacheAgain.

(** ** Output is written at the end only *)

Lemma confined_keeps_written_when_saving {A} (c : M A) :
  confined no_write c → keeps_written_when_saving c.
Proof.
  intros Hc w w' Hinv (evs & Hev & HP & _)%Hc path content.
  rewrite Hev, !elem_of_app. intros [Hin|Hin]; [left; by eapply Hinv|].
  rewrite Forall_forall in HP. by apply HP in Hin.
Qed.

Lemma keeps_written_when_saving_bind {A B} (c : M A) (k : A → M B) :
  keeps_written_when_saving c → (∀ a, keeps_written_when_saving (k a)) →
  keeps_written_when_saving (c ≫= k).
Proof.
  intros Hc Hk w w' Hinv. unfold mbind, M_bind.
  destruct (c w) as [a w1|code w1|err w1|] eqn:E; simpl.
  - apply (Hk a). apply (Hc w w1 Hinv). by rewrite E.
  - intros [= <-]. apply (Hc w w1 Hinv). by rewrite E.
  - intros [= <-]. apply (Hc w w1 Hinv). by rewrite E.
  - done.
Qed.

(** Once the saving stage is announced, anything may follow. *)
Lemma keeps_written_when_saving_after {A} (P : Event → Prop) (c : M A) :
  confined P c →
  keeps_written_when_saving (console_log "Saving..." ≫= λ _, c).
Proof.
  intros Hc w w' _. unfold mbind, M_bind, console_log, emit.
  intros (evs & Hev & _)%Hc path content _. rewrite Hev. simpl.
  apply elem_of_app. left. apply elem_of_app. right. left.
Qed.

Section WrittenAtTheEnd.

Context {Ast : Type} `{!Collaborators Ast}.

#[local] Abbreviation Modules := (list (option (ModuleT Ast))).

Implicit Types (modules : Modules) (args : CmdArgs) (w : World).

Lemma enumerate_modules_no_write args : confined no_write (enumerate_modules args).
Proof.
  assert (confined no_write (removeSync (cacheFileName args)))
    by by apply confined_removeSync.
  unfold enumerate_modules, read_input, load_modules, read_cache_file,
    validate_cache, build_modules, load_from_cache, load_cached_module, parse_bundle.
  confine.
Qed.

Lemma entry_stage_no_write fuel args cacheFile modules :
  confined no_write (entry_stage fuel args cacheFile modules).
Proof. unfold entry_stage, filter_by_entry. confine. Qed.

Lemma check_modules_no_write modules : confined no_write (check_modules modules).
Proof. unfold check_modules. confine. Qed.

Lemma saving_confined args inputJsFile modules generatedFiles :
  confined (allowed_event args)
    (save_files (arg_out args) generatedFiles;;
     cache_stage args inputJsFile modules;; eslint_stage args).
Proof.
  unfold cache_stage, eslint_stage.
  pose proof confined_save_files. pose proof confined_writeCache.
  confine.
Qed.

(** No output file is written before the saving stage: a run that fails
    while it reads, enumerates, filters, tags, decompiles or generates leaves
    the output files as they were. *)
Theorem run_writes_when_saving fuel args w w' :
  written_when_saving (events w) →
  world_of (run fuel args w) = Some w' →
  written_when_saving (events w').
Proof.
  assert (Hprocess : ∀ inputJsFile cacheFile modules,
            keeps_written_when_saving
              (process_modules fuel args inputJsFile cacheFile modules)).
  { intros inputJsFile cacheFile modules. unfold process_modules.
    pose proof check_modules_no_write. pose proof entry_stage_no_write.
    repeat first
      [ eapply keeps_written_when_saving_after, saving_confined
      | apply keeps_written_when_saving_bind;
          [apply confined_keeps_written_when_saving; confine|intros ?] ]. }
  assert (Hrun : keeps_written_when_saving (run fuel args)).
  { unfold run.
    destruct (negb (truthy_string (arg_in args)) || negb (truthy_string (arg_out args))).
    - apply confined_keeps_written_when_saving.
      assert (confined no_write (emit Usage)) by by apply confined_log.
      confine.
    - apply keeps_written_when_saving_bind;
        [apply confined_keeps_written_when_saving, enumerate_modules_no_write|].
      intros [[inputJsFile cacheFile] modules]. apply Hprocess. }
  apply Hrun.
Qed.

End WrittenAtTheEnd.

(** ** The loops of the driver terminate *)

Lemma bind_no_fuel {A B} (c : M A) (k : A → M B) (w : World) :
  c w ≠ OutOfFuel →
  (∀ a w1, c w = Ok a w1 → k a w1 ≠ OutOfFuel) →
  (c ≫= k) w ≠ OutOfFuel.
Proof.
  intros Hc Hk. unfold mbind, M_bind.
  destruct (c w) as [a w1| | |] eqn:E; try done. by apply Hk.
Qed.

Lemma confined_no_fuel_forEachM {A} (f : A → M unit) (l : list A) (w : World) :
  (∀ x w, f x w ≠ OutOfFuel) → forEachM f l w ≠ OutOfFuel.
Proof.
  intros Hf. revert w. induction l as [|x l IH]; intros w; simpl; [done|].
  apply bind_no_fuel; [apply Hf|]. intros _ w1 _. apply IH.
Qed.

Lemma lift_throw_no_fuel {A} err (o : option A) (w : World) :
  lift_throw err o w ≠ OutOfFuel.
Proof. by destruct o. Qed.

Section Termination.

Context {Ast : Type} `{!Collaborators Ast}.

#[local] Abbreviation Modules := (list (option (ModuleT Ast))).

Implicit Types (modules : Modules) (args : CmdArgs) (w : World).

Lemma length_forEach_module
    (f : Modules → nat → ModuleT Ast → option (ModuleT Ast))
    (refs : list nat) modules modules' :
  forEach_module f refs modules = Some modules' → length modules' = length modules.
Proof.
  revert modules. induction refs as [|r refs IH]; intros modules; simpl.
  - by intros [= <-].
  - destruct (modules !! r) as [[m|]|]; [|apply IH..].
    destruct (f modules r m) as [m1|]; [|done].
    intros ->%IH. apply length_insert.
Qed.

Lemma length_filter_from {A} (p : A → bool) (k : nat) (a : list (option A)) :
  length (filter_from p k a) ≤ length a.
Proof.
  revert k. induction a as [|[x|] a IH]; intros k; simpl; [done| |].
  - destruct (p x); simpl; specialize (IH (S k)); lia.
  - specialize (IH (S k)). lia.
Qed.

Lemma save_files_no_fuel out generatedFiles w :
  save_files out generatedFiles w ≠ OutOfFuel.
Proof.
  apply confined_no_fuel_forEachM. intros file w0. unfold save_file.
  apply bind_no_fuel; [done|]. intros exists_ w1 _.
  destruct exists_; simpl; [|done].
  apply bind_no_fuel; [unfold readFileSync; by destruct (files w1 !! _)|].
  intros content w2 _. by case_bool_decide.
Qed.

Lemma entry_stage_no_fuel fuel args cacheFile modules w :
  closure_fuel modules ≤ fuel →
  entry_stage fuel args cacheFile modules w ≠ OutOfFuel.
Proof.
  intros Hfuel. unfold entry_stage.
  destruct (entry args) as [E|]; [|done].
  destruct (entry_guard args cacheFile); [|done].
  unfold filter_by_entry, mbind, M_bind, console_log, emit.
  pose proof (entryModuleDependencies_spec (agressiveCache args) modules E fuel Hfuel).
  by destruct (entryModuleDependencies fuel (agressiveCache args) modules E).
Qed.

(** With fuel for the enumerated modules (three more than they have
    dependencies, and no less than the length of the array) neither loop of
    the driver runs out of fuel: the worklist of the entry filter and the
    rounds of the ignore propagation terminate in every run. *)
Theorem process_modules_terminates fuel args inputJsFile cacheFile modules w :
  run_fuel modules ≤ fuel →
  process_modules fuel args inputJsFile cacheFile modules w ≠ OutOfFuel.
Proof.
  unfold run_fuel. intros Hfuel. unfold process_modules.
  apply bind_no_fuel.
  { unfold check_modules. by destruct (length modules =? 0). }
  intros _ w0 _.
  apply bind_no_fuel; [apply entry_stage_no_fuel; lia|].
  intros modules0 w1 Hentry.
  assert (Hlen0 : length modules0 = length modules).
  { apply entry_stage_Ok in Hentry as [(_ & -> & _)|(E & s & _ & _ & _ & -> & _)];
      [done|apply length_delete_unused]. }
  apply bind_no_fuel; [done|]. intros _ w2 _.
  apply bind_no_fuel; [apply lift_throw_no_fuel|].
  intros modules1 w3 Hlen1%lift_throw_Ok%length_forEach_module.
  apply bind_no_fuel; [done|]. intros _ w4 _.
  apply bind_no_fuel; [apply lift_throw_no_fuel|].
  intros modules2 w5 Hlen2%lift_throw_Ok%length_forEach_module.
  apply bind_no_fuel; [done|]. intros _ w6 _.
  apply bind_no_fuel.
  { destruct (agressiveCache args).
    - by rewrite ignore_propagation_agressive_noop_aux.
    - destruct (ignore_loop_spec fuel modules2) as (modules3 & Hloop & _).
      + pose proof (length_filter_from (λ m : ModuleT Ast, negb (ignored m)) 0 modules2).
        unfold live, array_filter. lia.
      + unfold ignore_propagation, calculateModulesToIgnore. by rewrite Hloop. }
  intros modules3 w7 _.
  apply bind_no_fuel; [done|]. intros _ w8 _.
  apply bind_no_fuel; [apply lift_throw_no_fuel|]. intros modules4 w9 _.
  apply bind_no_fuel; [done|]. intros _ w10 _.
  apply bind_no_fuel; [apply lift_throw_no_fuel|]. intros generatedFiles w11 _.
  apply bind_no_fuel; [done|]. intros _ w12 _.
  apply bind_no_fuel; [apply save_files_no_fuel|]. intros _ w13 _.
  apply bind_no_fuel.
  { unfold cache_stage. by destruct (cache_guard args). }
  intros _ w14 _. unfold eslint_stage. by destruct (negb (noEslint args)).
Qed.

End Termination.

(** ** What a completed run leaves in the output folder *)

Lemma lift_throw_Ok_world {A} err (o : option A) w w' (a : A) :
  lift_throw err o w = Ok a w' → o = Some a ∧ w' = w.
Proof. destruct o; [by intros [= -> ->]|done]. Qed.

Section Completed.

Context {Ast : Type} `{!Collaborators Ast}.

#[local] Abbreviation Modules := (list (option (ModuleT Ast))).

Implicit Types (modules : Modules) (args : CmdArgs) (w : World).

Lemma ignore_propagation_more fuel agressive modules modules' :
  ignore_propagation fuel agressive modules = Some modules' →
  more_ignored modules modules'.
Proof. unfold ignore_propagation. apply ignore_loop_more. Qed.

Lemma decompile_module_moduleId modules i (m m' : ModuleT Ast) :
  decompile_module modules i m = Some m' → moduleId m' = moduleId m.
Proof.
  unfold decompile_module.
  destruct (Router_parse Editor editorList modules i m) as [m1|] eqn:E; [|done].
  cbn [mbind option_bind]. intros ->%Router_parse_moduleId.
  by apply Router_parse_moduleId in E.
Qed.

(** When the pipeline has completed (the lint pass apart), the output folder
    holds the generated code of every module that was left to decompile:
    the file of each one is there with exactly that code, whatever was in
    the folder before, and the cache file written afterwards has not
    replaced any of them. *)
Theorem completed_run_saves_generated_code fuel args inputJsFile cacheFile
    modules w w' :
  well_indexed modules →
  (∀ name, dirs w !! output_path (arg_out args) name = None) →
  process_modules fuel args inputJsFile cacheFile modules w = Ok tt w' →
  ∃ modules0 modules1 modules2 modules3 modules4 generatedFiles,
    (∃ w0, entry_stage fuel args cacheFile modules w = Ok modules0 w0)
    ∧ preparse_stage (nonIgnoredModules args modules0) modules0 = Some modules1
    ∧ tagging_stage (nonIgnoredModules args modules0) modules1 = Some modules2
    ∧ ignore_propagation fuel (agressiveCache args) modules2 = Some modules3
    ∧ decompiling_stage (nonIgnoredModules args modules3) modules3 = Some modules4
    ∧ generate (nonIgnoredModules args modules3) modules4 = Some generatedFiles
    ∧ generatedFiles.*1 = nonIgnoredModules args modules3
    ∧ ∀ name code, (name, code) ∈ generatedFiles →
        files w' !! output_path (arg_out args) name = Some code.
Proof.
  intros Hwi Hdirs Hrun. unfold process_modules in Hrun.
  apply bind_Ok_inv in Hrun as ([] & wa & Hcheck & Hrun).
  assert (wa = w) as ->.
  { unfold check_modules in Hcheck.
    destruct (length modules =? 0); [done|]. by injection Hcheck. }
  apply bind_Ok_inv in Hrun as (modules0 & w0 & Hentry & Hrun).
  apply bind_Ok_inv in Hrun as ([] & w1 & [= <-] & Hrun).
  apply bind_Ok_inv in Hrun as (modules1 & w2 & [H1 ->]%lift_throw_Ok_world & Hrun).
  apply bind_Ok_inv in Hrun as ([] & w3 & [= <-] & Hrun).
  apply bind_Ok_inv in Hrun as (modules2 & w4 & [H2 ->]%lift_throw_Ok_world & Hrun).
  apply bind_Ok_inv in Hrun as ([] & w5 & [= <-] & Hrun).
  apply bind_Ok_inv in Hrun as (modules3 & w6 & H3 & Hrun).
  destruct (ignore_propagation fuel (agressiveCache args) modules2)
    as [modules3'|] eqn:Hprop; [|done].
  injection H3 as -> <-.
  apply bind_Ok_inv in Hrun as ([] & w7 & [= <-] & Hrun).
  apply bind_Ok_inv in Hrun as (modules4 & w8 & [H4 ->]%lift_throw_Ok_world & Hrun).
  apply bind_Ok_inv in Hrun as ([] & w9 & [= <-] & Hrun).
  apply bind_Ok_inv in Hrun as (generatedFiles & w10 & [Hgen ->]%lift_throw_Ok_world & Hrun).
  apply bind_Ok_inv in Hrun as ([] & w11 & [= <-] & Hrun).
  apply bind_Ok_inv in Hrun as ([] & w12 & Hsave & Hrun).
  apply bind_Ok_inv in Hrun as ([] & w13 & Hcache & Hlint).
  assert (Hdirs0 : dirs w0 = dirs w).
  { by apply entry_stage_Ok in Hentry as [(_ & _ & ->)|(E & s & _ & _ & _ & _ & ->)]. }
  assert (Hwi4 : well_indexed modules4).
  { eapply (forEach_module_well_indexed decompile_module); [|exact H4|].
    { intros ????. apply decompile_module_moduleId. }
    eapply well_indexed_more_ignored; [by eapply ignore_propagation_more|].
    eapply (forEach_module_well_indexed (Router_parse Tagger taggerList)); [|exact H2|].
    { intros ????. apply Router_parse_moduleId. }
    eapply (forEach_module_well_indexed (λ _ _ m, Some (initalize m))); [|exact H1|].
    { by intros ???? [= <-]. }
    apply entry_stage_Ok in Hentry as [(_ & -> & _)|(E & s & _ & _ & _ & -> & _)];
      [done|by apply well_indexed_delete_unused]. }
  pose proof (generate_names _ _ _ Hwi4 Hgen) as Hnames.
  eexists modules0, modules1, modules2, modules3, modules4, generatedFiles.
  split_and!; [by exists w0|done..|].
  intros name code Hin.
  match type of Hsave with
  | save_files _ _ ?ws = _ =>
      destruct (save_files_inv (arg_out args) generatedFiles ws)
        as (w12' & written & Hsave' & _ & _ & _ & _ & Hpost & _)
  end.
  { rewrite Hnames. apply array_filter_NoDup. }
  { intros file _. simpl. rewrite Hdirs0. apply Hdirs. }
  rewrite Hsave in Hsave'. injection Hsave' as <-.
  assert (Hcached : files w13 !! output_path (arg_out args) name
                    = files w12 !! output_path (arg_out args) name).
  { unfold cache_stage in Hcache. destruct (cache_guard args).
    - apply bind_Ok_inv in Hcache as ([] & w14 & [= <-] & [= <-]). simpl.
      apply lookup_insert_ne, cache_path_not_output.
    - by injection Hcache as <-. }
  assert (Hlinted : files w' = files w13).
  { unfold eslint_stage in Hlint. destruct (negb (noEslint args)).
    - by apply bind_Ok_inv in Hlint as ([] & w14 & [= <-] & [= <-]).
    - by injection Hlint as <-. }
  rewrite Hlinted, Hcached. by apply Hpost.
Qed.

End Completed.

(** ** The slots of the enumerated modules *)

Section Slots.

Context {Ast : Type} `{!Collaborators Ast}.

#[local] Abbreviation Modules := (list (option (ModuleT Ast))).

Implicit Types (modules : Modules) (args : CmdArgs) (w : World).

Lemma load_cached_modules_well_indexed agressive (l : list CachedModule)
    modules w modules' w' :
  well_indexed modules →
  foldlM (load_cached_module agressive) modules l w = Ok modules' w' →
  well_indexed modules'.
Proof.
  revert modules w. induction l as [|cached l IH]; intros modules w Hwi; simpl.
  - by intros [= <- _].
  - intros (modules1 & w1 & Hstep & Hrest)%bind_Ok_inv.
    apply (IH modules1 w1); [|done].
    unfold load_cached_module in Hstep.
    destruct (babylon_parse (source_of_cached agressive cached)); [|done].
    injection Hstep as <- _. by apply well_indexed_registrations.
Qed.

Lemma build_modules_well_indexed args inputJsFile cacheFile w modules w' :
  build_modules args inputJsFile cacheFile w = Ok modules w' →
  well_indexed modules.
Proof.
  unfold build_modules. destruct cacheFile as [cf|].
  - unfold load_from_cache. intros ([] & w1 & _ & Hload)%bind_Ok_inv.
    by apply load_cached_modules_well_indexed in Hload.
  - unfold parse_bundle. intros ([] & w1 & _ & Hparse)%bind_Ok_inv.
    destruct (babylon_parse inputJsFile); [|done].
    apply bind_Ok_inv in Hparse as ([] & w2 & _ & [= <- _]).
    by apply well_indexed_registrations.
Qed.

(** Whether the modules come from the bundle or from the cache, each one
    sits in the slot of its own [moduleId]: the file name of a module, its
    position in the graph and the number its dependents use agree. *)
Theorem enumerated_modules_in_their_slots args w inputJsFile cacheFile modules w' :
  enumerate_modules args w = Ok (inputJsFile, cacheFile, modules) w' →
  ∀ i m, modules !! i = Some (Some m) → moduleId m = i.
Proof.
  unfold enumerate_modules, load_modules.
  intros ([] & w1 & _ & Hrun)%bind_Ok_inv.
  apply bind_Ok_inv in Hrun as ([] & w2 & _ & Hrun).
  apply bind_Ok_inv in Hrun as (input & w3 & _ & Hrun).
  apply bind_Ok_inv in Hrun as ([cacheFile' modules'] & w4 & Hload & [= _ _ <- _]).
  apply bind_Ok_inv in Hload as (cf0 & w5 & _ & Hload).
  apply bind_Ok_inv in Hload as (cf1 & w6 & _ & Hload).
  apply bind_Ok_inv in Hload as (modules1 & w7 & Hbuild & [= _ <- _]).
  by apply build_modules_well_indexed in Hbuild.
Qed.

End Slots.

(** ** The text that is parsed *)

Section ReadInput.

Context {Ast : Type} `{!Collaborators Ast}.

Implicit Types (args : CmdArgs) (w : World).

Lemma confined_read_input args : confined prints_only (read_input args).
Proof. unfold read_input. confine. Qed.

Lemma prints_only_files w w' :
  extends_by prints_only w w' → files w' = files w.
Proof.
  intros (evs & _ & Hevs & Hfiles). apply map_eq. intros path. apply Hfiles.
  rewrite Forall_forall in Hevs.
  split_and!; [intros content|..]; intros Hin; exact (Hevs _ Hin).
Qed.

(** The text that is parsed starts with the input bundle, and it is the
    bundle itself exactly when there is no bundles folder: a folder that
    exists, even an empty one, adds at least a line feed (and so changes the
    checksum).  Reading changes no file. *)
Theorem read_input_extends_bundle args w text w' :
  read_input args w = Ok text w' →
  ∃ content rest,
    files w !! template_string (arg_in args) = Some content
    ∧ text = content ++ rest
    ∧ (rest = [] ↔
       files w !! bundlesFolder args = None ∧ dirs w !! bundlesFolder args = None)
    ∧ files w' = files w.
Proof.
  intros Hread.
  assert (Hfiles : files w' = files w).
  { apply prints_only_files, (confined_read_input args). by rewrite Hread. }
  unfold read_input in Hread.
  apply bind_Ok_inv in Hread as (content & w1 & Hcontent & Hread).
  unfold readFileSync in Hcontent.
  destruct (files w !! template_string (arg_in args)) as [content'|] eqn:Hin;
    [|done].
  injection Hcontent as -> ->.
  apply bind_Ok_inv in Hread as (unbundled & w2 & Hexists & Hread).
  injection Hexists as <- <-.
  exists content. case_bool_decide as Hfolder.
  - apply bind_Ok_inv in Hread as ([] & w3 & _ & Hread).
    apply bind_Ok_inv in Hread as (names & w4 & _ & Hread).
    apply bind_Ok_inv in Hread as (unbundleFiles & w5 & _ & Hread).
    injection Hread as <- _.
    eexists. split_and!; [done|done| |done].
    split; [done|]. intros [Hf Hd]. rewrite Hf, Hd in Hfolder.
    by destruct Hfolder as [[? ?]|[? ?]].
  - injection Hread as <- _. exists []. split_and!; [done|by rewrite app_nil_r| |done].
    split; [|done]. intros _.
    split; apply eq_None_not_Some; intros ?; apply Hfolder; auto.
Qed.

End ReadInput.

(** * The further properties on the sample bundle *)

Section FurtherOnTheSample.

#[local] Existing Instance Sample.collaborators.

Lemma evaluate_tags_any_occurrence_witness :
  evaluate (Sample.plain 7 [] (js "x;" ++ Sample.source5 ++ js ";y"))
  = tagAsNpmModule "@babel/runtime/helpers/toConsumableArray"
      (Sample.plain 7 [] (js "x;" ++ Sample.source5 ++ js ";y")).
Proof.
  apply (evaluate_tags_any_occurrence
           (Sample.plain 7 [] (js "x;" ++ Sample.source5 ++ js ";y"))
           (js "x;") Sample.source5 (js ";y")).
  - reflexivity.
  - vm_compute. reflexivity.
Defined.

Lemma evaluate_skips_short_code_witness :
  length (originalCode (Sample.plain 0 [1] Sample.source0)) < 99
  ∧ evaluate (Sample.plain 0 [1] Sample.source0) = Sample.plain 0 [1] Sample.source0.
Proof.
  assert (Hshort : length (originalCode (Sample.plain 0 [1] Sample.source0)) < 99)
    by (vm_compute; lia).
  split; [exact Hshort|].
  exact (evaluate_skips_short_code (Sample.plain 0 [1] Sample.source0) Hshort).
Defined.

Lemma evaluate_match_has_no_line_terminator_witness :
  ∃ pre mid post,
    originalCode (Sample.plain 5 [] Sample.source5) = pre ++ mid ++ post
    ∧ length mid = 99
    ∧ ∀ c, c ∈ mid → is_line_terminator c = false.
Proof.
  apply (evaluate_match_has_no_line_terminator (Sample.plain 5 [] Sample.source5)).
  intros H. apply (f_equal isNpmModule) in H. vm_compute in H. discriminate H.
Defined.

Lemma entry_stage_frame_witness :
  ∃ modules' w',
    entry_stage 5 (Sample.args (Some (Num 2)) false) None Sample.graph Sample.world
    = Ok modules' w'
    ∧ length modules' = length Sample.graph
    ∧ (∀ i m, modules' !! i = Some (Some m) → Sample.graph !! i = Some (Some m))
    ∧ (∀ i, Sample.graph !! i = Some None → modules' !! i = Some None)
    ∧ files w' = files Sample.world.
Proof.
  pose (r := entry_stage 5 (Sample.args (Some (Num 2)) false) None Sample.graph
               Sample.world).
  assert (Hr : ∃ modules' w', r = Ok modules' w')
    by (vm_compute; eexists _, _; reflexivity).
  destruct Hr as (modules' & w' & Hr). exists modules', w'. split; [exact Hr|].
  exact (entry_stage_frame 5 (Sample.args (Some (Num 2)) false) None Sample.graph
           Sample.world modules' w' Hr).
Defined.

Lemma entry_module_survives_witness :
  ∃ modules' w',
    entry_stage 5 (Sample.args (Some (Num 2)) false) None Sample.graph Sample.world
    = Ok modules' w'
    ∧ ∃ i m, modules' !! i = Some (Some m) ∧ Num 2 = id_number (moduleId m).
Proof.
  pose (r := entry_stage 5 (Sample.args (Some (Num 2)) false) None Sample.graph
               Sample.world).
  assert (Hr : ∃ modules' w', r = Ok modules' w')
    by (vm_compute; eexists _, _; reflexivity).
  destruct Hr as (modules' & w' & Hr). exists modules', w'. split; [exact Hr|].
  exact (entry_module_survives 5 (Sample.args (Some (Num 2)) false) None Sample.graph
           Sample.world modules' w' (Num 2) eq_refl eq_refl Hr).
Defined.

Lemma entry_stage_idempotent_witness :
  ∃ modules' w',
    entry_stage 5 (Sample.args (Some (Num 2)) false) None Sample.graph Sample.world
    = Ok modules' w'
    ∧ ∃ w3, entry_stage 5 (Sample.args (Some (Num 2)) false) None modules' w'
            = Ok modules' w3.
Proof.
  assert (Hfuel : closure_fuel Sample.graph ≤ 5) by (vm_compute; lia).
  pose (r := entry_stage 5 (Sample.args (Some (Num 2)) false) None Sample.graph
               Sample.world).
  assert (Hr : ∃ modules' w', r = Ok modules' w')
    by (vm_compute; eexists _, _; reflexivity).
  destruct Hr as (modules' & w' & Hr). exists modules', w'. split; [exact Hr|].
  exact (entry_stage_idempotent 5 (Sample.args (Some (Num 2)) false) None Sample.graph
           Sample.world modules' w' w' Hfuel Hr).
Defined.

Lemma ignore_propagation_idempotent_witness :
  ∃ modules',
    ignore_propagation 2 false Sample.npm_graph = Some modules'
    ∧ ignore_propagation 0 false modules' = Some modules'.
Proof.
  pose (modules' := default [] (ignore_propagation 2 false Sample.npm_graph)).
  assert (H : ignore_propagation 2 false Sample.npm_graph = Some modules')
    by (vm_compute; reflexivity).
  exists modules'. split; [exact H|].
  exact (ignore_propagation_idempotent 2 0 false Sample.npm_graph modules' H).
Defined.

Lemma ignore_propagation_justified_witness :
  ∃ modules',
    ignore_propagation 2 false Sample.npm_graph = Some modules'
    ∧ modules' !! 1 = Some (Some (set_ignored true (Sample.plain 1 [] [])))
    ∧ (∃ o, o ∈ present modules'
            ∧ moduleId (Sample.plain 1 [] []) ∈ dependencies o)
    ∧ (∀ o, o ∈ present modules' →
            moduleId (Sample.plain 1 [] []) ∈ dependencies o →
            ignored o = true ∨ moduleId o ∈ dependencies (Sample.plain 1 [] [])).
Proof.
  pose (modules' := default [] (ignore_propagation 2 false Sample.npm_graph)).
  assert (H : ignore_propagation 2 false Sample.npm_graph = Some modules')
    by (vm_compute; reflexivity).
  assert (H1 : modules' !! 1 = Some (Some (set_ignored true (Sample.plain 1 [] []))))
    by (vm_compute; reflexivity).
  exists modules'. split; [exact H|]. split; [exact H1|].
  exact (proj2 (proj2 (ignore_propagation_justified 2 false Sample.npm_graph modules' 1
                         (Sample.plain 1 [] []) (set_ignored true (Sample.plain 1 [] []))
                         H eq_refl eq_refl H1 eq_refl))).
Defined.

Lemma ignore_propagation_keeps_roots_witness :
  ∃ modules',
    ignore_propagation 6 false Sample.loaded = Some modules'
    ∧ modules' !! 0 = Some (Some (Sample.plain 0 [1] Sample.source0)).
Proof.
  pose (modules' := default [] (ignore_propagation 6 false Sample.loaded)).
  assert (H : ignore_propagation 6 false Sample.loaded = Some modules')
    by (vm_compute; reflexivity).
  exists modules'. split; [exact H|].
  apply (ignore_propagation_keeps_roots 6 false Sample.loaded modules' 0
           (Sample.plain 0 [1] Sample.source0) H eq_refl).
  apply Forall_forall. apply (bool_decide_unpack _). vm_compute. exact I.
Defined.

Lemma enumeration_last_wins_witness :
  ∃ modules w',
    parse_bundle Sample.patched_bundle Sample.patched_world = Ok modules w'
    ∧ modules !! 1
      = Some (Some (new_Module (Sample.registration_of (1, [5], Sample.patch1))))
    ∧ ∃ originalFile,
        babylon_parse Sample.patched_bundle = Some originalFile
        ∧ (∀ r, r ∈ d_calls originalFile → array_index (reg_moduleId r))
        ∧ (∀ i m, modules !! i = Some (Some m) ↔
                  ∃ r, last_with_id reg_moduleId i (d_calls originalFile) = Some r
                       ∧ m = new_Module r)
        ∧ (∀ i, i < length modules ↔
                ∃ r, r ∈ d_calls originalFile ∧ i ≤ reg_moduleId r)
        ∧ well_indexed modules.
Proof.
  pose (r := parse_bundle Sample.patched_bundle Sample.patched_world).
  assert (Hr : ∃ modules w', r = Ok modules w')
    by (vm_compute; eexists _, _; reflexivity).
  destruct Hr as (modules & w' & Hr). exists modules, w'. split; [exact Hr|].
  unfold r in Hr.
  destruct (enumeration_last_wins Sample.patched_bundle Sample.patched_world modules w' Hr)
    as (originalFile & Hfile & Hlast & Hlen & Hwell).
  assert (Hcalls : d_calls originalFile
                   = Sample.registration_of
                     <$> [(0, [1], Sample.source0); (1, [2], Sample.source1);
                          (2, [5], Sample.source2); (5, [], Sample.source5);
                          (1, [5], Sample.patch1)]).
  { vm_compute in Hfile. injection Hfile as <-. reflexivity. }
  assert (Hindex : ∀ r, r ∈ d_calls originalFile → array_index (reg_moduleId r)).
  { rewrite Hcalls. apply Forall_forall.
    repeat constructor; vm_compute; reflexivity. }
  split.
  - apply Hlast. rewrite Hcalls. eexists. split; reflexivity.
  - exists originalFile. split_and!; [exact Hfile|exact Hindex|exact Hlast| |exact Hwell].
    exact (Hlen Hindex).
Defined.

Lemma cache_load_registers_all_witness :
  ∃ modules w',
    load_from_cache false Sample.cache Sample.world = Ok modules w'
    ∧ ∀ i, (∃ m, modules !! i = Some (Some m)) ↔
           ∃ c, c ∈ cached_modules Sample.cache ∧ cached_moduleId c = i.
Proof.
  apply (cache_load_registers_all Sample.cache Sample.world).
  change (cached_modules Sample.cache)
    with [Sample.cached0; Sample.cached1; Sample.cached2; Sample.cached5].
  intros c Hc. rewrite !elem_of_cons in Hc.
  destruct Hc as [->|[->|[->|[->|Hc]]]]; [..|by apply elem_of_nil in Hc];
    eexists; (split; [reflexivity|]); vm_compute; reflexivity.
Defined.

Lemma generated_files_of_live_modules_witness :
  ∃ modules3 modules4 generatedFiles,
    (∃ modules1 modules2,
       preparse_stage [0; 1] Sample.loaded = Some modules1
       ∧ tagging_stage [0; 1] modules1 = Some modules2
       ∧ ignore_propagation 6 false modules2 = Some modules3
       ∧ decompiling_stage (nonIgnoredModules (Sample.args None false) modules3) modules3
         = Some modules4)
    ∧ generate (nonIgnoredModules (Sample.args None false) modules3) modules4
      = Some generatedFiles
    ∧ NoDup generatedFiles.*1
    ∧ ∀ name, name ∈ generatedFiles.*1 ↔
              ∃ m, modules3 !! name = Some (Some m)
                   ∧ (decompileIgnored (Sample.args None false) = true
                      ∨ ignored m = false).
Proof.
  pose (modules1 := default [] (preparse_stage [0; 1] Sample.loaded)).
  pose (modules2 := default [] (tagging_stage [0; 1] modules1)).
  pose (modules3 := default [] (ignore_propagation 6 false modules2)).
  pose (modules4 := default []
          (decompiling_stage (nonIgnoredModules (Sample.args None false) modules3) modules3)).
  pose (generatedFiles := default []
          (generate (nonIgnoredModules (Sample.args None false) modules3) modules4)).
  assert (Hwell : well_indexed modules4).
  { intros [|[|[|[|[|[|i]]]]]] m Hm; vm_compute in Hm;
      first [discriminate Hm|injection Hm as <-; reflexivity]. }
  assert (H1 : preparse_stage [0; 1] Sample.loaded = Some modules1)
    by (vm_compute; reflexivity).
  assert (H2 : tagging_stage [0; 1] modules1 = Some modules2)
    by (vm_compute; reflexivity).
  assert (H3 : ignore_propagation 6 false modules2 = Some modules3)
    by (vm_compute; reflexivity).
  assert (H4 : decompiling_stage (nonIgnoredModules (Sample.args None false) modules3)
                 modules3 = Some modules4)
    by (vm_compute; reflexivity).
  assert (H : generate (nonIgnoredModules (Sample.args None false) modules3) modules4
              = Some generatedFiles)
    by (vm_compute; reflexivity).
  exists modules3, modules4, generatedFiles.
  split; [exact (ex_intro _ modules1 (ex_intro _ modules2
                   (conj H1 (conj H2 (conj H3 H4)))))|].
  split; [exact H|].
  exact (generated_files_of_live_modules (Sample.args None false) modules3
           modules4 generatedFiles Hwell H).
Defined.

Lemma save_files_idempotent_witness :
  ∃ w',
    save_files (Some "out") [(1, Sample.source1); (2, Sample.source2)] Sample.saved_world
    = Ok tt w'
    ∧ save_files (Some "out") [(1, Sample.source1); (2, Sample.source2)] w' = Ok tt w'.
Proof.
  pose (r := save_files (Some "out") [(1, Sample.source1); (2, Sample.source2)]
               Sample.saved_world).
  assert (Hr : ∃ w', r = Ok tt w') by (vm_compute; eexists; reflexivity).
  destruct Hr as [w' Hr]. exists w'. split; [exact Hr|].
  apply (save_files_idempotent (Some "out") [(1, Sample.source1); (2, Sample.source2)]
           Sample.saved_world w'); [|..|exact Hr].
  - apply (bool_decide_unpack _). vm_compute. exact I.
  - intros file _. apply lookup_empty.
Defined.

Lemma run_touches_only_its_files_witness :
  ∃ w',
    run 20 (Sample.args (Some (Num 1)) false) Sample.world = Ok tt w'
    ∧ (∃ evs, events w' = events Sample.world ++ evs
              ∧ Forall (allowed_event (Sample.args (Some (Num 1)) false)) evs)
    ∧ ∀ path,
        (∀ name, path ≠ output_path (arg_out (Sample.args (Some (Num 1)) false)) name) →
        path ≠ cacheFileName (Sample.args (Some (Num 1)) false) →
        files w' !! path = files Sample.world !! path.
Proof.
  pose (r := run 20 (Sample.args (Some (Num 1)) false) Sample.world).
  assert (Hr : ∃ w', r = Ok tt w') by (vm_compute; eexists; reflexivity).
  destruct Hr as [w' Hr]. exists w'. split; [exact Hr|].
  apply (run_touches_only_its_files 20 (Sample.args (Some (Num 1)) false) Sample.world w').
  change (world_of r = Some w'). rewrite Hr. reflexivity.
Defined.

Lemma cache_written_iff_guard_witness :
  ∃ w',
    run 20 (Sample.args (Some (Num 1)) false) Sample.world = Ok tt w'
    ∧ (WriteCache (cacheFileName (Sample.args (Some (Num 1)) false)) ∈ events w'
       ↔ cache_guard (Sample.args (Some (Num 1)) false) = true).
Proof.
  pose (r := run 20 (Sample.args (Some (Num 1)) false) Sample.world).
  assert (Hr : ∃ w', r = Ok tt w') by (vm_compute; eexists; reflexivity).
  destruct Hr as [w' Hr]. exists w'. split; [exact Hr|].
  apply (cache_written_iff_guard 20 (Sample.args (Some (Num 1)) false) Sample.world w' Hr).
  intros path H. destruct (not_elem_of_nil _ H).
Defined.

Lemma agressive_run_needs_cache_witness :
  run 20 (Sample.args (Some (Num 0)) true) Sample.prepared_world =
  Exit 1 (add_event
            (LogError "A cache file must be generated first before using the agressive cache")
            (add_event (Log "Reading file...") Sample.prepared_world)).
Proof.
  apply (agressive_run_needs_cache 20 (Sample.args (Some (Num 0)) true)
           Sample.prepared_world Sample.bundle []);
    vm_compute; reflexivity.
Defined.

Lemma run_writes_when_saving_witness :
  ∃ w',
    run 20 (Sample.args (Some (Num 1)) false) Sample.world = Ok tt w'
    ∧ written_when_saving (events w').
Proof.
  pose (r := run 20 (Sample.args (Some (Num 1)) false) Sample.world).
  assert (Hr : ∃ w', r = Ok tt w') by (vm_compute; eexists; reflexivity).
  destruct Hr as [w' Hr]. exists w'. split; [exact Hr|].
  apply (run_writes_when_saving 20 (Sample.args (Some (Num 1)) false) Sample.world w').
  - intros path content H. destruct (not_elem_of_nil _ H).
  - change (world_of r = Some w'). rewrite Hr. reflexivity.
Defined.

Lemma completed_run_saves_generated_code_witness :
  ∃ w',
    process_modules 20 (Sample.args None false) Sample.bundle None Sample.loaded
      Sample.world = Ok tt w'
    ∧ ∃ modules0 modules1 modules2 modules3 modules4 generatedFiles,
        (∃ w0, entry_stage 20 (Sample.args None false) None Sample.loaded Sample.world
               = Ok modules0 w0)
        ∧ preparse_stage (nonIgnoredModules (Sample.args None false) modules0) modules0
          = Some modules1
        ∧ tagging_stage (nonIgnoredModules (Sample.args None false) modules0) modules1
          = Some modules2
        ∧ ignore_propagation 20 (agressiveCache (Sample.args None false)) modules2
          = Some modules3
        ∧ decompiling_stage (nonIgnoredModules (Sample.args None false) modules3) modules3
          = Some modules4
        ∧ generate (nonIgnoredModules (Sample.args None false) modules3) modules4
          = Some generatedFiles
        ∧ generatedFiles.*1 = nonIgnoredModules (Sample.args None false) modules3
        ∧ ∀ name code, (name, code) ∈ generatedFiles →
            files w' !! output_path (arg_out (Sample.args None false)) name = Some code.
Proof.
  pose (r := process_modules 20 (Sample.args None false) Sample.bundle None
               Sample.loaded Sample.world).
  assert (Hr : ∃ w', r = Ok tt w') by (vm_compute; eexists; reflexivity).
  destruct Hr as [w' Hr]. exists w'. split; [exact Hr|].
  apply (completed_run_saves_generated_code 20 (Sample.args None false) Sample.bundle
           None Sample.loaded Sample.world w'); [| |exact Hr].
  - intros [|[|[|[|[|[|i]]]]]] m Hm; vm_compute in Hm;
      first [discriminate Hm|injection Hm as <-; reflexivity].
  - intros name. apply lookup_empty.
Defined.

Lemma enumerated_modules_in_their_slots_witness :
  ∃ inputJsFile cacheFile modules w',
    enumerate_modules (Sample.args (Some (Num 0)) false) Sample.cached_world
    = Ok (inputJsFile, cacheFile, modules) w'
    ∧ ∀ i m, modules !! i = Some (Some m) → moduleId m = i.
Proof.
  pose (r := enumerate_modules (Sample.args (Some (Num 0)) false) Sample.cached_world).
  assert (Hr : ∃ inputJsFile cacheFile modules w',
                 r = Ok (inputJsFile, cacheFile, modules) w')
    by (vm_compute; eexists _, _, _, _; reflexivity).
  destruct Hr as (inputJsFile & cacheFile & modules & w' & Hr).
  exists inputJsFile, cacheFile, modules, w'. split; [exact Hr|].
  exact (enumerated_modules_in_their_slots (Sample.args (Some (Num 0)) false)
           Sample.cached_world inputJsFile cacheFile modules w' Hr).
Defined.

Lemma read_input_extends_bundle_witness :
  ∃ content rest,
    files Sample.world !! template_string (arg_in (Sample.args None false)) = Some content
    ∧ Sample.bundle = content ++ rest
    ∧ (rest = [] ↔
       files Sample.world !! bundlesFolder (Sample.args None false) = None
       ∧ dirs Sample.world !! bundlesFolder (Sample.args None false) = None)
    ∧ files Sample.world = files Sample.world.
Proof.
  apply (read_input_extends_bundle (Sample.args None false) Sample.world
           Sample.bundle Sample.world).
  vm_compute. reflexivity.
Defined.

Lemma process_modules_terminates_witness :
  run_fuel Sample.loaded ≤ 20
  ∧ process_modules 20 (Sample.args None false) Sample.bundle None Sample.loaded
      Sample.world ≠ OutOfFuel.
Proof.
  assert (Hfuel : run_fuel Sample.loaded ≤ 20) by (vm_compute; lia).
  split; [exact Hfuel|].
  exact (process_modules_terminates 20 (Sample.args None false) Sample.bundle None
           Sample.loaded Sample.world Hfuel).
Defined.

End FurtherOnTheSample.
